(** * lattice-symmetries: symmetry groups and orbit representatives

    A shallow embedding of two translation units of the library:

    - the symmetry-spec algebra and the group closure ([rational_add], [equal],
      [compose], [make_group], [make_identity_spec]) together with the group
      facade ([ls_create_trivial_group], [ls_get_group_size],
      [ls_group_get_number_spins], [ls_group_get_network_depth],
      [ls_group_dump_symmetry_info]);
    - [state_info.cpp]: the flip masks, the eight-lane accumulator
      [batch_acc_64_arch_t] with its tree reduction, and the three entry points
      [get_state_info_arch] (64-bit), [is_representative_arch] and
      [get_state_info_arch] (512-bit).

    Machine integers are integers of [Z] with their wrap-around written out,
    [double] is the kernel's binary64 ([PrimFloat]), a vector register maps the
    lanes 0 to 7 to their values. *)

From Stdlib Require Import ZArith List Bool Lia Floats Uint63.
Import ListNotations.
Open Scope Z_scope.

(** ** Machine integers *)

(** [uint16_t], [unsigned] (32 bits on every target of the library) and
    [uint64_t]: conversion to the type reduces modulo its range. *)
Definition u16 (z : Z) : Z := z mod 65536.
Definition u32 (z : Z) : Z := z mod 4294967296.
Definition u64 (z : Z) : Z := z mod 18446744073709551616.

(** ** Error codes and outcomes *)

Inductive ls_error_code : Type :=
| LS_SUCCESS
| LS_INVALID_NUMBER_SPINS
| LS_INCOMPATIBLE_SYMMETRIES
| LS_SYSTEM_ERROR.

(** What a call produces: a value, an error code of the library
    ([outcome::failure]), or no result at all ([Crash]): the C++ behaviour is
    undefined there (an index out of range, a division by zero) or a
    [LATTICE_SYMMETRIES_CHECK]/[LATTICE_SYMMETRIES_ASSERT] ends the process. *)
Inductive result (A : Type) : Type :=
| Ok (a : A)
| Failure (e : ls_error_code)
| Crash.

Arguments Ok {A} a.
Arguments Failure {A} e.
Arguments Crash {A}.

(** [OUTCOME_TRY]: go on with the value, hand anything else to the caller. *)
Definition bind {A B : Type} (r : result A) (k : A -> result B) : result B :=
  match r with
  | Ok a => k a
  | Failure e => Failure e
  | Crash => Crash
  end.

Notation "x <- r ;; k" := (bind r (fun x => k))
  (at level 61, r at next level, right associativity).

Fixpoint mapM {A B : Type} (f : A -> result B) (l : list A) : result (list B) :=
  match l with
  | [] => Ok []
  | a :: l' => b <- f a ;; bs <- mapM f l' ;; Ok (b :: bs)
  end.

(** ** Symmetry specs *)

Record symmetry_spec_t : Type := {
  permutation : list Z;   (* std::vector<uint16_t> *)
  sector : Z;             (* uint16_t *)
  periodicity : Z         (* uint16_t *)
}.

(** [v[i]] of a [std::vector]: undefined outside the vector. *)
Definition at_index (v : list Z) (i : Z) : result Z :=
  if (0 <=? i) && (i <? Z.of_nat (length v))
  then Ok (nth (Z.to_nat i) v 0)
  else Crash.

(** [rational_add] on pairs of [unsigned]: the numerator and the denominator
    are computed in 32 bits; [p /= m], [q /= m] and [p % q] are undefined when
    the divisor is zero. *)
Definition rational_add (a b : Z * Z) : result (Z * Z) :=
  let p := u32 (fst a * snd b + fst b * snd a) in
  let q := u32 (snd a * snd b) in
  let m := Z.gcd p q in
  if m =? 0 then Crash
  else
    let p := p / m in
    let q := q / m in
    if q =? 0 then Crash else Ok (p mod q, q).

Fixpoint list_eqb (l1 l2 : list Z) : bool :=
  match l1, l2 with
  | [], [] => true
  | a :: l1', b :: l2' => (a =? b) && list_eqb l1' l2'
  | _, _ => false
  end.

(** [equal]: the lengths are compared first, so [std::equal] runs over two
    ranges of one length. *)
Definition equal (x y : symmetry_spec_t) : result bool :=
  if negb (Nat.eqb (length (permutation x)) (length (permutation y)))
  then Failure LS_INCOMPATIBLE_SYMMETRIES
  else if negb (periodicity x =? periodicity y) then Ok false
  else
    let r := list_eqb (permutation x) (permutation y) in
    if r then
      if negb (sector x =? sector y)
      then Failure LS_INCOMPATIBLE_SYMMETRIES
      else Ok true
    else Ok false.

(** [std::iota] into a [std::vector<uint16_t>] of size [n]. *)
Definition iota (n : nat) : list Z := map (fun i => u16 (Z.of_nat i)) (seq 0 n).

Section Closure.

(** [compute_periodicity] is declared in a header that is not part of the two
    translation units: it is a parameter of the algebra. Its result is an
    [unsigned]. *)
Variable compute_periodicity : list Z -> Z.

Definition compose (x y : symmetry_spec_t) : result symmetry_spec_t :=
  if negb (Nat.eqb (length (permutation x)) (length (permutation y)))
  then Failure LS_INCOMPATIBLE_SYMMETRIES
  else
    let permutation0 := iota (length (permutation x)) in
    (* Apply y to permutation and save to temp *)
    temp <- mapM (at_index (permutation y)) permutation0 ;;
    (* Apply x to temp and save to permutation *)
    permutation1 <- mapM (at_index (permutation x)) temp ;;
    let periodicity1 := u32 (compute_periodicity permutation1) in
    phase <- rational_add (sector x, periodicity x) (sector y, periodicity y) ;;
    if snd phase >? periodicity1 then Failure LS_INCOMPATIBLE_SYMMETRIES
    else if negb (periodicity1 mod snd phase =? 0)
    then Failure LS_INCOMPATIBLE_SYMMETRIES
    else
      let sector1 := u32 (fst phase * (periodicity1 / snd phase)) in
      Ok {| permutation := permutation1;
            sector := u16 sector1;
            periodicity := u16 periodicity1 |}.

(** The lambda [contains] of [make_group]: the first [equal] that fails ends
    the search with its error. *)
Fixpoint contains (gs : list symmetry_spec_t) (x : symmetry_spec_t) : result bool :=
  match gs with
  | [] => Ok false
  | g :: gs' =>
      b <- equal g x ;;
      if b then Ok true else contains gs' x
  end.

(** First loop of [make_group]: the generators, without repetitions. *)
Fixpoint dedup (group generators : list symmetry_spec_t) : result (list symmetry_spec_t) :=
  match generators with
  | [] => Ok group
  | g :: rest =>
      b <- contains group g ;;
      dedup (if b then group else group ++ [g]) rest
  end.

(** Inner loop over [g2] for one [g1]; [extra] is threaded through. *)
Fixpoint round_inner (group : list symmetry_spec_t) (g1 : symmetry_spec_t)
    (g2s extra : list symmetry_spec_t) : result (list symmetry_spec_t) :=
  match g2s with
  | [] => Ok extra
  | g2 :: rest =>
      g <- compose g1 g2 ;;
      in_group <- contains group g ;;
      if in_group then round_inner group g1 rest extra
      else
        in_extra <- contains extra g ;;
        round_inner group g1 rest (if in_extra then extra else extra ++ [g])
  end.

(** Outer loop over [g1]. *)
Fixpoint round_outer (group g1s extra : list symmetry_spec_t)
    : result (list symmetry_spec_t) :=
  match g1s with
  | [] => Ok extra
  | g1 :: rest =>
      extra' <- round_inner group g1 group extra ;;
      round_outer group rest extra'
  end.

(** The [for (;;)] loop: [fuel] bounds the number of rounds, [None] is a run
    that needs more of them. *)
Fixpoint closure_loop (fuel : nat) (group : list symmetry_spec_t)
    : option (result (list symmetry_spec_t)) :=
  match fuel with
  | O => None
  | S fuel' =>
      match round_outer group group [] with
      | Ok [] => Some (Ok group)
      | Ok extra => closure_loop fuel' (group ++ extra)
      | Failure e => Some (Failure e)
      | Crash => Some Crash
      end
  end.

Definition make_group (fuel : nat) (generators : list symmetry_spec_t)
    : option (result (list symmetry_spec_t)) :=
  match generators with
  | [] => Some (Ok [])
  | _ =>
      match dedup [] generators with
      | Ok group => closure_loop fuel group
      | Failure e => Some (Failure e)
      | Crash => Some Crash
      end
  end.

End Closure.

(** [make_identity_spec]: the loop counter is a [uint16_t] compared with
    [static_cast<uint16_t>(number_spins)]. *)
Definition make_identity_spec (number_spins : Z) : symmetry_spec_t :=
  {| permutation := map Z.of_nat (seq 0 (Z.to_nat (u16 number_spins)));
     sector := 0;
     periodicity := 1 |}.

(** ** Compiled symmetries and the group facade *)

Definition complex : Type := (float * float)%type.

(** Modelled from the spec: the compiled permutation network
    ([fat_benes_network_t], declared outside the two translation units). Only
    what the facade reads is kept: the permutation the network realises
    ([to_spec] reads it back with [permutation<uint16_t>()]) and its depth. *)
Record fat_benes_network_t : Type := {
  net_permutation : list Z;
  net_depth : Z
}.

Record ls_symmetry : Type := {
  network : fat_benes_network_t;
  sym_sector : Z;
  sym_periodicity : Z;
  eigenvalue : complex;
  is_big : bool             (* big_symmetry_t or small_symmetry_t payload *)
}.

Record ls_group : Type := { payload : list ls_symmetry }.

(** [int]: the two's complement value of 32 bits. *)
Definition to_int (z : Z) : Z :=
  let w := u32 z in if w <? 2147483648 then w else w - 4294967296.

(** Modelled from the spec: [ls_symmetry_get_number_spins], the number of
    elements the compiled network permutes. *)
Definition ls_symmetry_get_number_spins (s : ls_symmetry) : Z :=
  u32 (Z.of_nat (length (net_permutation (network s)))).

(** Modelled from the spec: [ls_symmetry_get_network_depth]. *)
Definition ls_symmetry_get_network_depth (s : ls_symmetry) : Z :=
  u32 (net_depth (network s)).

Definition ls_get_group_size (group : ls_group) : Z :=
  u32 (Z.of_nat (length (payload group))).

Definition ls_group_get_number_spins (group : ls_group) : Z :=
  match payload group with
  | [] => -1
  | front :: _ => to_int (ls_symmetry_get_number_spins front)
  end.

(** The [LATTICE_SYMMETRIES_CHECK] on the depths ends the process when two
    networks of the group disagree. *)
Definition ls_group_get_network_depth (group : ls_group) : result Z :=
  match payload group with
  | [] => Ok (-1)
  | front :: rest =>
      let depth := ls_symmetry_get_network_depth front in
      if forallb (fun s => ls_symmetry_get_network_depth s =? depth) rest
      then Ok (to_int depth)
      else Crash
  end.

(** [*(eigenvalues + i) = z]: a write into the caller's array, undefined past
    its end. *)
Definition store {A : Type} (buffer : list A) (i : nat) (a : A) : result (list A) :=
  if Nat.ltb i (length buffer)
  then Ok (firstn i buffer ++ a :: skipn (S i) buffer)
  else Crash.

Section Facade.

(** The collaborators of the facade that live in other translation units:
    the network compiler, the eigenvalue of a sector, and the two writers of
    network parameters, each acting on its own output buffer. *)
Variable compile : list Z -> option fat_benes_network_t.   (* [None]: no value *)
Variable compute_eigenvalue : Z -> Z -> complex.
Variables masks_t shifts_t : Type.
Variable ls_symmetry_get_network_shifts : ls_symmetry -> shifts_t -> shifts_t.
(* symmetry, column of the row-major buffer, stride *)
Variable ls_symmetry_get_network_masks : ls_symmetry -> nat -> Z -> masks_t -> masks_t.

(** [from_spec]: a failed compilation is caught by [LATTICE_SYMMETRIES_CHECK]. *)
Definition from_spec (spec : symmetry_spec_t) : result ls_symmetry :=
  match compile (permutation spec) with
  | Some fat =>
      let eigenvalue0 := compute_eigenvalue (sector spec) (periodicity spec) in
      Ok {| network := fat;
            sym_sector := sector spec;
            sym_periodicity := periodicity spec;
            eigenvalue := eigenvalue0;
            is_big := Nat.ltb 64 (length (permutation spec)) |}
  | None => Crash
  end.

(** [ls_create_trivial_group]: [Failure e] is the returned error code, [Ok g]
    is [LS_SUCCESS] with [*ptr] set to [g]. *)
Definition ls_create_trivial_group (number_spins : Z) : result ls_group :=
  if number_spins =? 0 then Failure LS_INVALID_NUMBER_SPINS
  else
    s <- from_spec (make_identity_spec number_spins) ;;
    Ok {| payload := [s] |}.

Record dump_buffers : Type := {
  masks : masks_t;
  shifts : shifts_t;
  eigenvalues : list complex
}.

(** The loop of [ls_group_dump_symmetry_info]: [k] is how far the two output
    pointers have advanced. *)
Fixpoint dump_loop (symmetries : list ls_symmetry) (n : Z) (k : nat)
    (out : dump_buffers) : result dump_buffers :=
  match symmetries with
  | [] => Ok out
  | symmetry :: rest =>
      ev <- store (eigenvalues out) k (eigenvalue symmetry) ;;
      dump_loop rest n (S k)
        {| masks := ls_symmetry_get_network_masks symmetry k n (masks out);
           shifts := shifts out;
           eigenvalues := ev |}
  end.

(** [ls_group_dump_symmetry_info]: the returned code (an [int] holding an
    [ls_error_code]) and the three buffers as the call leaves them. *)
Definition ls_group_dump_symmetry_info (group : ls_group) (out : dump_buffers)
    : result (ls_error_code * dump_buffers) :=
  let n := ls_get_group_size group in
  depth <- ls_group_get_network_depth group ;;
  if depth =? -1 then Ok (LS_SYSTEM_ERROR, out)
  else if negb (0 <=? depth) then Crash
  else
    match payload group with
    | [] => Crash   (* front() of an empty vector *)
    | s :: _ =>
        let out1 := {| masks := masks out;
                       shifts := ls_symmetry_get_network_shifts s (shifts out);
                       eigenvalues := eigenvalues out |} in
        out2 <- dump_loop (payload group) n 0 out1 ;;
        Ok (LS_SUCCESS, out2)
    end.

End Facade.

(** ** state_info.cpp: bit patterns and flip masks *)

(** [static_cast<double>] of an integer that fits 63 bits in absolute value. *)
Definition double_of_Z (z : Z) : float :=
  if z <? 0 then PrimFloat.opp (PrimFloat.of_uint63 (Uint63.of_Z (- z)))
  else PrimFloat.of_uint63 (Uint63.of_Z z).

(** [get_flip_mask_64]: the [n] lowest bits; the shift count [64U - n] is
    out of range for [n > 64]. *)
Definition get_flip_mask_64 (n : Z) : result Z :=
  if n =? 0 then Ok 0
  else if n <=? 64 then Ok (Z.shiftr 18446744073709551615 (64 - n))
  else Crash.

(** [bits512]: eight 64-bit words, [words[0]] the least significant. *)
Definition bits512 : Type := list Z.

(** The three loops of [get_flip_mask_512] over the [k] words still to be
    written: full words while [n >= 64], then the partial word, then zeros. *)
Fixpoint flip_words (k : nat) (n : Z) : result (list Z) :=
  match k with
  | O => if n =? 0 then Ok [] else Crash   (* a write past words[7] *)
  | S k' =>
      if 64 <=? n then
        ws <- flip_words k' (n - 64) ;; Ok (18446744073709551615 :: ws)
      else if negb (n =? 0) then
        w <- get_flip_mask_64 n ;; Ok (w :: repeat 0 k')
      else Ok (repeat 0 (S k'))
  end.

Definition get_flip_mask_512 (n : Z) : result bits512 := flip_words 8 n.

(** [operator^=] on [bits512]: word by word. *)
Fixpoint bits512_xor (x y : bits512) : bits512 :=
  match x, y with
  | a :: x', b :: y' => Z.lxor a b :: bits512_xor x' y'
  | _, _ => []
  end.

(** Modelled from the spec: [operator<] and [operator==] of [bits512], declared
    outside [state_info.cpp]: the comparison "by unsigned numeric value over the
    full width" and the equality of all words. *)
Fixpoint bits512_to_Z (x : bits512) : Z :=
  match x with
  | [] => 0
  | w :: x' => w + 18446744073709551616 * bits512_to_Z x'
  end.

Definition bits512_ltb (x y : bits512) : bool := bits512_to_Z x <? bits512_to_Z y.
Definition bits512_eqb (x y : bits512) : bool := list_eqb x y.

(** ** state_info.cpp: vector registers *)

(** A register of eight lanes ([vcl::Vec8uq], [vcl::Vec8d], their masks). *)
Definition Vec8 (A : Type) : Type := nat -> A.

Definition broadcast {A : Type} (a : A) : Vec8 A := fun _ => a.
Definition select {A : Type} (m : Vec8 bool) (a b : Vec8 A) : Vec8 A :=
  fun i => if m i then a i else b i.
Definition if_add (m : Vec8 bool) (a b : Vec8 float) : Vec8 float :=
  fun i => if m i then (a i + b i)%float else a i.
Definition vlt (x y : Vec8 Z) : Vec8 bool := fun i => x i <? y i.
Definition veq (x y : Vec8 Z) : Vec8 bool := fun i => x i =? y i.
Definition vand (a b : Vec8 bool) : Vec8 bool := fun i => a i && b i.
Definition vxor (x y : Vec8 Z) : Vec8 Z := fun i => Z.lxor (x i) (y i).
Definition vmul (a b : Vec8 float) : Vec8 float := fun i => (a i * b i)%float.
Definition horizontal_or (m : Vec8 bool) : bool :=
  m 0%nat || m 1%nat || m 2%nat || m 3%nat || m 4%nat || m 5%nat || m 6%nat || m 7%nat.

(** [vcl::horizontal_add] of a [Vec8d] (the vector class library is a third
    party's): the register is halved twice, the upper half added to the lower
    one lane by lane, and the two lanes that remain are added. *)
Definition horizontal_add (v : Vec8 float) : float :=
  (((v 0%nat + v 4%nat) + (v 2%nat + v 6%nat))
   + ((v 1%nat + v 5%nat) + (v 3%nat + v 7%nat)))%float.

(** [Vec8uq{0, 1, 2, 3, 4, 5, 6, 7} < count]. *)
Definition include_lanes (count : Z) : Vec8 bool := fun i => Z.of_nat i <? count.

(** ** The accumulator [batch_acc_64_arch_t] *)

Record batch_acc_64_arch_t : Type := {
  original : Vec8 Z;
  r : Vec8 Z;
  n : Vec8 float;
  e_re : Vec8 float;
  e_im : Vec8 float
}.

Definition batch_acc_init (bits : Z) : batch_acc_64_arch_t :=
  {| original := broadcast bits;
     r := broadcast bits;
     n := broadcast 0%float;
     e_re := broadcast 1%float;
     e_im := broadcast 0%float |}.

Definition update (acc : batch_acc_64_arch_t) (x : Vec8 Z) (real imag : Vec8 float)
    : batch_acc_64_arch_t :=
  let smaller := vlt x (r acc) in
  {| original := original acc;
     r := select smaller x (r acc);
     n := if_add (veq x (original acc)) (n acc) real;
     e_re := select smaller real (e_re acc);
     e_im := select smaller imag (e_im acc) |}.

(** [update_first_few] asserts [count < 8]. *)
Definition update_first_few (acc : batch_acc_64_arch_t) (x : Vec8 Z)
    (real imag : Vec8 float) (count : Z) : result batch_acc_64_arch_t :=
  if negb (count <? 8) then Crash
  else
    let include := include_lanes count in
    let smaller := vand (vlt x (r acc)) include in
    Ok {| original := original acc;
          r := select smaller x (r acc);
          n := if_add (vand (veq x (original acc)) include) (n acc) real;
          e_re := select smaller real (e_re acc);
          e_im := select smaller imag (e_im acc) |}.

(** [update_norm_only] and [update_first_few_norm_only]: [None] is the
    [false] they return when some lane is smaller, [Some] the accumulator after
    a [true]. *)
Definition update_norm_only (acc : batch_acc_64_arch_t) (x : Vec8 Z) (real : Vec8 float)
    : option batch_acc_64_arch_t :=
  let smaller := vlt x (r acc) in
  if horizontal_or smaller then None
  else Some {| original := original acc;
               r := r acc;
               n := if_add (veq x (original acc)) (n acc) real;
               e_re := e_re acc;
               e_im := e_im acc |}.

Definition update_first_few_norm_only (acc : batch_acc_64_arch_t) (x : Vec8 Z)
    (real : Vec8 float) (count : Z) : option batch_acc_64_arch_t :=
  let include := include_lanes count in
  let smaller := vand (vlt x (r acc)) include in
  if horizontal_or smaller then None
  else Some {| original := original acc;
               r := r acc;
               n := if_add (vand (veq x (original acc)) include) (n acc) real;
               e_re := e_re acc;
               e_im := e_im acc |}.

Definition reduce_norm_only (acc : batch_acc_64_arch_t) : float := horizontal_add (n acc).

(** [get_low] and [get_high] of a register of [2 * h] lanes. *)
Definition get_low {A : Type} (v : Vec8 A) : Vec8 A := v.
Definition get_high {A : Type} (h : nat) (v : Vec8 A) : Vec8 A := fun i => v (i + h)%nat.

(** [reduce]: the representative, the character and the raw norm. *)
Definition reduce (acc : batch_acc_64_arch_t) : Z * complex * float :=
  let norm := reduce_norm_only acc in
  (* Reduce from 512 to 256 *)
  let r256_low := get_low (r acc) in
  let r256_high := get_high 4 (r acc) in
  let smaller256 := vlt r256_low r256_high in
  let r256 := select smaller256 r256_low r256_high in
  let e_re256 := select smaller256 (get_low (e_re acc)) (get_high 4 (e_re acc)) in
  let e_im256 := select smaller256 (get_low (e_im acc)) (get_high 4 (e_im acc)) in
  (* Reduce from 256 to 128 *)
  let r128_low := get_low r256 in
  let r128_high := get_high 2 r256 in
  let smaller128 := vlt r128_low r128_high in
  let r128 := select smaller128 r128_low r128_high in
  let e_re128 := select smaller128 (get_low e_re256) (get_high 2 e_re256) in
  let e_im128 := select smaller128 (get_low e_im256) (get_high 2 e_im256) in
  (* Reduce from 128 to 64 *)
  let r64_low := r128 0%nat in
  let r64_high := r128 1%nat in
  if r64_low <? r64_high
  then (r64_low, (e_re128 0%nat, e_im128 0%nat), norm)
  else (r64_high, (e_re128 1%nat, e_im128 1%nat), norm).

(** ** The basis header and bodies (declared outside [state_info.cpp]) *)

Record basis_base_t : Type := {
  number_spins : Z;        (* unsigned *)
  spin_inversion : Z;      (* int: -1, 0 or 1 *)
  has_symmetries : bool
}.

(** A batch of eight compiled symmetries. Modelled from the spec:
    [benes_forward_arch] (declared in [kernels.hpp]) applies the network of
    each lane to the value of that lane, so the masks, the depth and the deltas
    of the batch are kept as the eight functions they realise. *)
Record batched_small_symmetry_t : Type := {
  lane_network : Vec8 (Z -> Z);
  eigenvalues_real : Vec8 float;
  eigenvalues_imag : Vec8 float
}.

Definition benes_forward_arch (symmetry : batched_small_symmetry_t) (x : Vec8 Z) : Vec8 Z :=
  fun i => lane_network symmetry i (x i).

Record small_basis_t : Type := {
  batched_symmetries : list batched_small_symmetry_t;
  other_symmetries : option batched_small_symmetry_t;
  number_other_symmetries : Z   (* unsigned *)
}.

(** A compiled symmetry on 512 bits: [symmetry.network(buffer)] and
    [symmetry.eigenvalue]. *)
Record big_symmetry_t : Type := {
  big_network : bits512 -> bits512;
  big_eigenvalue : complex
}.

Record big_basis_t : Type := { symmetries : list big_symmetry_t }.

Definition batch_size : Z := 8.
Definition norm_threshold : float := 0x1.4f8b588e368f1p-17%float.   (* 1.0e-5 *)

(** The end of the three entry points: the noise guard on the raw sum. *)
Definition snap (n : float) : float :=
  if (PrimFloat.abs n <=? norm_threshold)%float then 0%float else n.

(** ** [get_state_info_arch] on 64 bits *)

(** One full batch: the plain update, then the flipped one. *)
Definition batch_step (basis_header : basis_base_t) (flip_mask : Vec8 Z)
    (flip_coeff : Vec8 float) (acc : batch_acc_64_arch_t)
    (symmetry : batched_small_symmetry_t) : batch_acc_64_arch_t :=
  let x := benes_forward_arch symmetry (original acc) in
  let real := eigenvalues_real symmetry in
  let imag := eigenvalues_imag symmetry in
  let acc := update acc x real imag in
  if negb (spin_inversion basis_header =? 0) then
    let x := vxor x flip_mask in
    let real := if negb (spin_inversion basis_header =? 1) then vmul real flip_coeff else real in
    let imag := if negb (spin_inversion basis_header =? 1) then vmul imag flip_coeff else imag in
    update acc x real imag
  else acc.

(** The remainder batch. *)
Definition other_step (basis_header : basis_base_t) (flip_mask : Vec8 Z)
    (flip_coeff : Vec8 float) (count : Z) (acc : batch_acc_64_arch_t)
    (symmetry : batched_small_symmetry_t) : result batch_acc_64_arch_t :=
  let x := benes_forward_arch symmetry (original acc) in
  let real := eigenvalues_real symmetry in
  let imag := eigenvalues_imag symmetry in
  acc <- update_first_few acc x real imag count ;;
  if negb (spin_inversion basis_header =? 0) then
    let x := vxor x flip_mask in
    let real := if negb (spin_inversion basis_header =? 1) then vmul real flip_coeff else real in
    let imag := if negb (spin_inversion basis_header =? 1) then vmul imag flip_coeff else imag in
    update_first_few acc x real imag count
  else Ok acc.

(** [group_size] of the 64-bit path, a [size_t]. *)
Definition small_group_size (basis_header : basis_base_t) (basis_body : small_basis_t) : Z :=
  u64 (((if negb (spin_inversion basis_header =? 0) then 1 else 0) + 1)
       * (batch_size * Z.of_nat (length (batched_symmetries basis_body))
          + number_other_symmetries basis_body)).

(** The accumulator after all batches. *)
Definition small_scan (basis_header : basis_base_t) (basis_body : small_basis_t)
    (bits : Z) : result batch_acc_64_arch_t :=
  m <- get_flip_mask_64 (number_spins basis_header) ;;
  let flip_mask := broadcast m in
  let flip_coeff := broadcast (double_of_Z (spin_inversion basis_header)) in
  let acc := fold_left (batch_step basis_header flip_mask flip_coeff)
               (batched_symmetries basis_body) (batch_acc_init bits) in
  match other_symmetries basis_body with
  | Some symmetry =>
      other_step basis_header flip_mask flip_coeff
        (number_other_symmetries basis_body) acc symmetry
  | None => Ok acc
  end.

(** [get_state_info_arch] on [uint64_t]: representative, character, norm. *)
Definition get_state_info_64 (basis_header : basis_base_t) (basis_body : small_basis_t)
    (bits : Z) : result (Z * complex * float) :=
  if negb (has_symmetries basis_header) then Ok (bits, (1%float, 0%float), 1%float)
  else
    acc <- small_scan basis_header basis_body bits ;;
    let '(representative, character, n) := reduce acc in
    let n := snap n in
    if negb (0 <=? n)%float then Crash   (* LATTICE_SYMMETRIES_ASSERT(n >= 0.0) *)
    else
      let group_size := small_group_size basis_header basis_body in
      Ok (representative, character, PrimFloat.sqrt (n / double_of_Z group_size)).

(** ** [is_representative_arch] *)

Definition batch_step_norm_only (basis_header : basis_base_t) (flip_mask : Vec8 Z)
    (flip_coeff : Vec8 float) (acc : option batch_acc_64_arch_t)
    (symmetry : batched_small_symmetry_t) : option batch_acc_64_arch_t :=
  match acc with
  | None => None
  | Some acc =>
      let x := benes_forward_arch symmetry (original acc) in
      let real := eigenvalues_real symmetry in
      match update_norm_only acc x real with
      | None => None
      | Some acc =>
          if negb (spin_inversion basis_header =? 0) then
            let x := vxor x flip_mask in
            let real := vmul real flip_coeff in
            update_norm_only acc x real
          else Some acc
      end
  end.

Definition other_step_norm_only (basis_header : basis_base_t) (flip_mask : Vec8 Z)
    (flip_coeff : Vec8 float) (count : Z) (acc : batch_acc_64_arch_t)
    (symmetry : batched_small_symmetry_t) : option batch_acc_64_arch_t :=
  let x := benes_forward_arch symmetry (original acc) in
  let real := eigenvalues_real symmetry in
  match update_first_few_norm_only acc x real count with
  | None => None
  | Some acc =>
      if negb (spin_inversion basis_header =? 0) then
        let x := vxor x flip_mask in
        let real := vmul real flip_coeff in
        update_first_few_norm_only acc x real count
      else Some acc
  end.

(** The scan of [is_representative_arch]: [None] when it has returned [false]
    on a smaller image, the accumulator otherwise. *)
Definition fast_scan (basis_header : basis_base_t) (basis_body : small_basis_t)
    (bits : Z) : result (option batch_acc_64_arch_t) :=
  m <- get_flip_mask_64 (number_spins basis_header) ;;
  let flip_mask := broadcast m in
  let flip_coeff := broadcast (double_of_Z (spin_inversion basis_header)) in
  match fold_left (batch_step_norm_only basis_header flip_mask flip_coeff)
          (batched_symmetries basis_body) (Some (batch_acc_init bits)) with
  | None => Ok None
  | Some acc =>
      match other_symmetries basis_body with
      | Some symmetry =>
          Ok (other_step_norm_only basis_header flip_mask flip_coeff
                (number_other_symmetries basis_body) acc symmetry)
      | None => Ok (Some acc)
      end
  end.

Definition is_representative (basis_header : basis_base_t) (basis_body : small_basis_t)
    (bits : Z) : result bool :=
  if negb (has_symmetries basis_header) then Ok true
  else
    scanned <- fast_scan basis_header basis_body bits ;;
    match scanned with
    | None => Ok false
    | Some acc =>
        let n := snap (reduce_norm_only acc) in
        if negb (0 <=? n)%float then Crash   (* LATTICE_SYMMETRIES_ASSERT(n >= 0.0) *)
        else Ok (0 <? n)%float
    end.

(** ** [get_state_info_arch] on 512 bits *)

(** [flip_coeff * symmetry.eigenvalue]: the product of a [double] and a
    [std::complex<double>] scales both parts. *)
Definition scale (c : float) (z : complex) : complex :=
  ((fst z * c)%float, (snd z * c)%float).

(** The body of the loop over [basis_body.symmetries]: the state is the
    running minimum [r], the sum [n] and the character [e]. *)
Definition big_step (basis_header : basis_base_t) (flip_mask : bits512)
    (flip_coeff : float) (bits : bits512) (st : bits512 * float * complex)
    (symmetry : big_symmetry_t) : bits512 * float * complex :=
  let '(r, n, e) := st in
  let buffer := big_network symmetry bits in
  let '(r, n, e) :=
    if bits512_ltb buffer r then (buffer, n, big_eigenvalue symmetry)
    else if bits512_eqb buffer bits
         then (r, (n + fst (big_eigenvalue symmetry))%float, e)
         else (r, n, e) in
  if negb (spin_inversion basis_header =? 0) then
    let buffer := bits512_xor buffer flip_mask in
    if bits512_ltb buffer r then (buffer, n, scale flip_coeff (big_eigenvalue symmetry))
    else if bits512_eqb buffer bits
         then (r, (n + flip_coeff * fst (big_eigenvalue symmetry))%float, e)
         else (r, n, e)
  else (r, n, e).

Definition big_group_size (basis_header : basis_base_t) (basis_body : big_basis_t) : Z :=
  u64 (((if negb (spin_inversion basis_header =? 0) then 1 else 0) + 1)
       * Z.of_nat (length (symmetries basis_body))).

Definition get_state_info_512 (basis_header : basis_base_t) (basis_body : big_basis_t)
    (bits : bits512) : result (bits512 * complex * float) :=
  if negb (has_symmetries basis_header) then Ok (bits, (1%float, 0%float), 1%float)
  else
    flip_mask <- get_flip_mask_512 (number_spins basis_header) ;;
    let flip_coeff := double_of_Z (spin_inversion basis_header) in
    let '(r, n, e) :=
      fold_left (big_step basis_header flip_mask flip_coeff bits)
        (symmetries basis_body) (bits, 0%float, (1%float, 0%float)) in
    let n := snap n in
    if negb (0 <=? n)%float then Crash   (* LATTICE_SYMMETRIES_ASSERT(n >= 0.0) *)
    else
      let group_size := big_group_size basis_header basis_body in
      Ok (r, e, PrimFloat.sqrt (n / double_of_Z group_size)).

(** ** Reference collaborators and sample data *)

(** Modelled from the spec: [compute_periodicity], "the order of a permutation
    (smallest positive integer k with permutation^k = identity)", computed as
    the least common multiple of the cycle lengths. *)
Fixpoint cycle_length (fuel : nat) (p : list Z) (start cur k : Z) : Z :=
  match fuel with
  | O => k
  | S fuel' =>
      let next := nth (Z.to_nat cur) p 0 in
      if next =? start then k else cycle_length fuel' p start next (k + 1)
  end.

Definition permutation_order (p : list Z) : Z :=
  fold_left (fun acc i => Z.lcm acc (cycle_length (length p) p i i 1))
    (map Z.of_nat (seq 0 (length p))) 1.

(** The permutation made of consecutive cycles of the given lengths: the
    block that starts at [offset] sends [offset + i] to
    [offset + (i + 1) mod len]. *)
Fixpoint cycles_permutation (offset : Z) (lens : list Z) : list Z :=
  match lens with
  | [] => []
  | len :: rest =>
      map (fun i => offset + (Z.of_nat i + 1) mod len) (seq 0 (Z.to_nat len))
      ++ cycles_permutation (offset + len) rest
  end.

(** A symmetry of 43 sites with cycles of lengths 4, 3, 5, 7, 11 and 13
    (order 60060) in its sector 60059. *)
Definition wide_spec : symmetry_spec_t :=
  {| permutation := cycles_permutation 0 [4; 3; 5; 7; 11; 13];
     sector := 60059;
     periodicity := 60060 |}.

(** Two symmetries of 60 sites in the sector 0: cycles of lengths 4, 3, 5, 7,
    11 and 13 on the first 43 sites (order 60060), and one cycle of the last
    17 sites. *)
Definition cycles_60060 : symmetry_spec_t :=
  {| permutation := cycles_permutation 0 [4; 3; 5; 7; 11; 13] ++ map Z.of_nat (seq 43 17);
     sector := 0;
     periodicity := 60060 |}.

Definition cycles_17 : symmetry_spec_t :=
  {| permutation := map Z.of_nat (seq 0 43) ++ cycles_permutation 43 [17];
     sector := 0;
     periodicity := 17 |}.

(** The translation of a ring of four sites, in the sector [s]. *)
Definition ring4 (s : Z) : symmetry_spec_t :=
  {| permutation := [1; 2; 3; 0]; sector := s; periodicity := 4 |}.

(** Modelled from the spec: a network compiler ("takes a permutation of
    N <= 512 elements"). The depth it reports is the number of stages of a
    Benes network on the next power of two; no statement below depends on its
    value. *)
Definition reference_compile (p : list Z) : option fat_benes_network_t :=
  if Z.of_nat (length p) <=? 512
  then Some {| net_permutation := p;
               net_depth := Z.max 0 (2 * Z.log2_up (Z.of_nat (length p)) - 1) |}
  else None.

(** Modelled from the spec: [compute_eigenvalue], the root of unity
    [exp(2 pi i sector / periodicity)], for the phases that are a whole number
    of quarter turns (their two parts are exact in binary64). *)
Definition quarter_turn_eigenvalue (sector periodicity : Z) : complex :=
  match (4 * sector / periodicity) mod 4 with
  | 0 => (1%float, 0%float)
  | 1 => (0%float, 1%float)
  | 2 => ((-1)%float, 0%float)
  | _ => (0%float, (-1)%float)
  end.

(** The invariant of a group handle that [ls_group_get_network_depth] checks:
    all networks have one depth, which fits an [int]. *)
Definition uniform_depth (group : ls_group) : Prop :=
  exists d, 0 <= d < 2147483648
            /\ Forall (fun s => net_depth (network s) = d) (payload group).

(** ** Sample bases *)

(** Modelled from the spec: a compiled permutation applied to a bit pattern.
    Bit [i] of the result is bit [p[i]] of the input. *)
Definition permute_bits (p : list Z) (x : Z) : Z :=
  fold_right (fun '(i, src) acc => acc + (if Z.testbit x src then 2 ^ Z.of_nat i else 0))
    0 (combine (seq 0 (length p)) p).

(** Modelled from the spec: one batch of compiled symmetries, lane [i] holding
    the [i]-th spec of the list; a lane past the list holds the identity. *)
Definition batch_of_specs (specs : list symmetry_spec_t) : batched_small_symmetry_t :=
  let spec_at i := nth i specs {| permutation := []; sector := 0; periodicity := 1 |} in
  {| lane_network := fun i x =>
       match nth_error specs i with
       | Some s => permute_bits (permutation s) x
       | None => x
       end;
     eigenvalues_real := fun i =>
       fst (quarter_turn_eigenvalue (sector (spec_at i)) (periodicity (spec_at i)));
     eigenvalues_imag := fun i =>
       snd (quarter_turn_eigenvalue (sector (spec_at i)) (periodicity (spec_at i))) |}.

(** Modelled from the spec: the body of a 64-bit basis for a group of fewer
    than eight elements: no full batch, the group in the remainder batch. *)
Definition small_basis_of_specs (specs : list symmetry_spec_t) : small_basis_t :=
  {| batched_symmetries := [];
     other_symmetries := Some (batch_of_specs specs);
     number_other_symmetries := Z.of_nat (length specs) |}.

(** The group of the ring of four sites in the sector [1], in the order in
    which [make_group] returns it. *)
Definition ring4_group : list symmetry_spec_t :=
  [ring4 1;
   {| permutation := [2; 3; 0; 1]; sector := 1; periodicity := 2 |};
   {| permutation := [3; 0; 1; 2]; sector := 3; periodicity := 4 |};
   {| permutation := [0; 1; 2; 3]; sector := 0; periodicity := 1 |}].

Definition ring4_header (spin_inversion0 : Z) : basis_base_t :=
  {| number_spins := 4; spin_inversion := spin_inversion0; has_symmetries := true |}.

(** ** The statement of the spec about [compose] *)

(** The sum of the fractions [sector x / periodicity x] and
    [sector y / periodicity y] in lowest terms, the numerator taken modulo the
    denominator: the words of the spec, in unbounded integers. *)
Definition phase_sum (x y : symmetry_spec_t) : Z * Z :=
  let p := sector x * periodicity y + sector y * periodicity x in
  let q := periodicity x * periodicity y in
  let m := Z.gcd p q in
  ((p / m) mod (q / m), q / m).

(** The permutation that sends [i] to [x.permutation[y.permutation[i]]]. *)
Definition composed_permutation (x y : symmetry_spec_t) : list Z :=
  map (fun i => nth (Z.to_nat (nth i (permutation y) 0)) (permutation x) 0)
    (seq 0 (length (permutation x))).

(** What the spec says [compose] returns, for a given periodicity oracle. *)
Definition compose_spec (compute_periodicity : list Z -> Z) (x y : symmetry_spec_t)
    : result symmetry_spec_t :=
  let perm := composed_permutation x y in
  let P := compute_periodicity perm in
  let '(p, q) := phase_sum x y in
  if (q >? P) || negb (P mod q =? 0) then Failure LS_INCOMPATIBLE_SYMMETRIES
  else Ok {| permutation := perm; sector := p * (P / q); periodicity := P |}.

(** The two [static_cast<uint16_t>] of [compose], applied to a result in
    unbounded integers. *)
Definition truncate_spec (r : result symmetry_spec_t) : result symmetry_spec_t :=
  match r with
  | Ok s => Ok {| permutation := permutation s;
                  sector := u16 (sector s);
                  periodicity := u16 (periodicity s) |}
  | other => other
  end.

(** The invariant of a spec: the entries of the permutation are indices of
    it, there are at most 65536 of them, and the two [uint16_t] fields hold a
    sector and a positive periodicity. *)
Definition valid_spec (x : symmetry_spec_t) : Prop :=
  Forall (fun v => 0 <= v < Z.of_nat (length (permutation x))) (permutation x)
  /\ Z.of_nat (length (permutation x)) <= 65536
  /\ 0 <= sector x < 65536
  /\ 0 < periodicity x < 65536.

(** The product [g1 . g2] is defined and found in [l], up to [equal]. *)
Definition product_in (compute_periodicity : list Z -> Z) (l : list symmetry_spec_t)
    (g1 g2 : symmetry_spec_t) : Prop :=
  exists g, compose compute_periodicity g1 g2 = Ok g
            /\ exists g', In g' l /\ equal g' g = Ok true.

(** ** Sequences without repetition up to [equal] *)

(** No element of [l] is [equal] to a later one. *)
Definition distinct (l : list symmetry_spec_t) : Prop :=
  forall i j a b, (i < j)%nat ->
    nth_error l i = Some a -> nth_error l j = Some b -> equal a b = Ok false.

(** ** The extended orbit *)

(** An element of the extended orbit of a 64-bit pattern: the image and the
    eigenvalue that comes with it. *)
Definition orbit_element : Type := (Z * complex)%type.

(** The eigenvalue of the flipped branch as the 64-bit path computes it: the
    two parts are multiplied by [flip_coeff] unless [spin_inversion] is 1. *)
Definition flipped_eigenvalue (basis_header : basis_base_t) (flip_coeff : float)
    (e : complex) : complex :=
  if negb (spin_inversion basis_header =? 1)
  then ((fst e * flip_coeff)%float, (snd e * flip_coeff)%float)
  else e.

(** What the symmetry of lane [i] of a batch contributes: its image of
    [bits], then the flipped image when spin inversion is on. *)
Definition lane_elements (basis_header : basis_base_t) (flip_mask : Z)
    (flip_coeff : float) (bits : Z) (symmetry : batched_small_symmetry_t) (i : nat)
    : list orbit_element :=
  let x := lane_network symmetry i bits in
  let e := (eigenvalues_real symmetry i, eigenvalues_imag symmetry i) in
  (x, e) ::
  (if negb (spin_inversion basis_header =? 0)
   then [(Z.lxor x flip_mask, flipped_eigenvalue basis_header flip_coeff e)]
   else []).

(** The elements that lane [i] of the accumulator sees, in the order it sees
    them. *)
Definition lane_sequence (basis_header : basis_base_t) (flip_mask : Z)
    (flip_coeff : float) (bits : Z) (basis_body : small_basis_t) (i : nat)
    : list orbit_element :=
  flat_map (fun s => lane_elements basis_header flip_mask flip_coeff bits s i)
    (batched_symmetries basis_body)
  ++ match other_symmetries basis_body with
     | Some s =>
         if Z.of_nat i <? number_other_symmetries basis_body
         then lane_elements basis_header flip_mask flip_coeff bits s i
         else []
     | None => []
     end.

(** The extended orbit in the order of the group: batch after batch, lane
    after lane, then the valid lanes of the remainder batch. *)
Definition extended_orbit (basis_header : basis_base_t) (flip_mask : Z)
    (flip_coeff : float) (bits : Z) (basis_body : small_basis_t) : list orbit_element :=
  flat_map
    (fun s => flat_map (lane_elements basis_header flip_mask flip_coeff bits s) (seq 0 8))
    (batched_symmetries basis_body)
  ++ match other_symmetries basis_body with
     | Some s =>
         flat_map (lane_elements basis_header flip_mask flip_coeff bits s)
           (seq 0 (Z.to_nat (number_other_symmetries basis_body)))
     | None => []
     end.

(** One lane of the accumulator as a value: the running minimum, the sum and
    the character. *)
Definition lane_state : Type := (Z * float * complex)%type.

(** [update] seen from one lane. *)
Definition lane_step (bits : Z) (st : lane_state) (el : orbit_element) : lane_state :=
  let '(r0, n0, e0) := st in
  let '(x, e) := el in
  (if x <? r0 then x else r0,
   if x =? bits then (n0 + fst e)%float else n0,
   (if x <? r0 then fst e else fst e0, if x <? r0 then snd e else snd e0)).

Definition lane_run (bits : Z) (l : list orbit_element) : lane_state :=
  fold_left (lane_step bits) l (bits, 0%float, (1%float, 0%float)).

Definition lane_of (acc : batch_acc_64_arch_t) (i : nat) : lane_state :=
  (r acc i, n acc i, (e_re acc i, e_im acc i)).

(** The stabilizer sum of a sequence of elements: the real parts of the
    eigenvalues of those that equal [bits], added in the order of the
    sequence. *)
Definition stabilizer_sum (bits : Z) (l : list orbit_element) : float :=
  fold_left (fun a el => (a + fst (snd el))%float)
    (filter (fun el => fst el =? bits) l) 0%float.

(** The invariants of the basis data of the 64-bit path: at most 64 spins,
    and fewer than 8 valid lanes in the remainder batch, none without one. *)
Definition valid_small_basis (basis_header : basis_base_t) (basis_body : small_basis_t) : Prop :=
  0 <= number_spins basis_header <= 64
  /\ 0 <= number_other_symmetries basis_body < 8
  /\ (other_symmetries basis_body = None -> number_other_symmetries basis_body = 0).

(** The mask and the coefficient that the 64-bit entry points compute from the
    header. *)
Definition flip_mask_of (basis_header : basis_base_t) : Z :=
  match get_flip_mask_64 (number_spins basis_header) with
  | Ok m => m
  | _ => 0
  end.

Definition flip_coeff_of (basis_header : basis_base_t) : float :=
  double_of_Z (spin_inversion basis_header).

(** The extended orbit of [bits] under the symmetries of a 64-bit basis. *)
Definition small_orbit (basis_header : basis_base_t) (basis_body : small_basis_t)
    (bits : Z) : list orbit_element :=
  extended_orbit basis_header (flip_mask_of basis_header) (flip_coeff_of basis_header)
    bits basis_body.

(** The images of [bits] under one symmetry of a 512-bit basis: the plain one,
    then the flipped one when spin inversion is on. *)
Definition big_elements (basis_header : basis_base_t) (flip_mask bits : bits512)
    (symmetry : big_symmetry_t) : list bits512 :=
  big_network symmetry bits ::
  (if negb (spin_inversion basis_header =? 0)
   then [bits512_xor (big_network symmetry bits) flip_mask]
   else []).

(** The extended orbit of [bits] under the symmetries of a 512-bit basis
    (empty when the header asks for more than 512 spins). *)
Definition big_orbit (basis_header : basis_base_t) (basis_body : big_basis_t)
    (bits : bits512) : list bits512 :=
  match get_flip_mask_512 (number_spins basis_header) with
  | Ok flip_mask =>
      flat_map (big_elements basis_header flip_mask bits) (symmetries basis_body)
  | _ => []
  end.

(** One image met by the loop of the 512-bit path: [w] is what it adds to the
    sum, [e] the character it brings. *)
Definition big_visit (bits : bits512) (st : bits512 * float * complex)
    (z : bits512) (w : float) (e : complex) : bits512 * float * complex :=
  let '(r0, n0, e0) := st in
  if bits512_ltb z r0 then (z, n0, e)
  else if bits512_eqb z bits then (r0, (n0 + w)%float, e0)
       else (r0, n0, e0).



(** A compiled symmetry of at most 64 sites, its network of depth 3 and its
    eigenvalue a quarter turn. *)
Definition sample_symmetry (spec : symmetry_spec_t) : ls_symmetry :=
  {| network := {| net_permutation := permutation spec; net_depth := 3 |};
     sym_sector := sector spec;
     sym_periodicity := periodicity spec;
     eigenvalue := quarter_turn_eigenvalue (sector spec) (periodicity spec);
     is_big := false |}.

Definition ring4_handle : ls_group := {| payload := map sample_symmetry ring4_group |}.

(** ** Binary64 *)

(** The numbers that are strictly positive: finite or infinite. *)
Definition SFpositive (s : spec_float) : bool :=
  match s with
  | S754_infinity false | S754_finite false _ _ => true
  | _ => false
  end.

(** ** A 64-bit basis on the 512-bit path *)









(** ** The fast path next to the full scan *)

(** How the accumulator of [is_representative_arch] stands to the one of
    [get_state_info_arch] after the same batches: while no smaller image has
    been met, the two hold the same sums and both minima are still [bits];
    once the fast path has returned [false], some lane of the full scan holds
    a minimum below [bits]. *)
Definition fast_path_agrees (bits : Z) (fast : option batch_acc_64_arch_t)
    (full : batch_acc_64_arch_t) : Prop :=
  match fast with
  | Some acc =>
      forall i, (i < 8)%nat ->
        original acc i = bits /\ original full i = bits
        /\ r acc i = bits /\ r full i = bits
        /\ n acc i = n full i
  | None => exists i, (i < 8)%nat /\ r full i < bits
  end.

(** ** Outcomes that carry no other error code *)

(** An outcome that, when it is an error of the library, is
    [LS_INCOMPATIBLE_SYMMETRIES]. *)
Definition only_incompatible {A : Type} (r : result A) : Prop :=
  forall e, r = Failure e -> e = LS_INCOMPATIBLE_SYMMETRIES.

(** An outcome that is a value or an error of the library: nothing undefined
    was executed. *)
Definition defined {A : Type} (r : result A) : Prop := r <> Crash.

(** ** Well-formed 512-bit patterns *)

(** The eight words of a [bits512], each a [uint64_t]. *)
Definition well_formed512 (x : bits512) : Prop :=
  length x = 8%nat /\ Forall (fun w => 0 <= w < 2 ^ 64) x.

(** ** The extended orbit of the 512-bit path with its eigenvalues *)

(** The images of [bits] under one symmetry of a 512-bit basis, each with the
    character the loop stores when the image becomes the running minimum. *)
Definition big_pairs (basis_header : basis_base_t) (flip_mask : bits512)
    (flip_coeff : float) (bits : bits512) (symmetry : big_symmetry_t)
    : list (bits512 * complex) :=
  (big_network symmetry bits, big_eigenvalue symmetry) ::
  (if negb (spin_inversion basis_header =? 0)
   then [(bits512_xor (big_network symmetry bits) flip_mask,
          scale flip_coeff (big_eigenvalue symmetry))]
   else []).

Definition big_pair_orbit (basis_header : basis_base_t) (basis_body : big_basis_t)
    (bits : bits512) : list (bits512 * complex) :=
  match get_flip_mask_512 (number_spins basis_header) with
  | Ok flip_mask =>
      flat_map (big_pairs basis_header flip_mask
                  (double_of_Z (spin_inversion basis_header)) bits)
        (symmetries basis_body)
  | _ => []
  end.

(** ** [ls_create_group] *)

(** [to_spec]. Modelled from the spec: [permutation<uint16_t>()] reads back
    the permutation the network realises, [ls_get_sector] and
    [ls_get_periodicity] (declared outside this translation unit) the two
    numbers stored with the symmetry; each is cast to [uint16_t]. *)
Definition to_spec (symmetry : ls_symmetry) : symmetry_spec_t :=
  {| permutation := map u16 (net_permutation (network symmetry));
     sector := u16 (sym_sector symmetry);
     periodicity := u16 (sym_periodicity symmetry) |}.

Section GroupCreation.

Variable compute_periodicity : list Z -> Z.
Variable compile : list Z -> option fat_benes_network_t.
Variable compute_eigenvalue : Z -> Z -> complex.
(** [r.assume_error().category() == get_error_category()] for the error that
    a failed outcome carries: the conversion of an [ls_error_code] to a
    [std::error_code] and the category are declared outside this translation
    unit. *)
Variable in_library_category : ls_error_code -> bool.

(** [make_group] on compiled symmetries: their specs, then the closure. *)
Definition make_group_of_symmetries (fuel : nat) (generators : list ls_symmetry)
    : option (result (list symmetry_spec_t)) :=
  make_group compute_periodicity fuel (map to_spec generators).

(** [ls_create_group]: [Failure e] is the returned error code, [Ok g] is
    [LS_SUCCESS] with [*ptr] set to [g]. A failure of [make_group] is returned
    as its own code when its category is the library's, and as
    [LS_SYSTEM_ERROR] otherwise. *)
Definition ls_create_group (fuel : nat) (generators : list ls_symmetry)
    : option (result ls_group) :=
  match make_group_of_symmetries fuel generators with
  | None => None
  | Some (Failure e) =>
      if in_library_category e then Some (Failure e)
      else Some (Failure LS_SYSTEM_ERROR)
  | Some Crash => Some Crash
  | Some (Ok specs) =>
      Some (group <- mapM (from_spec compile compute_eigenvalue) specs ;;
            Ok {| payload := group |})
  end.

End GroupCreation.

(** ** Sample bases that are not those of a consistent group *)






(** * Properties *)

(** ** Outcomes *)

Lemma bind_Ok {A B : Type} (r : result A) (k : A -> result B) (b : B) :
  bind r k = Ok b -> exists a, r = Ok a /\ k a = Ok b.
Proof.
  destruct r as [a | e |]; simpl; intros H; try discriminate.
  exists a; split; [reflexivity | exact H].
Qed.

Ltac bind_inv H :=
  let a := fresh "v" in
  let Ha := fresh "Hv" in
  apply bind_Ok in H; destruct H as [a [Ha H]].

(** ** [equal] *)

Lemma list_eqb_eq (l1 l2 : list Z) : list_eqb l1 l2 = true <-> l1 = l2.
Proof.
  revert l2; induction l1 as [| a l1 IH]; intros [| b l2]; simpl;
    try (split; [discriminate | discriminate]); try tauto.
  rewrite andb_true_iff, Z.eqb_eq, IH.
  split; [intros [-> ->]; reflexivity | intros H; inversion H; auto].
Qed.

Lemma list_eqb_refl (l : list Z) : list_eqb l l = true.
Proof. apply list_eqb_eq; reflexivity. Qed.

Lemma list_eqb_neq (l1 l2 : list Z) : l1 <> l2 -> list_eqb l1 l2 = false.
Proof.
  intros H; destruct (list_eqb l1 l2) eqn:E; [| reflexivity].
  apply list_eqb_eq in E; contradiction.
Qed.

Lemma list_eqb_sym (l1 l2 : list Z) : list_eqb l1 l2 = list_eqb l2 l1.
Proof.
  destruct (list_eqb l1 l2) eqn:E.
  - apply list_eqb_eq in E; subst; symmetry; apply list_eqb_refl.
  - destruct (list_eqb l2 l1) eqn:E'; [| reflexivity].
    apply list_eqb_eq in E'; subst; rewrite list_eqb_refl in E; discriminate.
Qed.

Lemma equal_refl (x : symmetry_spec_t) : equal x x = Ok true.
Proof.
  unfold equal.
  rewrite Nat.eqb_refl, !Z.eqb_refl, list_eqb_refl; reflexivity.
Qed.

Lemma equal_sym (x y : symmetry_spec_t) : equal x y = equal y x.
Proof.
  unfold equal.
  rewrite (Nat.eqb_sym (length (permutation y))), (Z.eqb_sym (periodicity y)),
    (Z.eqb_sym (sector y)), (list_eqb_sym (permutation y)).
  reflexivity.
Qed.

(** C6. [equal] fails with [LS_INCOMPATIBLE_SYMMETRIES] when the permutation
    lengths differ; on equal lengths it is [false] when the periodicities
    differ, [false] when the permutations differ, fails with
    [LS_INCOMPATIBLE_SYMMETRIES] when permutations and periodicities match and
    the sectors differ, and is [true] otherwise; [equal x x] is [true]. *)
Theorem equal_cases (x y : symmetry_spec_t) :
  (length (permutation x) <> length (permutation y) ->
   equal x y = Failure LS_INCOMPATIBLE_SYMMETRIES)
  /\ (length (permutation x) = length (permutation y) ->
      (periodicity x <> periodicity y -> equal x y = Ok false)
      /\ (permutation x <> permutation y -> equal x y = Ok false)
      /\ (periodicity x = periodicity y -> permutation x = permutation y ->
          sector x <> sector y -> equal x y = Failure LS_INCOMPATIBLE_SYMMETRIES)
      /\ (periodicity x = periodicity y -> permutation x = permutation y ->
          sector x = sector y -> equal x y = Ok true))
  /\ equal x x = Ok true.
Proof.
  split; [| split; [| apply equal_refl]].
  - intros Hlen. unfold equal.
    apply Nat.eqb_neq in Hlen; rewrite Hlen; reflexivity.
  - intros Hlen. unfold equal. rewrite Hlen, Nat.eqb_refl; simpl.
    repeat split.
    + intros Hp. apply Z.eqb_neq in Hp; rewrite Hp; reflexivity.
    + intros Hperm. rewrite (list_eqb_neq _ _ Hperm).
      destruct (periodicity x =? periodicity y); reflexivity.
    + intros Hp Hperm Hs. rewrite Hp, Hperm, Z.eqb_refl, list_eqb_refl; simpl.
      apply Z.eqb_neq in Hs; rewrite Hs; reflexivity.
    + intros Hp Hperm Hs.
      rewrite Hp, Hperm, Hs, !Z.eqb_refl, list_eqb_refl; reflexivity.
Qed.

(** ** [compose] *)

Lemma u16_small (z : Z) : 0 <= z < 65536 -> u16 z = z.
Proof. intros H; unfold u16; apply Z.mod_small; exact H. Qed.

Lemma u32_small (z : Z) : 0 <= z < 4294967296 -> u32 z = z.
Proof. intros H; unfold u32; apply Z.mod_small; exact H. Qed.

Lemma iota_small (n : nat) : Z.of_nat n <= 65536 -> iota n = map Z.of_nat (seq 0 n).
Proof.
  intros Hn; unfold iota. apply map_ext_in.
  intros i Hi; apply in_seq in Hi. apply u16_small; lia.
Qed.

Lemma mapM_at_index (v l : list Z) :
  Forall (fun i => 0 <= i < Z.of_nat (length v)) l ->
  mapM (at_index v) l = Ok (map (fun i => nth (Z.to_nat i) v 0) l).
Proof.
  induction 1 as [| i l Hi _ IH]; simpl; [reflexivity |].
  unfold at_index at 1.
  replace ((0 <=? i) && (i <? Z.of_nat (length v))) with true
    by (symmetry; apply andb_true_iff; split; [apply Z.leb_le | apply Z.ltb_lt]; lia).
  simpl. rewrite IH; reflexivity.
Qed.

Lemma nth_in_range (v : list Z) (n : Z) (i : nat) :
  Forall (fun a => 0 <= a < n) v -> (i < length v)%nat -> 0 <= nth i v 0 < n.
Proof.
  intros Hv Hi. rewrite Forall_forall in Hv. apply Hv, nth_In, Hi.
Qed.

(** On valid specs without wrap-around [rational_add] is the sum of the
    spec. *)
Lemma rational_add_exact (x y : symmetry_spec_t) :
  0 <= sector x -> 0 <= sector y -> 0 < periodicity x -> 0 < periodicity y ->
  sector x * periodicity y + sector y * periodicity x < 4294967296 ->
  periodicity x * periodicity y < 4294967296 ->
  rational_add (sector x, periodicity x) (sector y, periodicity y) = Ok (phase_sum x y).
Proof.
  intros Hsx Hsy Hpx Hpy Hp Hq. unfold rational_add, phase_sum; simpl.
  rewrite !u32_small by nia.
  set (p := sector x * periodicity y + sector y * periodicity x).
  set (q := periodicity x * periodicity y).
  assert (Hq0 : 0 < q) by (unfold q; nia).
  assert (Hm : 0 < Z.gcd p q).
  { pose proof (Z.gcd_nonneg p q) as Hn.
    destruct (Z.eq_dec (Z.gcd p q) 0) as [E | E]; [| lia].
    apply Z.gcd_eq_0_r in E; lia. }
  replace (Z.gcd p q =? 0) with false by (symmetry; apply Z.eqb_neq; lia).
  assert (Hqm : 0 < q / Z.gcd p q).
  { destruct (Z.gcd_divide_r p q) as [k Hk].
    rewrite Hk at 1. rewrite Z.div_mul by lia. nia. }
  replace (q / Z.gcd p q =? 0) with false by (symmetry; apply Z.eqb_neq; lia).
  reflexivity.
Qed.

Lemma phase_sum_range (x y : symmetry_spec_t) :
  0 < periodicity x -> 0 < periodicity y ->
  0 <= fst (phase_sum x y) < snd (phase_sum x y).
Proof.
  intros Hpx Hpy. unfold phase_sum; simpl.
  set (p := sector x * periodicity y + sector y * periodicity x).
  set (q := periodicity x * periodicity y).
  assert (Hq0 : 0 < q) by (unfold q; nia).
  assert (Hm : 0 < Z.gcd p q).
  { pose proof (Z.gcd_nonneg p q) as Hn.
    destruct (Z.eq_dec (Z.gcd p q) 0) as [E | E]; [| lia].
    apply Z.gcd_eq_0_r in E; lia. }
  apply Z.mod_pos_bound.
  destruct (Z.gcd_divide_r p q) as [k Hk].
  rewrite Hk at 1. rewrite Z.div_mul by lia. nia.
Qed.

(** A sector computed from a phase [(p, q)] with [q] dividing [P]. *)
Lemma sector_range (p q P : Z) :
  0 <= p < q -> q <= P -> P mod q = 0 -> 0 <= p * (P / q) < P.
Proof.
  intros Hp Hq Hmod.
  assert (HP : P = q * (P / q)) by (apply Z.div_exact; lia).
  assert (0 < P / q) by nia.
  nia.
Qed.

Section ComposeProperties.

Variable compute_periodicity : list Z -> Z.

Lemma compose_permutation_exact (x y : symmetry_spec_t) :
  valid_spec x -> valid_spec y ->
  length (permutation x) = length (permutation y) ->
  exists temp,
    mapM (at_index (permutation y)) (iota (length (permutation x))) = Ok temp
    /\ mapM (at_index (permutation x)) temp = Ok (composed_permutation x y).
Proof.
  intros (Hx & Hnx & _) (Hy & Hny & _) Hlen.
  exists (map (fun i => nth (Z.to_nat i) (permutation y) 0)
            (map Z.of_nat (seq 0 (length (permutation x))))).
  rewrite iota_small by exact Hnx. split.
  - apply mapM_at_index. apply Forall_forall. intros i Hi.
    apply in_map_iff in Hi. destruct Hi as [k [<- Hk]]. apply in_seq in Hk. lia.
  - rewrite mapM_at_index.
    + unfold composed_permutation. rewrite !map_map. f_equal.
      apply map_ext. intros k. rewrite Nat2Z.id. reflexivity.
    + apply Forall_forall. intros v Hv.
      rewrite map_map in Hv. apply in_map_iff in Hv. destruct Hv as [k [<- Hk]].
      apply in_seq in Hk. rewrite Nat2Z.id, Hlen.
      apply nth_in_range; [exact Hy | lia].
Qed.

(** C1 (amended). On valid specs of one length, when the numerator of the phase
    sum fits 32 bits, [compose] is what the spec says with the sector and the
    periodicity cut to their [uint16_t] fields: the permutation
    [i |-> x.permutation[y.permutation[i]]], failure with
    [LS_INCOMPATIBLE_SYMMETRIES] exactly when [q > P] or [P mod q <> 0] for the
    order [P] of that permutation, and otherwise the sector
    [p * (P / q) mod 65536] and the periodicity [P mod 65536]. When [P] fits
    the field nothing is cut: the periodicity is [P] and the sector is
    [p * (P / q)], which lies in [[0, P)]. *)
Theorem compose_exact (x y : symmetry_spec_t) :
  valid_spec x -> valid_spec y ->
  length (permutation x) = length (permutation y) ->
  sector x * periodicity y + sector y * periodicity x < 4294967296 ->
  0 <= compute_periodicity (composed_permutation x y) < 4294967296 ->
  compose compute_periodicity x y = truncate_spec (compose_spec compute_periodicity x y)
  /\ (compute_periodicity (composed_permutation x y) < 65536 ->
      compose compute_periodicity x y = compose_spec compute_periodicity x y
      /\ forall s, compose compute_periodicity x y = Ok s ->
           permutation s = composed_permutation x y
           /\ periodicity s = compute_periodicity (composed_permutation x y)
           /\ 0 <= sector s < periodicity s).
Proof.
  intros Vx Vy Hlen Hwrap HP.
  destruct (compose_permutation_exact x y Vx Vy Hlen) as [temp [Ht Hc]].
  destruct Vx as (_ & _ & Hsx & Hpx). destruct Vy as (_ & _ & Hsy & Hpy).
  assert (Hadd := rational_add_exact x y (proj1 Hsx) (proj1 Hsy) (proj1 Hpx) (proj1 Hpy)
                    Hwrap ltac:(nia)).
  assert (Hrange := phase_sum_range x y (proj1 Hpx) (proj1 Hpy)).
  assert (E : compose compute_periodicity x y
              = truncate_spec (compose_spec compute_periodicity x y)).
  { unfold compose, compose_spec.
    rewrite Hlen, Nat.eqb_refl. cbn [negb]. rewrite <- Hlen, Ht. cbn [bind].
    rewrite Hc. cbn [bind]. rewrite Hadd. cbn [bind].
    set (P := compute_periodicity (composed_permutation x y)) in *.
    rewrite (u32_small P) by lia.
    destruct (phase_sum x y) as [p q]. cbn [fst snd] in *.
    destruct (q >? P) eqn:Egt; cbn [orb truncate_spec]; [reflexivity |].
    destruct (P mod q =? 0) eqn:Emod; cbn [negb truncate_spec]; [| reflexivity].
    apply Z.eqb_eq in Emod. rewrite Z.gtb_ltb in Egt. apply Z.ltb_ge in Egt.
    pose proof (sector_range p q P Hrange Egt Emod) as Hs.
    rewrite (u32_small (p * (P / q))) by lia.
    reflexivity. }
  split; [exact E |].
  intros Hfit.
  set (P := compute_periodicity (composed_permutation x y)) in *.
  assert (E' : compose compute_periodicity x y = compose_spec compute_periodicity x y).
  { rewrite E. unfold compose_spec. fold P.
    destruct (phase_sum x y) as [p q]. cbn [fst snd] in *.
    destruct (q >? P) eqn:Egt; cbn [orb truncate_spec]; [reflexivity |].
    destruct (P mod q =? 0) eqn:Emod; cbn [negb truncate_spec]; [| reflexivity].
    apply Z.eqb_eq in Emod. rewrite Z.gtb_ltb in Egt. apply Z.ltb_ge in Egt.
    pose proof (sector_range p q P Hrange Egt Emod) as Hs.
    cbn [permutation sector periodicity].
    rewrite (u16_small (p * (P / q))) by lia.
    rewrite (u16_small P) by lia. reflexivity. }
  split; [exact E' |].
  intros s Hs. rewrite E' in Hs. unfold compose_spec in Hs. fold P in Hs.
  destruct (phase_sum x y) as [p q]. cbn [fst snd] in *.
  destruct (q >? P) eqn:Egt; cbn [orb] in Hs; [discriminate |].
  destruct (P mod q =? 0) eqn:Emod; cbn [negb] in Hs; [| discriminate].
  apply Z.eqb_eq in Emod. rewrite Z.gtb_ltb in Egt. apply Z.ltb_ge in Egt.
  inversion Hs; subst s; cbn [permutation periodicity sector].
  repeat split; try reflexivity; apply (sector_range p q P Hrange Egt Emod).
Qed.

End ComposeProperties.

Lemma valid_ring4 (s : Z) : 0 <= s < 65536 -> valid_spec (ring4 s).
Proof.
  intros Hs. unfold valid_spec, ring4; simpl.
  repeat split; try lia. repeat constructor; lia.
Qed.

Lemma valid_wide_spec : valid_spec wide_spec.
Proof.
  unfold valid_spec. repeat split; try (vm_compute; discriminate).
  apply Forall_forall. intros v Hv.
  apply (proj1 (forallb_forall (fun v => (0 <=? v) && (v <? 43)) (permutation wide_spec))
           eq_refl) in Hv.
  change (Z.of_nat (length (permutation wide_spec))) with 43. lia.
Qed.

(** Witness of C1: the translation of the ring of four sites composed with
    itself. *)
Lemma compose_exact_witness :
  compose permutation_order (ring4 1) (ring4 1)
  = truncate_spec (compose_spec permutation_order (ring4 1) (ring4 1))
  /\ (permutation_order (composed_permutation (ring4 1) (ring4 1)) < 65536 ->
      compose permutation_order (ring4 1) (ring4 1)
      = compose_spec permutation_order (ring4 1) (ring4 1)
      /\ forall s, compose permutation_order (ring4 1) (ring4 1) = Ok s ->
           permutation s = composed_permutation (ring4 1) (ring4 1)
           /\ periodicity s = permutation_order (composed_permutation (ring4 1) (ring4 1))
           /\ 0 <= sector s < periodicity s).
Proof.
  apply (compose_exact permutation_order (ring4 1) (ring4 1)).
  - apply valid_ring4; lia.
  - apply valid_ring4; lia.
  - reflexivity.
  - vm_compute; reflexivity.
  - vm_compute; split; [discriminate | reflexivity].
Defined.

Lemma valid_cycles_17 : valid_spec cycles_17.
Proof.
  unfold valid_spec. repeat split; try (vm_compute; discriminate).
  apply Forall_forall. intros v Hv.
  apply (proj1 (forallb_forall (fun v => (0 <=? v) && (v <? 60)) (permutation cycles_17))
           eq_refl) in Hv.
  change (Z.of_nat (length (permutation cycles_17))) with 60. lia.
Qed.

Lemma valid_cycles_60060 : valid_spec cycles_60060.
Proof.
  unfold valid_spec. repeat split; try (vm_compute; discriminate).
  apply Forall_forall. intros v Hv.
  apply (proj1 (forallb_forall (fun v => (0 <=? v) && (v <? 60)) (permutation cycles_60060))
           eq_refl) in Hv.
  change (Z.of_nat (length (permutation cycles_60060))) with 60. lia.
Qed.

(** Counterexample to C1 as stated: on 60 sites, a symmetry of order 60060
    composed with a cycle of 17 other sites, both in the sector 0. The
    composed permutation has order [1021020], which the spec gives as the
    periodicity; [compose] returns the periodicity
    [1021020 mod 65536 = 37980]. *)
Lemma compose_truncates_periodicity :
  valid_spec cycles_60060 /\ valid_spec cycles_17
  /\ length (permutation cycles_60060) = length (permutation cycles_17)
  /\ permutation_order (composed_permutation cycles_60060 cycles_17) = 1021020
  /\ compose_spec permutation_order cycles_60060 cycles_17
     = Ok {| permutation := composed_permutation cycles_60060 cycles_17;
             sector := 0; periodicity := 1021020 |}
  /\ compose permutation_order cycles_60060 cycles_17
     = Ok {| permutation := composed_permutation cycles_60060 cycles_17;
             sector := 0; periodicity := 37980 |}.
Proof.
  split; [exact valid_cycles_60060 |]. split; [exact valid_cycles_17 |].
  repeat split; vm_compute; reflexivity.
Qed.

(** X4. The 32-bit numerator of [rational_add]: the spec of 43 sites and order
    60060 in its sector 60059, composed with itself. The sum of the two phases
    is [30029/30030] and the composed permutation has order [30030], a result
    with the sector [30029]; the numerator [2 * 60059 * 60060 = 7214287080]
    wraps and [compose] fails. *)
Lemma compose_wraps_on_wide_spec :
  valid_spec wide_spec
  /\ permutation_order (composed_permutation wide_spec wide_spec) = 30030
  /\ phase_sum wide_spec wide_spec = (30029, 30030)
  /\ compose_spec permutation_order wide_spec wide_spec
     = Ok {| permutation := composed_permutation wide_spec wide_spec;
             sector := 30029; periodicity := 30030 |}
  /\ compose permutation_order wide_spec wide_spec = Failure LS_INCOMPATIBLE_SYMMETRIES.
Proof.
  split; [exact valid_wide_spec |].
  repeat split; vm_compute; reflexivity.
Qed.

(** ** [make_group] *)

Lemma distinct_nil : distinct [].
Proof. intros i j a b _ H; destruct i; discriminate. Qed.

Lemma distinct_snoc (l : list symmetry_spec_t) (g : symmetry_spec_t) :
  distinct l -> (forall a, In a l -> equal a g = Ok false) -> distinct (l ++ [g]).
Proof.
  intros Hl Hg i j a b Hij Ha Hb.
  assert (Hj : (j < length (l ++ [g]))%nat) by (apply nth_error_Some; congruence).
  rewrite length_app in Hj; simpl in Hj.
  rewrite nth_error_app1 in Ha by lia.
  destruct (Nat.eq_dec j (length l)) as [-> | Hne].
  - rewrite nth_error_app2, Nat.sub_diag in Hb by lia. simpl in Hb.
    inversion Hb; subst b. apply Hg. eapply nth_error_In; eassumption.
  - rewrite nth_error_app1 in Hb by lia. exact (Hl i j a b Hij Ha Hb).
Qed.

Lemma contains_true (gs : list symmetry_spec_t) (x : symmetry_spec_t) :
  contains gs x = Ok true -> exists g, In g gs /\ equal g x = Ok true.
Proof.
  induction gs as [| g gs IH]; simpl; intros H; [discriminate |].
  bind_inv H. destruct v.
  - exists g; auto.
  - destruct (IH H) as [g' [Hin He]]. exists g'; auto.
Qed.

Lemma contains_false (gs : list symmetry_spec_t) (x : symmetry_spec_t) :
  contains gs x = Ok false -> forall g, In g gs -> equal g x = Ok false.
Proof.
  induction gs as [| g gs IH]; simpl; intros H g' Hin; [contradiction |].
  bind_inv H. destruct v; [discriminate |].
  destruct Hin as [<- | Hin]; [exact Hv | exact (IH H g' Hin)].
Qed.

Lemma dedup_sound (generators group res : list symmetry_spec_t) :
  dedup group generators = Ok res ->
  distinct group ->
  distinct res
  /\ (exists tail, res = group ++ tail)
  /\ forall g, In g generators -> exists g', In g' res /\ equal g' g = Ok true.
Proof.
  revert group; induction generators as [| g rest IH]; simpl; intros group H Hd.
  - inversion H; subst res. split; [exact Hd |]. split; [| intros g []].
    exists []; symmetry; apply app_nil_r.
  - bind_inv H. destruct v.
    + destruct (IH _ H Hd) as (Hres & [tail Htail] & Hcov).
      split; [exact Hres |]. split; [exists tail; exact Htail |].
      intros g0 [<- | Hin]; [| exact (Hcov g0 Hin)].
      destruct (contains_true _ _ Hv) as [g' [Hin' He]].
      exists g'; split; [| exact He]. subst res; apply in_or_app; auto.
    + assert (Hd' : distinct (group ++ [g]))
        by (apply distinct_snoc; [exact Hd | exact (contains_false _ _ Hv)]).
      destruct (IH _ H Hd') as (Hres & [tail Htail] & Hcov).
      split; [exact Hres |]. split.
      * exists (g :: tail). rewrite Htail, <- app_assoc; reflexivity.
      * intros g0 [<- | Hin]; [| exact (Hcov g0 Hin)].
        exists g; split; [| apply equal_refl].
        subst res; apply in_or_app; left; apply in_or_app; right; left; reflexivity.
Qed.

Section ClosureProperties.

Variable compute_periodicity : list Z -> Z.

Lemma product_in_mono (l l' : list symmetry_spec_t) (g1 g2 : symmetry_spec_t) :
  (forall g, In g l -> In g l') ->
  product_in compute_periodicity l g1 g2 -> product_in compute_periodicity l' g1 g2.
Proof.
  intros Hsub (g & Hg & g' & Hin & He).
  exists g; split; [exact Hg |]. exists g'; auto.
Qed.

Lemma round_inner_sound (group : list symmetry_spec_t) (g1 : symmetry_spec_t)
    (g2s extra extra' : list symmetry_spec_t) :
  round_inner compute_periodicity group g1 g2s extra = Ok extra' ->
  distinct (group ++ extra) ->
  distinct (group ++ extra')
  /\ (exists tail, extra' = extra ++ tail)
  /\ forall g2, In g2 g2s -> product_in compute_periodicity (group ++ extra') g1 g2.
Proof.
  revert extra; induction g2s as [| g2 rest IH]; simpl; intros extra H Hd.
  - inversion H; subst extra'. split; [exact Hd |]. split; [| intros g2 []].
    exists []; symmetry; apply app_nil_r.
  - bind_inv H. rename v into g, Hv into Hg.
    bind_inv H. rename v into in_group, Hv into Hgroup.
    destruct in_group.
    + destruct (IH _ H Hd) as (Hd' & [tail Htail] & Hcl).
      split; [exact Hd' |]. split; [exists tail; exact Htail |].
      intros g0 [<- | Hin]; [| exact (Hcl g0 Hin)].
      destruct (contains_true _ _ Hgroup) as [g' [Hin' He]].
      exists g; split; [exact Hg |]. exists g'; split; [| exact He].
      apply in_or_app; auto.
    + bind_inv H. rename v into in_extra, Hv into Hextra.
      destruct in_extra.
      * destruct (IH _ H Hd) as (Hd' & [tail Htail] & Hcl).
        split; [exact Hd' |]. split; [exists tail; exact Htail |].
        intros g0 [<- | Hin]; [| exact (Hcl g0 Hin)].
        destruct (contains_true _ _ Hextra) as [g' [Hin' He]].
        exists g; split; [exact Hg |]. exists g'; split; [| exact He].
        subst extra'. apply in_or_app; right; apply in_or_app; auto.
      * assert (Hd1 : distinct (group ++ extra ++ [g])).
        { rewrite app_assoc. apply distinct_snoc; [exact Hd |].
          intros a Ha. apply in_app_or in Ha.
          destruct Ha as [Ha | Ha];
            [exact (contains_false _ _ Hgroup a Ha) | exact (contains_false _ _ Hextra a Ha)]. }
        destruct (IH _ H Hd1) as (Hd' & [tail Htail] & Hcl).
        split; [exact Hd' |]. split.
        { exists (g :: tail). rewrite Htail, <- app_assoc; reflexivity. }
        intros g0 [<- | Hin]; [| exact (Hcl g0 Hin)].
        exists g; split; [exact Hg |]. exists g; split; [| apply equal_refl].
        subst extra'. apply in_or_app; right.
        apply in_or_app; left; apply in_or_app; right; left; reflexivity.
Qed.

Lemma round_outer_sound (group g1s extra extra' : list symmetry_spec_t) :
  round_outer compute_periodicity group g1s extra = Ok extra' ->
  distinct (group ++ extra) ->
  distinct (group ++ extra')
  /\ (exists tail, extra' = extra ++ tail)
  /\ forall g1 g2, In g1 g1s -> In g2 group ->
       product_in compute_periodicity (group ++ extra') g1 g2.
Proof.
  revert extra; induction g1s as [| g1 rest IH]; simpl; intros extra H Hd.
  - inversion H; subst extra'. split; [exact Hd |]. split; [| intros g1 g2 []].
    exists []; symmetry; apply app_nil_r.
  - bind_inv H. rename v into extra1, Hv into Hinner.
    destruct (round_inner_sound _ _ _ _ _ Hinner Hd) as (Hd1 & [tail1 Htail1] & Hcl1).
    destruct (IH _ H Hd1) as (Hd' & [tail Htail] & Hcl).
    split; [exact Hd' |]. split.
    { exists (tail1 ++ tail). rewrite Htail, Htail1, <- app_assoc; reflexivity. }
    intros g0 g2 [<- | Hin] Hg2; [| exact (Hcl g0 g2 Hin Hg2)].
    apply (product_in_mono (group ++ extra1)); [| exact (Hcl1 g2 Hg2)].
    intros a Ha. apply in_app_or in Ha. apply in_or_app.
    destruct Ha as [Ha | Ha]; [left; exact Ha |].
    right. subst extra'. apply in_or_app; left; exact Ha.
Qed.

Lemma closure_loop_sound (fuel : nat) (group res : list symmetry_spec_t) :
  closure_loop compute_periodicity fuel group = Some (Ok res) ->
  distinct group ->
  distinct res
  /\ (exists tail, res = group ++ tail)
  /\ forall g1 g2, In g1 res -> In g2 res -> product_in compute_periodicity res g1 g2.
Proof.
  revert group; induction fuel as [| fuel IH]; simpl; intros group H Hd; [discriminate |].
  destruct (round_outer compute_periodicity group group []) as [extra | e |] eqn:Hround;
    try (inversion H; fail).
  assert (Hd0 : distinct (group ++ [])) by (rewrite app_nil_r; exact Hd).
  destruct (round_outer_sound _ _ _ _ Hround Hd0) as (Hd' & _ & Hcl).
  destruct extra as [| g extra].
  - inversion H; subst res. rewrite app_nil_r in Hcl.
    split; [exact Hd |]. split; [exists []; symmetry; apply app_nil_r | exact Hcl].
  - destruct (IH _ H Hd') as (Hres & [tail Htail] & Hclosed).
    split; [exact Hres |]. split; [| exact Hclosed].
    exists ((g :: extra) ++ tail). rewrite Htail, <- app_assoc; reflexivity.
Qed.

(** C2. When [make_group] succeeds, the returned sequence contains every
    generator up to [equal], no two of its elements are [equal], and it is
    closed under [compose] up to [equal]: the composition of every ordered
    pair of its elements succeeds and is [equal] to one of its elements. *)
Theorem make_group_closed (fuel : nat) (generators group : list symmetry_spec_t) :
  make_group compute_periodicity fuel generators = Some (Ok group) ->
  (forall g, In g generators -> exists g', In g' group /\ equal g' g = Ok true)
  /\ (forall i j a b, i <> j ->
        nth_error group i = Some a -> nth_error group j = Some b ->
        equal a b = Ok false)
  /\ (forall g1 g2, In g1 group -> In g2 group ->
        exists g, compose compute_periodicity g1 g2 = Ok g
                  /\ exists g', In g' group /\ equal g' g = Ok true).
Proof.
  unfold make_group. destruct generators as [| g0 rest].
  - intros H; inversion H; subst group.
    split; [intros g [] |]. split; [| intros g1 g2 []].
    intros i j a b _ Ha; destruct i; discriminate.
  - destruct (dedup [] (g0 :: rest)) as [start | e |] eqn:Hdedup; try discriminate.
    intros Hloop.
    destruct (dedup_sound _ _ _ Hdedup distinct_nil) as (Hd & _ & Hcov).
    destruct (closure_loop_sound _ _ _ Hloop Hd) as (Hres & [tail Htail] & Hclosed).
    split; [| split; [| exact Hclosed]].
    + intros g Hg. destruct (Hcov g Hg) as [g' [Hin He]].
      exists g'; split; [| exact He]. subst group; apply in_or_app; auto.
    + intros i j a b Hij Ha Hb.
      destruct (Nat.lt_total i j) as [Hlt | [Heq | Hgt]]; [| contradiction |].
      * exact (Hres i j a b Hlt Ha Hb).
      * rewrite equal_sym. exact (Hres j i b a Hgt Hb Ha).
Qed.

End ClosureProperties.

(** Witness of C2: the group generated by the translation of the ring of four
    sites in the sector 1 has the four translations. *)
Lemma make_group_closed_witness :
  let group := [ring4 1;
                {| permutation := [2; 3; 0; 1]; sector := 1; periodicity := 2 |};
                {| permutation := [3; 0; 1; 2]; sector := 3; periodicity := 4 |};
                {| permutation := [0; 1; 2; 3]; sector := 0; periodicity := 1 |}] in
  make_group permutation_order 3 [ring4 1] = Some (Ok group)
  /\ (forall g, In g [ring4 1] -> exists g', In g' group /\ equal g' g = Ok true)
  /\ (forall i j a b, i <> j ->
        nth_error group i = Some a -> nth_error group j = Some b ->
        equal a b = Ok false)
  /\ (forall g1 g2, In g1 group -> In g2 group ->
        exists g, compose permutation_order g1 g2 = Ok g
                  /\ exists g', In g' group /\ equal g' g = Ok true).
Proof.
  intros group.
  assert (H : make_group permutation_order 3 [ring4 1] = Some (Ok group))
    by (vm_compute; reflexivity).
  split; [exact H |].
  exact (make_group_closed permutation_order 3 [ring4 1] group H).
Defined.

(** ** The group facade *)

Lemma to_int_small (z : Z) : 0 <= z < 2147483648 -> to_int z = z.
Proof.
  intros H; unfold to_int. rewrite u32_small by lia.
  replace (z <? 2147483648) with true by (symmetry; apply Z.ltb_lt; lia).
  reflexivity.
Qed.

Lemma length_make_identity_spec (number_spins : Z) :
  Z.of_nat (length (permutation (make_identity_spec number_spins))) = u16 number_spins.
Proof.
  unfold make_identity_spec; simpl. rewrite length_map, length_seq.
  apply Z2Nat.id. unfold u16. apply Z.mod_pos_bound. lia.
Qed.

(** The loop counter is a [uint16_t]: [number_spins] and [number_spins + 65536]
    give one spec. *)
Lemma make_identity_spec_wraps (number_spins : Z) :
  make_identity_spec (number_spins + 65536) = make_identity_spec number_spins.
Proof.
  unfold make_identity_spec, u16.
  replace (number_spins + 65536) with (number_spins + 1 * 65536) by ring.
  rewrite Z.mod_add by lia. reflexivity.
Qed.

Section FacadeProperties.

Variable compile : list Z -> option fat_benes_network_t.
Variable compute_eigenvalue : Z -> Z -> complex.

(** C8 (amended). [ls_create_trivial_group] returns
    [LS_INVALID_NUMBER_SPINS] if and only if [number_spins] is 0; for
    [0 < number_spins < 65536], when the network compiler accepts the identity
    permutation of [number_spins] elements and yields a network of that
    permutation, the call succeeds with a group of size 1 on [number_spins]
    spins. *)
Theorem create_trivial_group_cases (number_spins : Z) :
  (ls_create_trivial_group compile compute_eigenvalue number_spins
     = Failure LS_INVALID_NUMBER_SPINS <-> number_spins = 0)
  /\ (0 < number_spins < 65536 ->
      forall fat,
        compile (permutation (make_identity_spec number_spins)) = Some fat ->
        net_permutation fat = permutation (make_identity_spec number_spins) ->
        exists group,
          ls_create_trivial_group compile compute_eigenvalue number_spins = Ok group
          /\ ls_get_group_size group = 1
          /\ ls_group_get_number_spins group = number_spins).
Proof.
  split.
  - unfold ls_create_trivial_group, from_spec. split.
    + destruct (number_spins =? 0) eqn:E; [intros _; apply Z.eqb_eq; exact E |].
      destruct (compile _); simpl; discriminate.
    + intros ->; reflexivity.
  - intros Hn fat Hc Hperm.
    unfold ls_create_trivial_group, from_spec.
    replace (number_spins =? 0) with false by (symmetry; apply Z.eqb_neq; lia).
    rewrite Hc; simpl. eexists; split; [reflexivity |]. split; [reflexivity |].
    unfold ls_group_get_number_spins, ls_symmetry_get_number_spins; simpl.
    rewrite Hperm, length_make_identity_spec, (u16_small number_spins) by lia.
    rewrite u32_small by lia. apply to_int_small; lia.
Qed.

End FacadeProperties.

(** Witness of C8: the trivial group on four spins. *)
Lemma create_trivial_group_witness :
  (ls_create_trivial_group reference_compile quarter_turn_eigenvalue 4
     = Failure LS_INVALID_NUMBER_SPINS <-> 4 = 0)
  /\ exists group,
       ls_create_trivial_group reference_compile quarter_turn_eigenvalue 4 = Ok group
       /\ ls_get_group_size group = 1
       /\ ls_group_get_number_spins group = 4.
Proof.
  destruct (create_trivial_group_cases reference_compile quarter_turn_eigenvalue 4)
    as [Hfail Hok].
  split; [exact Hfail |].
  apply (Hok ltac:(lia) {| net_permutation := [0; 1; 2; 3]; net_depth := 3 |});
    reflexivity.
Defined.

(** Counterexample to C8 as stated: [number_spins = 65540] is positive, and
    the group that [ls_create_trivial_group] returns is the trivial group on
    4 spins. *)
Lemma create_trivial_group_truncates :
  permutation (make_identity_spec 65540) = [0; 1; 2; 3]
  /\ exists group,
       ls_create_trivial_group reference_compile quarter_turn_eigenvalue 65540 = Ok group
       /\ ls_get_group_size group = 1
       /\ ls_group_get_number_spins group = 4.
Proof.
  split; [vm_compute; reflexivity |].
  eexists; split; [vm_compute; reflexivity |].
  split; vm_compute; reflexivity.
Qed.

(** ** [ls_group_dump_symmetry_info] *)

Lemma store_in_range {A : Type} (buffer : list A) (i : nat) (a : A) :
  (i < length buffer)%nat ->
  store buffer i a = Ok (firstn i buffer ++ a :: skipn (S i) buffer).
Proof.
  intros H; unfold store.
  replace (Nat.ltb i (length buffer)) with true by (symmetry; apply Nat.ltb_lt; exact H).
  reflexivity.
Qed.

Lemma length_stored {A : Type} (buffer : list A) (i : nat) (a : A) :
  (i < length buffer)%nat ->
  length (firstn i buffer ++ a :: skipn (S i) buffer) = length buffer.
Proof.
  intros H. rewrite length_app, length_firstn. cbn [length]. rewrite length_skipn. lia.
Qed.

Lemma firstn_stored {A : Type} (buffer : list A) (i : nat) (a : A) :
  (i < length buffer)%nat ->
  firstn (S i) (firstn i buffer ++ a :: skipn (S i) buffer) = firstn i buffer ++ [a].
Proof.
  intros H.
  rewrite firstn_app.
  rewrite (firstn_all2 (n := S i) (firstn i buffer)) by (rewrite length_firstn; lia).
  rewrite length_firstn, Nat.min_l by lia.
  replace (S i - i)%nat with 1%nat by lia. reflexivity.
Qed.

Lemma skipn_stored {A : Type} (buffer : list A) (i m : nat) (a : A) :
  (i < length buffer)%nat -> (i < m)%nat ->
  skipn m (firstn i buffer ++ a :: skipn (S i) buffer) = skipn m buffer.
Proof.
  intros H Hm.
  rewrite skipn_app.
  rewrite (skipn_all2 (n := m) (firstn i buffer)) by (rewrite length_firstn; lia).
  rewrite length_firstn, Nat.min_l by lia.
  destruct (m - i)%nat as [| d] eqn:E; [lia |].
  change (skipn (S d) (a :: skipn (S i) buffer)) with (skipn d (skipn (S i) buffer)).
  rewrite skipn_skipn. cbn [app]. f_equal. lia.
Qed.

Section DumpProperties.

Variables masks_t shifts_t : Type.
Variable ls_symmetry_get_network_shifts : ls_symmetry -> shifts_t -> shifts_t.
Variable ls_symmetry_get_network_masks : ls_symmetry -> nat -> Z -> masks_t -> masks_t.

Abbreviation dump := (ls_group_dump_symmetry_info masks_t shifts_t
                    ls_symmetry_get_network_shifts ls_symmetry_get_network_masks).
Abbreviation loop := (dump_loop masks_t shifts_t ls_symmetry_get_network_masks).

(** The loop fills the slots [k, k + 1, ...] of the eigenvalue array in the
    order of the sequence and touches no other slot. *)
Lemma dump_loop_writes (symmetries : list ls_symmetry) (n : Z) (k : nat)
    (out : dump_buffers masks_t shifts_t) :
  (k + length symmetries <= length (eigenvalues _ _ out))%nat ->
  exists out',
    loop symmetries n k out = Ok out'
    /\ eigenvalues _ _ out'
       = firstn k (eigenvalues _ _ out) ++ map eigenvalue symmetries
         ++ skipn (k + length symmetries) (eigenvalues _ _ out)
    /\ shifts _ _ out' = shifts _ _ out.
Proof.
  revert k out; induction symmetries as [| s rest IH]; intros k out Hk.
  - exists out. split; [reflexivity |]. split; [| reflexivity].
    cbn [map app length]. rewrite Nat.add_0_r. symmetry; apply firstn_skipn.
  - cbn [dump_loop length] in *. rewrite store_in_range by lia. cbn [bind].
    set (out1 := {| masks := _; shifts := _; eigenvalues := _ |}).
    destruct (IH (S k) out1) as (out' & Hloop & Hev & Hsh).
    { unfold out1; cbn [eigenvalues]. rewrite length_stored by lia. lia. }
    exists out'. split; [exact Hloop |]. split; [| exact Hsh].
    rewrite Hev. unfold out1; cbn [eigenvalues].
    rewrite firstn_stored by lia. rewrite skipn_stored by lia.
    rewrite <- app_assoc. cbn [map app].
    replace (k + S (length rest))%nat with (S k + length rest)%nat by lia. reflexivity.
Qed.

Lemma network_depth_uniform (group : ls_group) (s : ls_symmetry) (rest : list ls_symmetry) :
  payload group = s :: rest -> uniform_depth group ->
  exists d, 0 <= d < 2147483648 /\ ls_group_get_network_depth group = Ok d.
Proof.
  intros Hp (d & Hd & Hall). exists d. split; [exact Hd |].
  unfold ls_group_get_network_depth. rewrite Hp in *.
  apply Forall_cons_iff in Hall. destruct Hall as [Hs Hrest].
  assert (Hds : ls_symmetry_get_network_depth s = d)
    by (unfold ls_symmetry_get_network_depth; rewrite Hs; apply u32_small; lia).
  rewrite Hds.
  replace (forallb _ rest) with true.
  - rewrite to_int_small by lia. reflexivity.
  - symmetry. apply forallb_forall. intros s' Hin.
    rewrite Forall_forall in Hrest. unfold ls_symmetry_get_network_depth.
    rewrite (Hrest s' Hin), u32_small by lia. apply Z.eqb_refl.
Qed.

(** C9. On an empty group [ls_group_dump_symmetry_info] returns
    [LS_SYSTEM_ERROR] and leaves the three buffers as they were; on a
    non-empty group (its networks of one depth, the eigenvalue array at least
    as long as the group) it returns [LS_SUCCESS] and the array then starts
    with the eigenvalues of the elements, in the order of the group. *)
Theorem dump_symmetry_info_cases (group : ls_group) (out : dump_buffers masks_t shifts_t) :
  (payload group = [] -> dump group out = Ok (LS_SYSTEM_ERROR, out))
  /\ (payload group <> [] ->
      uniform_depth group ->
      (length (payload group) <= length (eigenvalues _ _ out))%nat ->
      exists out',
        dump group out = Ok (LS_SUCCESS, out')
        /\ firstn (length (payload group)) (eigenvalues _ _ out')
           = map eigenvalue (payload group)
        /\ skipn (length (payload group)) (eigenvalues _ _ out')
           = skipn (length (payload group)) (eigenvalues _ _ out)).
Proof.
  split.
  - intros Hp. unfold ls_group_dump_symmetry_info, ls_group_get_network_depth.
    rewrite Hp; reflexivity.
  - intros Hne Hu Hlen.
    destruct (payload group) as [| s rest] eqn:Hp; [contradiction |].
    destruct (network_depth_uniform group s rest Hp Hu) as (d & Hd & Hdepth).
    unfold ls_group_dump_symmetry_info. rewrite Hdepth; cbn [bind].
    replace (d =? -1) with false by (symmetry; apply Z.eqb_neq; lia).
    replace (0 <=? d) with true by (symmetry; apply Z.leb_le; lia).
    cbn [negb]. rewrite Hp.
    set (out1 := {| masks := _; shifts := _; eigenvalues := _ |}).
    destruct (dump_loop_writes (s :: rest) (ls_get_group_size group) 0 out1)
      as (out' & Hloop & Hev & _).
    { unfold out1; simpl in *. lia. }
    rewrite Hloop; cbn [bind]. exists out'. split; [reflexivity |].
    rewrite Hev. unfold out1. cbn [eigenvalues firstn app Nat.add].
    split.
    + rewrite firstn_app, length_map, Nat.sub_diag. simpl firstn at 2.
      rewrite app_nil_r. apply firstn_all2. rewrite length_map; lia.
    + rewrite skipn_app, length_map, Nat.sub_diag.
      rewrite skipn_all2 by (rewrite length_map; lia). reflexivity.
Qed.

End DumpProperties.

(** ** The accumulator, lane by lane *)

Lemma fold_left_flat_map {A B C : Type} (f : A -> B -> A) (g : C -> list B)
    (l : list C) (a : A) :
  fold_left f (flat_map g l) a = fold_left (fun a c => fold_left f (g c) a) l a.
Proof.
  revert a; induction l as [| c l IH]; intros a; simpl; [reflexivity |].
  rewrite fold_left_app. apply IH.
Qed.

Section Lanes.

Variable basis_header : basis_base_t.
Variable flip_mask : Z.
Variable flip_coeff : float.
Variable bits : Z.

(** A full batch moves every lane by the elements of its symmetry. *)
Lemma batch_step_lane (acc : batch_acc_64_arch_t) (s : batched_small_symmetry_t) (i : nat) :
  original acc i = bits ->
  lane_of (batch_step basis_header (broadcast flip_mask) (broadcast flip_coeff) acc s) i
  = fold_left (lane_step bits)
      (lane_elements basis_header flip_mask flip_coeff bits s i) (lane_of acc i).
Proof.
  intros Ho. unfold batch_step, lane_elements, flipped_eigenvalue, lane_of.
  destruct (spin_inversion basis_header =? 0); cbn [negb].
  - cbn. unfold select, if_add, vlt, veq, benes_forward_arch. rewrite Ho. reflexivity.
  - destruct (spin_inversion basis_header =? 1); cbn;
      unfold select, if_add, vlt, veq, vxor, vmul, benes_forward_arch, broadcast;
      cbn; rewrite Ho; reflexivity.
Qed.

Lemma batch_step_original (acc : batch_acc_64_arch_t) (s : batched_small_symmetry_t) :
  original (batch_step basis_header (broadcast flip_mask) (broadcast flip_coeff) acc s)
  = original acc.
Proof.
  unfold batch_step.
  destruct (spin_inversion basis_header =? 0); reflexivity.
Qed.

Lemma fold_batches_lane (l : list batched_small_symmetry_t) (acc : batch_acc_64_arch_t)
    (i : nat) :
  original acc i = bits ->
  let acc' := fold_left (batch_step basis_header (broadcast flip_mask) (broadcast flip_coeff))
                l acc in
  original acc' i = bits
  /\ lane_of acc' i
     = fold_left (lane_step bits)
         (flat_map (fun s => lane_elements basis_header flip_mask flip_coeff bits s i) l)
         (lane_of acc i).
Proof.
  revert acc; induction l as [| s l IH]; intros acc Ho; cbn [fold_left flat_map].
  - split; [exact Ho | reflexivity].
  - rewrite fold_left_app, <- batch_step_lane by exact Ho.
    apply IH. rewrite batch_step_original. exact Ho.
Qed.

(** The remainder batch moves the lanes below [count] only. *)
Lemma other_step_lane (acc : batch_acc_64_arch_t) (s : batched_small_symmetry_t)
    (count : Z) :
  count < 8 ->
  exists acc',
    other_step basis_header (broadcast flip_mask) (broadcast flip_coeff) count acc s = Ok acc'
    /\ forall i, original acc i = bits ->
         original acc' i = bits
         /\ lane_of acc' i
            = fold_left (lane_step bits)
                (if Z.of_nat i <? count
                 then lane_elements basis_header flip_mask flip_coeff bits s i else [])
                (lane_of acc i).
Proof.
  intros Hc. unfold other_step, update_first_few.
  replace (count <? 8) with true by (symmetry; apply Z.ltb_lt; exact Hc).
  cbn [negb bind].
  unfold lane_elements, flipped_eigenvalue, lane_of.
  destruct (spin_inversion basis_header =? 0); cbn [negb].
  - eexists; split; [reflexivity |]. intros i Ho. split; [exact Ho |].
    cbn. unfold select, if_add, vlt, veq, vand, include_lanes, benes_forward_arch.
    rewrite Ho. destruct (Z.of_nat i <? count); cbn; rewrite ?andb_false_r, ?andb_true_r;
      reflexivity.
  - replace (count <? 8) with true by (symmetry; apply Z.ltb_lt; exact Hc).
    cbn [negb]. eexists; split; [reflexivity |]. intros i Ho. split; [exact Ho |].
    destruct (spin_inversion basis_header =? 1); cbn;
      unfold select, if_add, vlt, veq, vand, vxor, vmul, include_lanes,
        benes_forward_arch, broadcast; cbn;
      rewrite Ho; destruct (Z.of_nat i <? count); cbn;
      rewrite ?andb_false_r, ?andb_true_r; reflexivity.
Qed.

End Lanes.

(** The accumulator after all batches: lane [i] has run over the elements of
    [lane_sequence]. *)
Lemma small_scan_lanes (basis_header : basis_base_t) (basis_body : small_basis_t)
    (bits m : Z) :
  get_flip_mask_64 (number_spins basis_header) = Ok m ->
  number_other_symmetries basis_body < 8 ->
  exists acc,
    small_scan basis_header basis_body bits = Ok acc
    /\ forall i,
         lane_of acc i
         = lane_run bits
             (lane_sequence basis_header m (double_of_Z (spin_inversion basis_header))
                bits basis_body i).
Proof.
  intros Hm Hc. unfold small_scan. rewrite Hm; cbn [bind].
  set (c := double_of_Z (spin_inversion basis_header)).
  set (acc0 := fold_left _ _ _).
  assert (H0 : forall i,
             original acc0 i = bits
             /\ lane_of acc0 i
                = fold_left (lane_step bits)
                    (flat_map (fun s => lane_elements basis_header m c bits s i)
                       (batched_symmetries basis_body))
                    (lane_of (batch_acc_init bits) i)).
  { intros i. apply fold_batches_lane. reflexivity. }
  unfold lane_sequence, lane_run.
  destruct (other_symmetries basis_body) as [s |].
  - destruct (other_step_lane basis_header m c bits acc0 s _ Hc) as (acc' & Hstep & Hl).
    exists acc'. split; [exact Hstep |]. intros i.
    destruct (H0 i) as [Ho Hlane]. destruct (Hl i Ho) as [_ Hlane'].
    rewrite Hlane', Hlane, fold_left_app. reflexivity.
  - exists acc0. split; [reflexivity |]. intros i.
    destruct (H0 i) as [_ Hlane]. rewrite Hlane, app_nil_r. reflexivity.
Qed.

(** ** One lane over a sequence of elements *)

Lemma lane_run_snoc (bits : Z) (l : list orbit_element) (el : orbit_element) :
  lane_run bits (l ++ [el]) = lane_step bits (lane_run bits l) el.
Proof. unfold lane_run. rewrite fold_left_app. reflexivity. Qed.

Lemma stabilizer_sum_snoc (bits : Z) (l : list orbit_element) (el : orbit_element) :
  stabilizer_sum bits (l ++ [el])
  = if fst el =? bits then (stabilizer_sum bits l + fst (snd el))%float
    else stabilizer_sum bits l.
Proof.
  unfold stabilizer_sum. rewrite filter_app. cbn [filter].
  destruct (fst el =? bits).
  - rewrite fold_left_app. reflexivity.
  - rewrite app_nil_r. reflexivity.
Qed.

(** What a lane holds after a sequence: a minimum that is at most [bits] and
    at most every image, the initial character [(1, 0)] when no image is below
    [bits] and otherwise the eigenvalue of an image that attains the minimum,
    and the stabilizer sum of the sequence. *)
Lemma lane_run_spec (bits : Z) (l : list orbit_element) :
  let '(r0, n0, e0) := lane_run bits l in
  r0 <= bits
  /\ (forall el, In el l -> r0 <= fst el)
  /\ ((r0 = bits /\ e0 = (1%float, 0%float)) \/ (r0 < bits /\ In (r0, e0) l))
  /\ n0 = stabilizer_sum bits l.
Proof.
  induction l as [| el l IH] using rev_ind.
  - cbn. split; [lia |]. split; [intros el [] |]. split; [left; split; reflexivity |].
    reflexivity.
  - rewrite lane_run_snoc, stabilizer_sum_snoc.
    destruct (lane_run bits l) as [[r0 n0] e0]. destruct IH as (Hle & Hmin & Hch & Hn).
    destruct el as [x [re im]]. cbn [lane_step fst snd].
    destruct (Z.ltb_spec x r0) as [Hlt | Hge].
    + split; [lia |]. split; [| split].
      * intros el Hin. apply in_app_or in Hin. destruct Hin as [Hin | [<- | []]].
        -- specialize (Hmin el Hin). lia.
        -- cbn; lia.
      * right. split; [lia |]. apply in_or_app; right; left; reflexivity.
      * rewrite Hn. reflexivity.
    + split; [exact Hle |]. split; [| split].
      * intros el Hin. apply in_app_or in Hin. destruct Hin as [Hin | [<- | []]].
        -- exact (Hmin el Hin).
        -- cbn; lia.
      * destruct Hch as [[-> ->] | [Hlt Hin]]; [left; split; reflexivity |].
        right. split; [exact Hlt |]. destruct e0; apply in_or_app; left; exact Hin.
      * rewrite Hn. reflexivity.
Qed.

(** ** The tree reduction *)

(** [reduce] returns the minimum and the character of one of the eight lanes,
    a lane whose minimum is least, and the sum of the eight partial sums. *)
Lemma reduce_spec (acc : batch_acc_64_arch_t) :
  let '(repr, c, nrm) := reduce acc in
  nrm = horizontal_add (n acc)
  /\ exists j, repr = r acc j /\ c = (e_re acc j, e_im acc j)
               /\ (j < 8)%nat
               /\ forall i, (i < 8)%nat -> repr <= r acc i.
Proof.
  unfold reduce, reduce_norm_only, select, vlt, get_low, get_high. cbn [Nat.add].
  repeat match goal with
         | |- context [r acc ?a <? r acc ?b] => destruct (Z.ltb_spec (r acc a) (r acc b))
         end;
    (split; [reflexivity |]);
    (eexists; split; [reflexivity |]; split; [reflexivity |]; split; [lia |]);
    intros i Hi; do 8 (destruct i as [| i]; [lia |]); lia.
Qed.

(** ** The representative *)

Lemma lane_in_orbit (basis_header : basis_base_t) (flip_mask : Z) (flip_coeff : float)
    (bits : Z) (basis_body : small_basis_t) (i : nat) (el : orbit_element) :
  (i < 8)%nat ->
  In el (lane_sequence basis_header flip_mask flip_coeff bits basis_body i) ->
  In el (extended_orbit basis_header flip_mask flip_coeff bits basis_body).
Proof.
  intros Hi Hin. unfold lane_sequence in Hin. unfold extended_orbit.
  apply in_app_or in Hin. apply in_or_app. destruct Hin as [Hin | Hin].
  - left. apply in_flat_map in Hin. destruct Hin as (s & Hs & Hel).
    apply in_flat_map. exists s. split; [exact Hs |].
    apply in_flat_map. exists i. split; [apply in_seq; lia | exact Hel].
  - right. destruct (other_symmetries basis_body) as [s |]; [| contradiction].
    destruct (Z.ltb_spec (Z.of_nat i) (number_other_symmetries basis_body)) as [Hlt | Hge];
      [| contradiction].
    apply in_flat_map. exists i. split; [apply in_seq; lia | exact Hin].
Qed.

Lemma orbit_in_lane (basis_header : basis_base_t) (flip_mask : Z) (flip_coeff : float)
    (bits : Z) (basis_body : small_basis_t) (el : orbit_element) :
  number_other_symmetries basis_body <= 8 ->
  In el (extended_orbit basis_header flip_mask flip_coeff bits basis_body) ->
  exists i, (i < 8)%nat
            /\ In el (lane_sequence basis_header flip_mask flip_coeff bits basis_body i).
Proof.
  intros Hc Hin. unfold extended_orbit in Hin. apply in_app_or in Hin.
  destruct Hin as [Hin | Hin].
  - apply in_flat_map in Hin. destruct Hin as (s & Hs & Hel).
    apply in_flat_map in Hel. destruct Hel as (i & Hi & Hel). apply in_seq in Hi.
    exists i. split; [lia |]. unfold lane_sequence. apply in_or_app; left.
    apply in_flat_map. exists s. auto.
  - destruct (other_symmetries basis_body) as [s |] eqn:Ho; [| contradiction].
    apply in_flat_map in Hin. destruct Hin as (i & Hi & Hel). apply in_seq in Hi.
    exists i. split; [lia |]. unfold lane_sequence. apply in_or_app; right.
    rewrite Ho.
    replace (Z.of_nat i <? number_other_symmetries basis_body) with true
      by (symmetry; apply Z.ltb_lt; lia).
    exact Hel.
Qed.

Lemma small_scan_mask (basis_header : basis_base_t) (basis_body : small_basis_t)
    (bits : Z) (acc : batch_acc_64_arch_t) :
  small_scan basis_header basis_body bits = Ok acc ->
  get_flip_mask_64 (number_spins basis_header) = Ok (flip_mask_of basis_header)
  /\ (other_symmetries basis_body = None \/ number_other_symmetries basis_body < 8).
Proof.
  unfold small_scan, flip_mask_of. intros H.
  destruct (get_flip_mask_64 (number_spins basis_header)) as [m | e |]; try discriminate.
  split; [reflexivity |]. cbn [bind] in H.
  destruct (other_symmetries basis_body) as [s |]; [| left; reflexivity].
  right. unfold other_step, update_first_few in H.
  destruct (Z.ltb_spec (number_other_symmetries basis_body) 8); [assumption |].
  discriminate.
Qed.

(** The lanes of the accumulator that [small_scan] returns. *)
Lemma small_scan_spec (basis_header : basis_base_t) (basis_body : small_basis_t)
    (bits : Z) (acc : batch_acc_64_arch_t) :
  small_scan basis_header basis_body bits = Ok acc ->
  forall i,
    lane_of acc i
    = lane_run bits
        (lane_sequence basis_header (flip_mask_of basis_header)
           (flip_coeff_of basis_header) bits basis_body i).
Proof.
  intros H. destruct (small_scan_mask _ _ _ _ H) as [Hm Hc].
  destruct Hc as [Hnone | Hc].
  - (* no remainder batch: the count is not read *)
    unfold small_scan in H. rewrite Hm in H. cbn [bind] in H. rewrite Hnone in H.
    inversion H; subst acc. intros i.
    unfold lane_sequence, lane_run. rewrite Hnone, app_nil_r.
    apply fold_batches_lane. reflexivity.
  - destruct (small_scan_lanes basis_header basis_body bits _ Hm Hc) as (acc' & Hs & Hl).
    rewrite H in Hs. inversion Hs; subst acc'. exact Hl.
Qed.

(** The representative of the 64-bit path is the least of [bits] and the
    images in the lanes. *)
Lemma reduce_minimum (basis_header : basis_base_t) (basis_body : small_basis_t)
    (bits : Z) (acc : batch_acc_64_arch_t) :
  small_scan basis_header basis_body bits = Ok acc ->
  let '(repr, c, nrm) := reduce acc in
  repr <= bits
  /\ (forall el, In el (small_orbit basis_header basis_body bits) ->
        number_other_symmetries basis_body <= 8 -> repr <= fst el)
  /\ ((repr = bits /\ c = (1%float, 0%float))
      \/ (repr < bits /\ In (repr, c) (small_orbit basis_header basis_body bits))).
Proof.
  intros H. pose proof (small_scan_spec _ _ _ _ H) as Hl.
  pose proof (reduce_spec acc) as Hr.
  destruct (reduce acc) as [[repr c] nrm].
  destruct Hr as (_ & j & Hj & Hc & Hj8 & Hmin).
  assert (Hlane : forall i,
             r acc i <= bits
             /\ (forall el, In el (lane_sequence basis_header (flip_mask_of basis_header)
                                    (flip_coeff_of basis_header) bits basis_body i) ->
                   r acc i <= fst el)
             /\ ((r acc i = bits /\ (e_re acc i, e_im acc i) = (1%float, 0%float))
                 \/ (r acc i < bits
                     /\ In (r acc i, (e_re acc i, e_im acc i))
                          (lane_sequence basis_header (flip_mask_of basis_header)
                             (flip_coeff_of basis_header) bits basis_body i)))).
  { intros i. specialize (Hl i). unfold lane_of in Hl.
    pose proof (lane_run_spec bits
                  (lane_sequence basis_header (flip_mask_of basis_header)
                     (flip_coeff_of basis_header) bits basis_body i)) as Hs.
    rewrite <- Hl in Hs. destruct Hs as (H1 & H2 & H3 & _). auto. }
  split; [| split].
  - rewrite Hj. apply Hlane.
  - intros el Hin Hcount.
    destruct (orbit_in_lane _ _ _ _ _ _ Hcount Hin) as (i & Hi & Hin').
    specialize (Hmin i Hi). destruct (Hlane i) as (_ & H2 & _).
    specialize (H2 el Hin'). lia.
  - destruct (Hlane j) as (_ & _ & [[Hb He] | [Hlt Hin]]).
    + left. split; congruence.
    + right. rewrite Hj, Hc. split; [exact Hlt |].
      eapply lane_in_orbit; eassumption.
Qed.

(** The body of the loop of the 512-bit path visits the image, then the
    flipped image. *)
Lemma big_step_visits (basis_header : basis_base_t) (flip_mask : bits512)
    (flip_coeff : float) (bits : bits512) (st : bits512 * float * complex)
    (s : big_symmetry_t) :
  big_step basis_header flip_mask flip_coeff bits st s
  = let x := big_network s bits in
    let st1 := big_visit bits st x (fst (big_eigenvalue s)) (big_eigenvalue s) in
    if negb (spin_inversion basis_header =? 0)
    then big_visit bits st1 (bits512_xor x flip_mask)
           (flip_coeff * fst (big_eigenvalue s))%float
           (scale flip_coeff (big_eigenvalue s))
    else st1.
Proof.
  destruct st as [[r0 n0] e0]. unfold big_step, big_visit. cbn zeta.
  destruct (bits512_ltb (big_network s bits) r0);
    [| destruct (bits512_eqb (big_network s bits) bits)];
    destruct (spin_inversion basis_header =? 0); reflexivity.
Qed.

(** A visit keeps the running minimum at most [bits], at most the images
    seen so far (the list [seen]) and the new one, and either [bits] or one of
    them. *)
Lemma big_visit_minimum (bits : bits512) (seen : list bits512)
    (st : bits512 * float * complex) (z : bits512) (w : float) (e : complex) :
  (let '(r0, _, _) := st in
   bits512_to_Z r0 <= bits512_to_Z bits
   /\ (forall x, In x seen -> bits512_to_Z r0 <= bits512_to_Z x)
   /\ (r0 = bits \/ (bits512_to_Z r0 < bits512_to_Z bits /\ In r0 seen))) ->
  let '(r1, _, _) := big_visit bits st z w e in
  bits512_to_Z r1 <= bits512_to_Z bits
  /\ (forall x, In x (seen ++ [z]) -> bits512_to_Z r1 <= bits512_to_Z x)
  /\ (r1 = bits \/ (bits512_to_Z r1 < bits512_to_Z bits /\ In r1 (seen ++ [z]))).
Proof.
  destruct st as [[r0 n0] e0]. intros (Hle & Hmin & Hin).
  unfold big_visit, bits512_ltb.
  destruct (Z.ltb_spec (bits512_to_Z z) (bits512_to_Z r0)) as [Hz | Hz].
  - split; [lia |]. split.
    + intros x Hx. apply in_app_or in Hx. destruct Hx as [Hx | [<- | []]]; [| lia].
      specialize (Hmin x Hx). lia.
    + right. split; [lia |]. apply in_or_app; right; left; reflexivity.
  - assert (H : bits512_to_Z r0 <= bits512_to_Z bits
                /\ (forall x, In x (seen ++ [z]) -> bits512_to_Z r0 <= bits512_to_Z x)
                /\ (r0 = bits
                    \/ (bits512_to_Z r0 < bits512_to_Z bits /\ In r0 (seen ++ [z])))).
    { split; [exact Hle |]. split.
      - intros x Hx. apply in_app_or in Hx. destruct Hx as [Hx | [<- | []]]; [| lia].
        exact (Hmin x Hx).
      - destruct Hin as [-> | [Hlt Hin]]; [left; reflexivity |].
        right. split; [exact Hlt |]. apply in_or_app; left; exact Hin. }
    destruct (bits512_eqb z bits); exact H.
Qed.

(** The scan of the 512-bit path keeps a running minimum that is at most
    [bits], at most every image seen, and either [bits] itself or one of the
    images. *)
Lemma big_fold_minimum (basis_header : basis_base_t) (flip_mask : bits512)
    (flip_coeff : float) (bits : bits512) (l : list big_symmetry_t) :
  let '(r0, n0, e0) :=
    fold_left (big_step basis_header flip_mask flip_coeff bits) l
      (bits, 0%float, (1%float, 0%float)) in
  bits512_to_Z r0 <= bits512_to_Z bits
  /\ (forall x, In x (flat_map (big_elements basis_header flip_mask bits) l) ->
        bits512_to_Z r0 <= bits512_to_Z x)
  /\ (r0 = bits
      \/ (bits512_to_Z r0 < bits512_to_Z bits
          /\ In r0 (flat_map (big_elements basis_header flip_mask bits) l))).
Proof.
  induction l as [| s l IH] using rev_ind.
  - cbn. split; [lia |]. split; [intros x [] | left; reflexivity].
  - rewrite fold_left_app, flat_map_app. cbn [fold_left flat_map]. rewrite app_nil_r.
    rewrite big_step_visits. cbn zeta.
    set (seen := flat_map (big_elements basis_header flip_mask bits) l) in *.
    set (st := fold_left _ l _) in *.
    unfold big_elements.
    pose proof (big_visit_minimum bits seen st (big_network s bits)
                  (fst (big_eigenvalue s)) (big_eigenvalue s)) as H1.
    assert (IH' : let '(r0, _, _) := st in
                  bits512_to_Z r0 <= bits512_to_Z bits
                  /\ (forall x, In x seen -> bits512_to_Z r0 <= bits512_to_Z x)
                  /\ (r0 = bits \/ (bits512_to_Z r0 < bits512_to_Z bits /\ In r0 seen)))
      by (destruct st as [[? ?] ?]; exact IH).
    specialize (H1 IH').
    destruct (spin_inversion basis_header =? 0); cbn [negb].
    + destruct (big_visit bits st _ _ _) as [[r1 n1] e1]. exact H1.
    + pose proof (big_visit_minimum bits (seen ++ [big_network s bits])
                    (big_visit bits st (big_network s bits)
                       (fst (big_eigenvalue s)) (big_eigenvalue s))
                    (bits512_xor (big_network s bits) flip_mask)
                    (flip_coeff * fst (big_eigenvalue s))%float
                    (scale flip_coeff (big_eigenvalue s))) as H2.
      assert (H1' : let '(r0, _, _) :=
                      big_visit bits st (big_network s bits)
                        (fst (big_eigenvalue s)) (big_eigenvalue s) in
                    bits512_to_Z r0 <= bits512_to_Z bits
                    /\ (forall x, In x (seen ++ [big_network s bits]) ->
                          bits512_to_Z r0 <= bits512_to_Z x)
                    /\ (r0 = bits
                        \/ (bits512_to_Z r0 < bits512_to_Z bits
                            /\ In r0 (seen ++ [big_network s bits]))))
        by (destruct (big_visit bits st _ _ _) as [[? ?] ?]; exact H1).
      specialize (H2 H1'). rewrite <- app_assoc in H2. cbn [app] in H2.
      destruct (big_visit bits (big_visit bits st _ _ _) _ _ _) as [[r2 n2] e2].
      exact H2.
Qed.

Lemma get_state_info_64_inv (basis_header : basis_base_t) (basis_body : small_basis_t)
    (bits repr : Z) (c : complex) (norm : float) :
  get_state_info_64 basis_header basis_body bits = Ok (repr, c, norm) ->
  (has_symmetries basis_header = false
   /\ repr = bits /\ c = (1%float, 0%float) /\ norm = 1%float)
  \/ (has_symmetries basis_header = true
      /\ exists acc nrm,
           small_scan basis_header basis_body bits = Ok acc
           /\ reduce acc = (repr, c, nrm)
           /\ (0 <=? snap nrm)%float = true
           /\ norm = PrimFloat.sqrt
                       (snap nrm / double_of_Z (small_group_size basis_header basis_body))).
Proof.
  unfold get_state_info_64. destruct (has_symmetries basis_header); cbn [negb].
  - intros H. right. split; [reflexivity |].
    destruct (small_scan basis_header basis_body bits) as [acc | e |]; try discriminate.
    cbn [bind] in H. destruct (reduce acc) as [[repr' c'] nrm] eqn:Hr.
    destruct (0 <=? snap nrm)%float eqn:Hs; cbn [negb] in H; [| discriminate].
    inversion H; subst. exists acc, nrm. auto.
  - intros H; inversion H; subst. left. auto.
Qed.

(** C10. The representative that [get_state_info] returns is at most the
    input, as an unsigned number over the full width, and it is the input when
    no element of the extended orbit is smaller; on 64 and on 512 bits. *)
Theorem representative_at_most_input :
  (forall basis_header basis_body bits repr c norm,
      get_state_info_64 basis_header basis_body bits = Ok (repr, c, norm) ->
      repr <= bits
      /\ ((forall el, In el (small_orbit basis_header basis_body bits) -> bits <= fst el) ->
          repr = bits))
  /\ (forall basis_header basis_body bits repr c norm,
         get_state_info_512 basis_header basis_body bits = Ok (repr, c, norm) ->
         bits512_to_Z repr <= bits512_to_Z bits
         /\ ((forall x, In x (big_orbit basis_header basis_body bits) ->
                bits512_to_Z bits <= bits512_to_Z x) ->
             repr = bits)).
Proof.
  split.
  - intros basis_header basis_body bits repr c norm H.
    apply get_state_info_64_inv in H.
    destruct H as [(_ & -> & _) | (_ & acc & nrm & Hscan & Hred & _)];
      [split; [lia | reflexivity] |].
    pose proof (reduce_minimum _ _ _ _ Hscan) as Hmin. rewrite Hred in Hmin.
    destruct Hmin as (Hle & _ & Hc). split; [exact Hle |].
    intros Hall. destruct Hc as [[Hb _] | [Hlt Hin]]; [exact Hb |].
    specialize (Hall _ Hin). cbn in Hall. lia.
  - intros basis_header basis_body bits repr c norm H.
    unfold get_state_info_512 in H. unfold big_orbit.
    destruct (has_symmetries basis_header); cbn [negb] in H;
      [| inversion H; subst; split; [lia | reflexivity]].
    destruct (get_flip_mask_512 (number_spins basis_header)) as [flip_mask | e |];
      try discriminate.
    cbn [bind] in H.
    pose proof (big_fold_minimum basis_header flip_mask
                  (double_of_Z (spin_inversion basis_header)) bits
                  (symmetries basis_body)) as Hmin.
    destruct (fold_left _ (symmetries basis_body) _) as [[r0 n0] e0].
    destruct (0 <=? snap n0)%float; cbn [negb] in H; [| discriminate].
    inversion H; subst. destruct Hmin as (Hle & _ & Hc). split; [exact Hle |].
    intros Hall. destruct Hc as [Hb | [Hlt Hin]]; [exact Hb |].
    specialize (Hall _ Hin). lia.
Qed.

(** ** IEEE binary64: facts read off the specification of the operations *)

Lemma digits2_pos_bounds (p : positive) :
  2 ^ (Z.pos (digits2_pos p) - 1) <= Z.pos p < 2 ^ Z.pos (digits2_pos p).
Proof.
  induction p as [p IH | p IH |]; cbn [digits2_pos].
  - rewrite Pos2Z.inj_succ.
    replace (Z.succ (Z.pos (digits2_pos p)) - 1) with (Z.succ (Z.pos (digits2_pos p) - 1)) by lia.
    rewrite !Z.pow_succ_r by lia. lia.
  - rewrite Pos2Z.inj_succ.
    replace (Z.succ (Z.pos (digits2_pos p)) - 1) with (Z.succ (Z.pos (digits2_pos p) - 1)) by lia.
    rewrite !Z.pow_succ_r by lia. lia.
  - cbn. lia.
Qed.

Lemma digits2_pos_lower (p : positive) (a : Z) :
  0 <= a -> 2 ^ a <= Z.pos p -> a + 1 <= Z.pos (digits2_pos p).
Proof.
  intros Ha H. destruct (digits2_pos_bounds p) as [_ Hu].
  destruct (Z_lt_le_dec (Z.pos (digits2_pos p)) (a + 1)) as [Hlt | Hge]; [| exact Hge].
  assert (2 ^ Z.pos (digits2_pos p) <= 2 ^ a) by (apply Z.pow_le_mono_r; lia). lia.
Qed.

Lemma digits2_pos_upper (p : positive) (b : Z) :
  Z.pos p < 2 ^ b -> Z.pos (digits2_pos p) <= b.
Proof.
  intros H. destruct (digits2_pos_bounds p) as [Hl _].
  destruct (Z_lt_le_dec b (Z.pos (digits2_pos p))) as [Hlt | Hge]; [| exact Hge].
  assert (2 ^ b <= 2 ^ (Z.pos (digits2_pos p) - 1)) by (apply Z.pow_le_mono_r; lia). lia.
Qed.

Lemma iter_pos_nat {A : Type} (f : A -> A) (p : positive) (x : A) :
  iter_pos f p x = Nat.iter (Pos.to_nat p) f x.
Proof.
  revert x; induction p as [p IH | p IH |]; intros x; cbn [iter_pos].
  - rewrite !IH, Pos2Nat.inj_xI. cbn [Nat.mul]. rewrite Nat.add_0_r.
    rewrite Nat.iter_succ_r, Nat.iter_add. reflexivity.
  - rewrite !IH, Pos2Nat.inj_xO. cbn [Nat.mul]. rewrite Nat.add_0_r, Nat.iter_add.
    reflexivity.
  - reflexivity.
Qed.

Lemma shr_1_mantissa (mrs : shr_record) :
  0 <= shr_m mrs -> shr_m (shr_1 mrs) = shr_m mrs / 2.
Proof.
  destruct mrs as [m r0 s0]. cbn [shr_m]. intros Hm.
  destruct m as [| p | p]; [reflexivity | | lia].
  destruct p as [p | p |]; cbn [shr_1 shr_m].
  - rewrite Pos2Z.inj_xI. apply Z.div_unique with (r := 1); lia.
  - rewrite Pos2Z.inj_xO. apply Z.div_unique with (r := 0); lia.
  - reflexivity.
Qed.

Lemma shr_iter_mantissa (k : nat) (mrs : shr_record) :
  0 <= shr_m mrs -> shr_m (Nat.iter k shr_1 mrs) = shr_m mrs / 2 ^ Z.of_nat k.
Proof.
  intros Hm. induction k as [| k IH].
  - cbn. rewrite Z.div_1_r. reflexivity.
  - rewrite Nat.iter_succ, shr_1_mantissa.
    + rewrite IH, Nat2Z.inj_succ, Z.pow_succ_r by lia.
      rewrite Z.div_div by lia. f_equal. lia.
    + rewrite IH. apply Z.div_pos; lia.
Qed.

(** A shift by [fexp] keeps a positive mantissa positive and the position of
    its leading bit when the number is above the smallest subnormal. *)
Lemma shr_fexp_positive (p : positive) (e : Z) (l : location) :
  emin < Z.pos (digits2_pos p) + e ->
  exists mrs e' q,
    shr_fexp prec emax (Z.pos p) e l = (mrs, e')
    /\ shr_m mrs = Z.pos q
    /\ Z.pos (digits2_pos q) + e' = Z.pos (digits2_pos p) + e.
Proof.
  intros HD. unfold shr_fexp, Zdigits2. set (D := Z.pos (digits2_pos p) + e) in *.
  assert (Hf : fexp prec emax D < D) by (unfold fexp, emin, prec, emax in *; lia).
  unfold shr. destruct (fexp prec emax D - e) as [| k | k] eqn:Hk.
  - exists (shr_record_of_loc (Z.pos p) l), e, p.
    split; [reflexivity |]. split; [destruct l as [| []]; reflexivity | reflexivity].
  - rewrite iter_pos_nat.
    set (mrs := Nat.iter _ _ _).
    assert (Hm : shr_m mrs = Z.pos p / 2 ^ Z.pos k).
    { unfold mrs. rewrite shr_iter_mantissa.
      - rewrite positive_nat_Z. destruct l as [| []]; reflexivity.
      - destruct l as [| []]; cbn; lia. }
    destruct (digits2_pos_bounds p) as [Hl Hu].
    set (d := Z.pos (digits2_pos p)) in *.
    assert (Hkd : Z.pos k < d) by (unfold D in *; lia).
    assert (Hq : 2 ^ (d - 1 - Z.pos k) <= Z.pos p / 2 ^ Z.pos k < 2 ^ (d - Z.pos k)).
    { split.
      - apply Z.div_le_lower_bound; [lia |].
        rewrite <- Z.pow_add_r by lia. replace (Z.pos k + (d - 1 - Z.pos k)) with (d - 1) by lia.
        exact Hl.
      - apply Z.div_lt_upper_bound; [lia |].
        rewrite <- Z.pow_add_r by lia. replace (Z.pos k + (d - Z.pos k)) with d by lia.
        exact Hu. }
    assert (Hpos : 0 < 2 ^ (d - 1 - Z.pos k)) by (apply Z.pow_pos_nonneg; lia).
    destruct (Z.pos p / 2 ^ Z.pos k) as [| q | q] eqn:Hdiv; try lia.
    exists mrs, (e + Z.pos k), q. split; [reflexivity |]. split; [exact Hm |].
    assert (d - Z.pos k <= Z.pos (digits2_pos q))
      by (pose proof (digits2_pos_lower q (d - 1 - Z.pos k) ltac:(lia) (proj1 Hq)); lia).
    assert (Z.pos (digits2_pos q) <= d - Z.pos k)
      by (apply digits2_pos_upper; exact (proj2 Hq)).
    unfold D. lia.
  - exists (shr_record_of_loc (Z.pos p) l), e, p.
    split; [reflexivity |]. split; [destruct l as [| []]; reflexivity | reflexivity].
Qed.

Lemma round_nearest_even_positive (q : positive) (l : location) :
  exists q', round_nearest_even (Z.pos q) l = Z.pos q'
             /\ Z.pos (digits2_pos q) <= Z.pos (digits2_pos q')
                <= Z.pos (digits2_pos q) + 1.
Proof.
  assert (Hsame : Z.pos (digits2_pos q) <= Z.pos (digits2_pos q)
                  <= Z.pos (digits2_pos q) + 1) by lia.
  assert (Hsucc : exists q', Z.pos q + 1 = Z.pos q'
                             /\ Z.pos (digits2_pos q) <= Z.pos (digits2_pos q')
                                <= Z.pos (digits2_pos q) + 1).
  { exists (q + 1)%positive. split; [lia |].
    destruct (digits2_pos_bounds q) as [Hl Hu]. split.
    - pose proof (digits2_pos_lower (q + 1) (Z.pos (digits2_pos q) - 1) ltac:(lia) ltac:(lia)).
      lia.
    - apply digits2_pos_upper. rewrite Z.pow_add_r by lia. lia. }
  unfold round_nearest_even. destruct l as [| [| |]].
  - exists q; auto.
  - destruct (Z.even (Z.pos q)); [exists q; auto | exact Hsucc].
  - exists q; auto.
  - exact Hsucc.
Qed.

(** Rounding a positive mantissa above the smallest subnormal yields a finite
    number of the same sign, or the infinity of that sign: never a zero. *)
Lemma binary_round_aux_positive (sx : bool) (p : positive) (e : Z) (l : location) :
  emin < Z.pos (digits2_pos p) + e ->
  exists m'' e'',
    Z.pos (digits2_pos p) + e <= Z.pos (digits2_pos m'') + e''
      <= Z.pos (digits2_pos p) + e + 1
    /\ binary_round_aux prec emax sx (Z.pos p) e l
       = if e'' <=? emax - prec then S754_finite sx m'' e'' else S754_infinity sx.
Proof.
  intros HD. unfold binary_round_aux.
  destruct (shr_fexp_positive p e l HD) as (mrs & e' & q & -> & Hq & HDq).
  rewrite Hq.
  destruct (round_nearest_even_positive q (loc_of_shr_record mrs)) as (q' & -> & Hq').
  destruct (shr_fexp_positive q' e' loc_Exact ltac:(lia)) as (mrs2 & e2 & q2 & -> & Hq2 & HDq2).
  rewrite Hq2. exists q2, e2. split; [lia | reflexivity].
Qed.

(** [static_cast<double>] of a 63-bit unsigned integer: zero, or a positive
    finite number below [2 ^ 64]. *)
Lemma digits2_pos_shift (p : positive) (t : positive) :
  Z.pos (digits2_pos (Pos.iter xO p t)) = Z.pos (digits2_pos p) + Z.pos t.
Proof.
  rewrite Pos2Nat.inj_iter, <- (positive_nat_Z t).
  generalize (Pos.to_nat t). intros k.
  induction k as [| k IH]; cbn [nat_rect digits2_pos]; [lia |].
  rewrite Pos2Z.inj_succ, IH. lia.
Qed.

Lemma of_uint63_shape (k : int) :
  Prim2SF (PrimFloat.of_uint63 k) = S754_zero false
  \/ exists m e, Prim2SF (PrimFloat.of_uint63 k) = S754_finite false m e
                 /\ 1 <= Z.pos (digits2_pos m) + e <= 64.
Proof.
  rewrite of_uint63_spec. pose proof (Uint63.to_Z_bounded k) as Hk.
  destruct (Uint63.to_Z k) as [| p | p]; [left; reflexivity | right | lia].
  cbn [binary_normalize]. unfold binary_round, shl_align.
  assert (Hd : 1 <= Z.pos (digits2_pos p) <= 63).
  { split; [lia |]. apply digits2_pos_upper. exact (proj2 Hk). }
  set (d := Z.pos (digits2_pos p)) in *.
  assert (Hf : fexp prec emax (d + 0) - 0 = d - 53)
    by (unfold fexp, emin, prec, emax; lia).
  rewrite Hf.
  assert (Hshape : forall mz ez,
             Z.pos (digits2_pos mz) + ez = d ->
             exists m e, binary_round_aux prec emax false (Z.pos mz) ez loc_Exact
                         = S754_finite false m e
                         /\ 1 <= Z.pos (digits2_pos m) + e <= 64).
  { intros mz ez HD.
    destruct (binary_round_aux_positive false mz ez loc_Exact) as (m & e & Hb & ->).
    - unfold emin, prec, emax; lia.
    - exists m, e.
      assert (e <= 63) by lia.
      replace (e <=? emax - prec) with true
        by (symmetry; apply Z.leb_le; unfold emax, prec; lia).
      split; [reflexivity | lia]. }
  destruct (d - 53) as [| t | t] eqn:Ht.
  - apply Hshape. fold d. lia.
  - apply Hshape. fold d. lia.
  - apply Hshape. rewrite digits2_pos_shift. fold d.
    replace (fexp prec emax (d + 0)) with (d - 53) by (unfold fexp, emin, prec, emax; lia).
    lia.
Qed.


Lemma SFpositive_ltb (s : spec_float) :
  SFpositive s = true -> SFltb (S754_zero false) s = true.
Proof. destruct s as [| [] | | [] m e]; try discriminate; reflexivity. Qed.

(** The quotient of two positive finite numbers is positive unless it
    underflows: here the leading bit of the quotient stays above the smallest
    normal number. *)
Lemma SFdiv_positive (mn : positive) (en : Z) (mg : positive) (eg : Z) :
  emin + prec <= Z.pos (digits2_pos mn) + en - (Z.pos (digits2_pos mg) + eg) ->
  SFpositive (SFdiv prec emax (S754_finite false mn en) (S754_finite false mg eg)) = true.
Proof.
  intros HD. cbn [SFdiv xorb]. unfold SFdiv_core_binary, Zdigits2.
  set (dn := Z.pos (digits2_pos mn)) in *. set (dg := Z.pos (digits2_pos mg)) in *.
  assert (Hf : fexp prec emax (dn + en - (dg + eg)) = dn + en - (dg + eg) - prec)
    by (unfold fexp, emin, prec, emax in *; lia).
  rewrite Hf.
  set (e' := Z.min (dn + en - (dg + eg) - prec) (en - eg)).
  set (s := en - eg - e').
  assert (Hs : prec - dn + dg <= s) by (unfold s, e'; lia).
  assert (Hs0 : 0 <= s) by (unfold s, e'; lia).
  set (m' := match s with
             | 0 => Z.pos mn
             | Z.pos _ => Z.shiftl (Z.pos mn) s
             | Z.neg _ => 0
             end).
  assert (Hm' : m' = Z.pos mn * 2 ^ s).
  { unfold m'. destruct s as [| sp | sp]; [lia | | lia].
    apply Z.shiftl_mul_pow2; lia. }
  clearbody m'. subst m'.
  destruct (Z.div_eucl (Z.pos mn * 2 ^ s) (Z.pos mg)) as [q r] eqn:Hqr.
  assert (Hq : q = Z.pos mn * 2 ^ s / Z.pos mg) by (unfold Z.div; rewrite Hqr; reflexivity).
  destruct (digits2_pos_bounds mn) as [Hnl _]. destruct (digits2_pos_bounds mg) as [_ Hgu].
  fold dn in Hnl. fold dg in Hgu.
  assert (Hlow : 2 ^ (dn + s - 1 - dg) <= q).
  { rewrite Hq. apply Z.div_le_lower_bound; [lia |].
    apply Z.le_trans with (2 ^ dg * 2 ^ (dn + s - 1 - dg)).
    - apply Z.mul_le_mono_nonneg_r; [apply Z.pow_nonneg; lia | lia].
    - rewrite <- Z.pow_add_r by (unfold prec in *; lia).
      replace (dg + (dn + s - 1 - dg)) with (dn - 1 + s) by lia.
      rewrite Z.pow_add_r by lia.
      apply Z.mul_le_mono_nonneg_r; [apply Z.pow_nonneg; lia | exact Hnl]. }
  assert (Hpos : 0 < 2 ^ (dn + s - 1 - dg))
    by (apply Z.pow_pos_nonneg; unfold prec in *; lia).
  destruct q as [| qp | qp]; try lia.
  pose proof (digits2_pos_lower qp (dn + s - 1 - dg) ltac:(unfold prec in *; lia) Hlow) as Hdq.
  destruct (binary_round_aux_positive false qp e' (new_location (Z.pos mg) r))
    as (m & e & _ & ->).
  - unfold s in *. unfold emin, prec, emax in *. lia.
  - destruct (e <=? emax - prec); reflexivity.
Qed.

(** The square root of a positive number is positive. *)
Lemma SFsqrt_positive (s : spec_float) :
  valid_binary s = true -> SFpositive s = true ->
  SFpositive (SFsqrt prec emax s) = true.
Proof.
  destruct s as [| [] | | [] m e]; try discriminate; [reflexivity |].
  intros Hv _. cbn [SFsqrt]. unfold SFsqrt_core_binary, Zdigits2.
  unfold valid_binary, bounded, canonical_mantissa in Hv.
  apply andb_true_iff in Hv. destruct Hv as [Hc _]. apply Z.eqb_eq in Hc.
  assert (He : emin <= e) by (unfold fexp in Hc; lia).
  set (d := Z.pos (digits2_pos m)) in *.
  set (e' := Z.min (fexp prec emax (Z.div2 (d + e + 1))) (Z.div2 e)).
  assert (He' : emin <= e' /\ 2 * e' <= e).
  { unfold e'. rewrite Z.div2_div. unfold fexp, emin, prec, emax in *.
    pose proof (Z.div_mod e 2 ltac:(lia)). pose proof (Z.mod_pos_bound e 2 ltac:(lia)).
    lia. }
  set (sh := e - 2 * e').
  set (m' := match sh with
             | 0 => Z.pos m
             | Z.pos _ => Z.shiftl (Z.pos m) sh
             | Z.neg _ => 0
             end).
  assert (Hm' : 1 <= m').
  { unfold m'. destruct sh as [| sp | sp] eqn:Es; [lia | | lia].
    rewrite Z.shiftl_mul_pow2 by lia.
    assert (0 < 2 ^ Z.pos sp) by (apply Z.pow_pos_nonneg; lia). nia. }
  pose proof (Z.sqrtrem_spec m' ltac:(lia)) as Hspec.
  destruct (Z.sqrtrem m') as [q r].
  assert (Hq : 1 <= q) by nia.
  destruct q as [| qp | qp]; try lia.
  match goal with
  | |- context [binary_round_aux prec emax false (Z.pos qp) e' ?l] =>
      destruct (binary_round_aux_positive false qp e' l) as (m2 & e2 & _ & ->)
  end.
  - unfold emin, prec, emax in *. lia.
  - destruct (e2 <=? emax - prec); reflexivity.
Qed.

(** *** The operations on [float] *)

Lemma SFmul_comm (x y : spec_float) : SFmul prec emax x y = SFmul prec emax y x.
Proof.
  destruct x as [sx | sx | | sx mx ex], y as [sy | sy | | sy my ey]; simpl;
    try reflexivity; try (rewrite xorb_comm; reflexivity).
  rewrite xorb_comm, Pos.mul_comm, Z.add_comm. reflexivity.
Qed.

Lemma float_mul_comm (x y : float) : (x * y)%float = (y * x)%float.
Proof. apply Prim2SF_inj. rewrite !FloatAxioms.mul_spec. apply SFmul_comm. Qed.

Lemma SFmul_1_r (s : spec_float) :
  valid_binary s = true ->
  SFmul prec emax s (S754_finite false 4503599627370496 (-52)) = s.
Proof.
  destruct s as [sx | sx | | sx mx ex]; intros Hv; simpl;
    try (rewrite xorb_false_r; reflexivity); try reflexivity.
  unfold valid_binary, bounded, canonical_mantissa in Hv.
  apply andb_true_iff in Hv. destruct Hv as [Hc He].
  apply Z.eqb_eq in Hc.
  rewrite xorb_false_r.
  repeat rewrite Pos.mul_xO_r. rewrite Pos.mul_1_r.
  unfold binary_round_aux, shr_fexp, Zdigits2.
  cbn [digits2_pos]. repeat rewrite Pos2Z.inj_succ.
  match goal with |- context [fexp prec emax ?e] =>
    replace e with (Z.pos (digits2_pos mx) + ex) by lia end.
  rewrite Hc.
  replace (ex - (ex + -52)) with 52 by lia.
  cbn [shr shr_record_of_loc iter_pos shr_1 orb shr_m loc_of_shr_record round_nearest_even].
  replace (ex + -52 + 52) with ex by lia.
  rewrite Hc, Z.sub_diag. cbn [shr shr_m].
  rewrite He. reflexivity.
Qed.

(** Multiplying by [1.0] changes nothing. *)
Lemma float_mul_1_r (x : float) : (x * 1)%float = x.
Proof.
  apply Prim2SF_inj. rewrite FloatAxioms.mul_spec.
  change (Prim2SF 1%float) with (S754_finite false 4503599627370496 (-52)).
  apply SFmul_1_r, Prim2SF_valid.
Qed.

Lemma float_mul_1_l (x : float) : (1 * x)%float = x.
Proof. rewrite float_mul_comm. apply float_mul_1_r. Qed.

Lemma binary_round_aux_not_negative (m e : Z) (l : location) (s : bool) :
  SFltb (binary_round_aux prec emax false m e l) (S754_zero s) = false.
Proof.
  unfold binary_round_aux.
  destruct (shr_fexp prec emax m e l) as [mrs' e'].
  destruct (shr_fexp prec emax _ e' loc_Exact) as [mrs'' e''].
  destruct (shr_m mrs'') as [| p | p]; [reflexivity | | reflexivity].
  destruct (e'' <=? emax - prec); reflexivity.
Qed.

(** A square root is never negative. *)
Lemma float_sqrt_not_negative (x : float) : (PrimFloat.sqrt x <? 0)%float = false.
Proof.
  rewrite FloatAxioms.ltb_spec, FloatAxioms.sqrt_spec. change (Prim2SF 0%float) with (S754_zero false).
  unfold SF64sqrt.
  destruct (Prim2SF x) as [[] | [] | | [] m e]; try reflexivity.
  cbn [SFsqrt]. destruct (SFsqrt_core_binary prec emax (Z.pos m) e) as [[mz ez] lz].
  apply binary_round_aux_not_negative.
Qed.

(** Above the threshold [1e-5]: positive infinity, or a positive finite number
    whose exponent is at least that of the threshold. *)
Lemma above_threshold_shape (n : float) :
  (0x1.4f8b588e368f1p-17 <? n)%float = true ->
  Prim2SF n = S754_infinity false
  \/ exists m e, Prim2SF n = S754_finite false m e /\ -69 <= e.
Proof.
  rewrite FloatAxioms.ltb_spec.
  change (Prim2SF 0x1.4f8b588e368f1p-17%float)
    with (S754_finite false 5902958103587057 (-69)).
  destruct (Prim2SF n) as [[] | [] | | [] m e]; try discriminate.
  - left; reflexivity.
  - unfold SFltb, SFcompare.
    intros H. right. exists m, e. split; [reflexivity |].
    destruct (Z.compare_spec (-69) e); first [lia | discriminate].
Qed.

(** The norm of a sum above the threshold is positive, whatever the size of
    the group. *)
Lemma float_norm_positive (n : float) (k : int) :
  (0x1.4f8b588e368f1p-17 <? n)%float = true ->
  (0 <? PrimFloat.sqrt (n / PrimFloat.of_uint63 k))%float = true.
Proof.
  intros Hn. rewrite FloatAxioms.ltb_spec, FloatAxioms.sqrt_spec, FloatAxioms.div_spec.
  change (Prim2SF 0%float) with (S754_zero false).
  unfold SF64sqrt. rewrite <- FloatAxioms.div_spec.
  apply SFpositive_ltb, SFsqrt_positive; [apply Prim2SF_valid |].
  rewrite FloatAxioms.div_spec. unfold SF64div.
  destruct (above_threshold_shape n Hn) as [-> | (m & e & -> & He)];
    destruct (of_uint63_shape k) as [-> | (mg & eg & -> & Hg)]; try reflexivity.
  apply SFdiv_positive. unfold emin, prec, emax. lia.
Qed.

(** The norm of a zero sum is not positive, whatever the divisor. *)
Lemma float_norm_of_zero (n g : float) :
  (0 <=? n)%float = true -> (0 <? n)%float = false ->
  (0 <? PrimFloat.sqrt (n / g))%float = false.
Proof.
  rewrite FloatAxioms.leb_spec, !FloatAxioms.ltb_spec, FloatAxioms.sqrt_spec, FloatAxioms.div_spec.
  change (Prim2SF 0%float) with (S754_zero false). unfold SF64sqrt, SF64div.
  destruct (Prim2SF n) as [sn | [] | | [] m e]; try discriminate.
  intros _ _. destruct (Prim2SF g) as [sg | sg | | sg mg eg]; try reflexivity;
    destruct sn, sg; reflexivity.
Qed.

(** *** The noise guard *)

Lemma SFcompare_flip_positive (m : positive) (e : Z) (m0 : positive) (e0 : Z) :
  SFleb (S754_finite false m e) (S754_finite false m0 e0) = false ->
  SFltb (S754_finite false m0 e0) (S754_finite false m e) = true.
Proof.
  unfold SFleb, SFltb, SFcompare.
  rewrite (Z.compare_antisym e e0).
  destruct (Z.compare_spec e e0); cbn [CompOpp]; try discriminate; try reflexivity.
  rewrite !Pos.compare_cont_spec. cbn [Pos.switch_Eq].
  rewrite (Pos.compare_antisym m m0).
  destruct (Pos.compare_spec m m0); cbn [CompOpp]; try discriminate; reflexivity.
Qed.

(** A guarded sum that is positive is above the threshold. *)
Lemma snap_positive (x : float) :
  (0 <? snap x)%float = true -> (norm_threshold <? snap x)%float = true.
Proof.
  unfold snap. destruct (PrimFloat.abs x <=? norm_threshold)%float eqn:E.
  - intros H. exfalso. revert H. vm_compute. discriminate.
  - revert E. rewrite FloatAxioms.leb_spec, !FloatAxioms.ltb_spec, abs_spec.
    change (Prim2SF norm_threshold) with (S754_finite false 5902958103587057 (-69)).
    change (Prim2SF 0%float) with (S754_zero false).
    destruct (Prim2SF x) as [[] | [] | | [] m e]; try discriminate; try reflexivity.
    cbn [SFabs]. intros E _. apply SFcompare_flip_positive. exact E.
Qed.

(** ** [is_representative] against [get_state_info] *)

Lemma horizontal_or_false (m : Vec8 bool) :
  horizontal_or m = false -> forall i, (i < 8)%nat -> m i = false.
Proof.
  unfold horizontal_or. intros H i Hi.
  repeat (apply orb_false_iff in H; destruct H as [H ?]).
  do 8 (destruct i as [| i]; [assumption |]). lia.
Qed.

Lemma horizontal_or_true (m : Vec8 bool) :
  horizontal_or m = true -> exists i, (i < 8)%nat /\ m i = true.
Proof.
  unfold horizontal_or. intros H.
  repeat (apply orb_true_iff in H; destruct H as [H | H]);
    eexists; (split; [| exact H]); lia.
Qed.

Section FastPath.

Variable bits : Z.

Lemma update_keeps_smaller (full : batch_acc_64_arch_t) (x : Vec8 Z)
    (real imag : Vec8 float) :
  fast_path_agrees bits None full ->
  fast_path_agrees bits None (update full x real imag).
Proof.
  intros (i & Hi & Hlt). exists i. split; [exact Hi |].
  cbn. unfold select, vlt. destruct (Z.ltb_spec (x i) (r full i)); lia.
Qed.

Lemma update_first_few_keeps_smaller (full full' : batch_acc_64_arch_t) (x : Vec8 Z)
    (real imag : Vec8 float) (count : Z) :
  update_first_few full x real imag count = Ok full' ->
  fast_path_agrees bits None full ->
  fast_path_agrees bits None full'.
Proof.
  unfold update_first_few. destruct (count <? 8); cbn [negb]; [| discriminate].
  intros H (i & Hi & Hlt). inversion H; subst full'. exists i. split; [exact Hi |].
  cbn. unfold select, vand, vlt.
  destruct (Z.ltb_spec (x i) (r full i)); destruct (include_lanes count i); cbn; lia.
Qed.

(** One update of the two accumulators with the same images and the same
    real parts in the eight lanes. *)
Lemma update_agrees (fast full : batch_acc_64_arch_t) (x x' : Vec8 Z)
    (real real' imag : Vec8 float) :
  (forall i, (i < 8)%nat -> x i = x' i /\ real i = real' i) ->
  fast_path_agrees bits (Some fast) full ->
  fast_path_agrees bits (update_norm_only fast x real) (update full x' real' imag).
Proof.
  intros Hsame H. unfold update_norm_only.
  destruct (horizontal_or (vlt x (r fast))) eqn:Hor.
  - apply horizontal_or_true in Hor. destruct Hor as (i & Hi & Hlt).
    exists i. split; [exact Hi |]. destruct (H i Hi) as (_ & _ & Hr & Hr' & _).
    destruct (Hsame i Hi) as [Hx _].
    unfold vlt in Hlt. rewrite Hr, Hx in Hlt.
    cbn. unfold select, vlt. rewrite Hr', Hlt. apply Z.ltb_lt; exact Hlt.
  - intros i Hi. destruct (H i Hi) as (Ho & Ho' & Hr & Hr' & Hn).
    destruct (Hsame i Hi) as [Hx Hreal].
    pose proof (horizontal_or_false _ Hor i Hi) as Hge. unfold vlt in Hge.
    cbn. unfold select, if_add, veq, vlt.
    rewrite Ho, Ho', Hr', Hn, <- Hx, Hreal. rewrite Hr in Hge. rewrite Hge. auto.
Qed.

Lemma update_first_few_agrees (fast full : batch_acc_64_arch_t) (x x' : Vec8 Z)
    (real real' imag : Vec8 float) (count : Z) :
  count < 8 ->
  (forall i, (i < 8)%nat -> x i = x' i /\ real i = real' i) ->
  fast_path_agrees bits (Some fast) full ->
  exists full',
    update_first_few full x' real' imag count = Ok full'
    /\ fast_path_agrees bits (update_first_few_norm_only fast x real count) full'.
Proof.
  intros Hc Hsame H. unfold update_first_few, update_first_few_norm_only.
  replace (count <? 8) with true by (symmetry; apply Z.ltb_lt; exact Hc). cbn [negb].
  eexists; split; [reflexivity |].
  destruct (horizontal_or (vand (vlt x (r fast)) (include_lanes count))) eqn:Hor.
  - apply horizontal_or_true in Hor. destruct Hor as (i & Hi & Hlt).
    exists i. split; [exact Hi |]. destruct (H i Hi) as (_ & _ & Hr & Hr' & _).
    destruct (Hsame i Hi) as [Hx _].
    unfold vand, vlt in Hlt. rewrite Hr, Hx in Hlt.
    apply andb_true_iff in Hlt. destruct Hlt as [Hlt Hinc].
    cbn. unfold select, vand, vlt. rewrite Hr', Hlt, Hinc. cbn.
    apply Z.ltb_lt; exact Hlt.
  - intros i Hi. destruct (H i Hi) as (Ho & Ho' & Hr & Hr' & Hn).
    destruct (Hsame i Hi) as [Hx Hreal].
    pose proof (horizontal_or_false _ Hor i Hi) as Hge. unfold vand, vlt in Hge.
    cbn. unfold select, if_add, veq, vand, vlt.
    rewrite Ho, Ho', Hr', Hn, <- Hx, Hreal. rewrite Hr in Hge. rewrite Hge. auto.
Qed.

End FastPath.

(** With [spin_inversion = 1] the coefficient is [1.0]: the product that the
    fast path and the 512-bit path compute is the eigenvalue itself. *)
Lemma flipped_real_part (basis_header : basis_base_t) (re : float) :
  (if negb (spin_inversion basis_header =? 1)
   then (re * flip_coeff_of basis_header)%float else re)
  = (re * flip_coeff_of basis_header)%float.
Proof.
  destruct (Z.eqb_spec (spin_inversion basis_header) 1) as [E | E]; [| reflexivity].
  cbn [negb]. unfold flip_coeff_of. rewrite E.
  change (double_of_Z 1) with 1%float. symmetry. apply float_mul_1_r.
Qed.

Lemma batch_step_agrees (basis_header : basis_base_t) (bits m : Z)
    (s : batched_small_symmetry_t) (fast : option batch_acc_64_arch_t)
    (full : batch_acc_64_arch_t) :
  fast_path_agrees bits fast full ->
  fast_path_agrees bits
    (batch_step_norm_only basis_header (broadcast m)
       (broadcast (flip_coeff_of basis_header)) fast s)
    (batch_step basis_header (broadcast m) (broadcast (flip_coeff_of basis_header)) full s).
Proof.
  intros H. unfold batch_step_norm_only, batch_step.
  destruct fast as [fast |].
  - assert (Hx : forall i, (i < 8)%nat ->
               benes_forward_arch s (original fast) i = benes_forward_arch s (original full) i
               /\ eigenvalues_real s i = eigenvalues_real s i).
    { intros i Hi. destruct (H i Hi) as (Ho & Ho' & _).
      unfold benes_forward_arch. rewrite Ho, Ho'. auto. }
    pose proof (update_agrees bits fast full _ _ _ _ (eigenvalues_imag s) Hx H) as H1.
    destruct (update_norm_only fast _ _) as [fast1 |].
    + destruct (spin_inversion basis_header =? 0); cbn [negb]; [exact H1 |].
      apply update_agrees; [| exact H1].
      intros i Hi. destruct (Hx i Hi) as [Hxi _]. split.
      * unfold vxor. rewrite Hxi. reflexivity.
      * unfold vmul, broadcast.
        destruct (negb (spin_inversion basis_header =? 1)) eqn:E; [reflexivity |].
        rewrite <- (flipped_real_part basis_header (eigenvalues_real s i)), E. reflexivity.
    + destruct (spin_inversion basis_header =? 0); cbn [negb]; [exact H1 |].
      apply update_keeps_smaller. exact H1.
  - destruct (spin_inversion basis_header =? 0); cbn [negb];
      repeat apply update_keeps_smaller; exact H.
Qed.

Lemma fold_batches_agree (basis_header : basis_base_t) (bits m : Z)
    (l : list batched_small_symmetry_t) (fast : option batch_acc_64_arch_t)
    (full : batch_acc_64_arch_t) :
  fast_path_agrees bits fast full ->
  fast_path_agrees bits
    (fold_left (batch_step_norm_only basis_header (broadcast m)
                  (broadcast (flip_coeff_of basis_header))) l fast)
    (fold_left (batch_step basis_header (broadcast m)
                  (broadcast (flip_coeff_of basis_header))) l full).
Proof.
  revert fast full; induction l as [| s l IH]; intros fast full H; [exact H |].
  cbn [fold_left]. apply IH, batch_step_agrees, H.
Qed.

Lemma other_step_agrees (basis_header : basis_base_t) (bits m count : Z)
    (s : batched_small_symmetry_t) (fast full : batch_acc_64_arch_t) :
  count < 8 ->
  fast_path_agrees bits (Some fast) full ->
  exists full',
    other_step basis_header (broadcast m) (broadcast (flip_coeff_of basis_header))
      count full s = Ok full'
    /\ fast_path_agrees bits
         (other_step_norm_only basis_header (broadcast m)
            (broadcast (flip_coeff_of basis_header)) count fast s)
         full'.
Proof.
  intros Hc H. unfold other_step_norm_only, other_step.
  assert (Hx : forall i, (i < 8)%nat ->
             benes_forward_arch s (original fast) i = benes_forward_arch s (original full) i
             /\ eigenvalues_real s i = eigenvalues_real s i).
  { intros i Hi. destruct (H i Hi) as (Ho & Ho' & _).
    unfold benes_forward_arch. rewrite Ho, Ho'. auto. }
  destruct (update_first_few_agrees bits fast full _ _ _ _ (eigenvalues_imag s) count
              Hc Hx H) as (full1 & -> & H1).
  cbn [bind].
  destruct (update_first_few_norm_only fast _ _ count) as [fast1 |].
  - destruct (spin_inversion basis_header =? 0); cbn [negb];
      [exists full1; split; [reflexivity | exact H1] |].
    apply update_first_few_agrees; [exact Hc | | exact H1].
    intros i Hi. destruct (Hx i Hi) as [Hxi _]. split.
    + unfold vxor. rewrite Hxi. reflexivity.
    + unfold vmul, broadcast.
      destruct (negb (spin_inversion basis_header =? 1)) eqn:E; [reflexivity |].
      rewrite <- (flipped_real_part basis_header (eigenvalues_real s i)), E. reflexivity.
  - destruct (spin_inversion basis_header =? 0); cbn [negb];
      [exists full1; split; [reflexivity | exact H1] |].
    unfold update_first_few.
    replace (count <? 8) with true by (symmetry; apply Z.ltb_lt; exact Hc). cbn [negb].
    eexists; split; [reflexivity |].
    eapply update_first_few_keeps_smaller; [| exact H1].
    unfold update_first_few.
    replace (count <? 8) with true by (symmetry; apply Z.ltb_lt; exact Hc). reflexivity.
Qed.

Lemma other_step_keeps_smaller (basis_header : basis_base_t) (bits : Z)
    (flip_mask : Vec8 Z) (flip_coeff : Vec8 float) (count : Z)
    (s : batched_small_symmetry_t) (full full' : batch_acc_64_arch_t) :
  other_step basis_header flip_mask flip_coeff count full s = Ok full' ->
  fast_path_agrees bits None full -> fast_path_agrees bits None full'.
Proof.
  unfold other_step. intros H Hs. bind_inv H.
  pose proof (update_first_few_keeps_smaller bits _ _ _ _ _ _ Hv Hs) as H1.
  destruct (spin_inversion basis_header =? 0); cbn [negb] in H.
  - inversion H; subst; exact H1.
  - exact (update_first_few_keeps_smaller bits _ _ _ _ _ _ H H1).
Qed.

(** The two scans succeed together, and their accumulators agree. *)
Lemma scans_agree (basis_header : basis_base_t) (basis_body : small_basis_t) (bits : Z) :
  number_other_symmetries basis_body < 8 ->
  (forall scanned, fast_scan basis_header basis_body bits = Ok scanned ->
     exists full, small_scan basis_header basis_body bits = Ok full
                  /\ fast_path_agrees bits scanned full)
  /\ (forall full, small_scan basis_header basis_body bits = Ok full ->
        exists scanned, fast_scan basis_header basis_body bits = Ok scanned).
Proof.
  intros Hc. unfold fast_scan, small_scan.
  destruct (get_flip_mask_64 (number_spins basis_header)) as [m | e |]; cbn [bind];
    [| split; intros ? H; discriminate | split; intros ? H; discriminate].
  fold (flip_coeff_of basis_header).
  assert (H0 : fast_path_agrees bits (Some (batch_acc_init bits)) (batch_acc_init bits))
    by (intros i _; cbn; auto).
  pose proof (fold_batches_agree basis_header bits m (batched_symmetries basis_body)
                _ _ H0) as Hf.
  set (full0 := fold_left (batch_step _ _ _) _ _) in *.
  destruct (fold_left (batch_step_norm_only _ _ _) _ _) as [fast |].
  - destruct (other_symmetries basis_body) as [s |].
    + destruct (other_step_agrees basis_header bits m _ s fast full0 Hc Hf)
        as (full' & Hstep & Hagree).
      split.
      * intros scanned H. inversion H; subst scanned. exists full'. auto.
      * intros full _. eexists; reflexivity.
    + split.
      * intros scanned H. inversion H; subst scanned. exists full0. auto.
      * intros full _. eexists; reflexivity.
  - split; [| intros full _; eexists; reflexivity].
    intros scanned H. inversion H; subst scanned.
    destruct (other_symmetries basis_body) as [s |]; [| exists full0; auto].
    destruct (other_step_lane basis_header m (flip_coeff_of basis_header) bits full0 s _ Hc)
      as (full' & Hstep & _).
    exists full'. split; [exact Hstep |].
    eapply other_step_keeps_smaller; eassumption.
Qed.

Lemma double_of_group_size (z : Z) : double_of_Z (u64 z) = PrimFloat.of_uint63 (Uint63.of_Z (u64 z)).
Proof.
  unfold double_of_Z.
  replace (u64 z <? 0) with false; [reflexivity |].
  symmetry. apply Z.ltb_ge. unfold u64. apply Z.mod_pos_bound. lia.
Qed.

(** C4. [is_representative] returns [true] exactly when [get_state_info]
    returns the input itself as the representative together with a norm that
    is strictly positive, although it stops at the first smaller image. *)
Theorem is_representative_iff (basis_header : basis_base_t) (basis_body : small_basis_t)
    (bits : Z) :
  number_other_symmetries basis_body < 8 ->
  is_representative basis_header basis_body bits = Ok true
  <-> exists c norm,
        get_state_info_64 basis_header basis_body bits = Ok (bits, c, norm)
        /\ (0 <? norm)%float = true.
Proof.
  intros Hc. destruct (scans_agree basis_header basis_body bits Hc) as [Hfast Hfull].
  unfold is_representative, get_state_info_64.
  destruct (has_symmetries basis_header); cbn [negb];
    [| split; [intros _; exists (1%float, 0%float), 1%float; split; reflexivity
              | reflexivity]].
  destruct (fast_scan basis_header basis_body bits) as [scanned | e |] eqn:Hscan.
  - destruct (Hfast scanned eq_refl) as (full & Hs & Hagree). rewrite Hs. cbn [bind].
    pose proof (reduce_spec full) as Hr.
    destruct (reduce full) as [[repr c] nrm]. destruct Hr as (Hn & j & Hj & _ & Hj8 & Hmin).
    destruct scanned as [acc |].
    + (* no smaller image: the two sums are the same *)
      assert (Hrepr : repr = bits) by (rewrite Hj; apply (Hagree j Hj8)).
      assert (Hsum : reduce_norm_only acc = nrm).
      { rewrite Hn. unfold reduce_norm_only, horizontal_add.
        rewrite !(fun i Hi => proj2 (proj2 (proj2 (proj2 (Hagree i Hi))))) by lia.
        reflexivity. }
      rewrite Hsum, Hrepr.
      destruct (0 <=? snap nrm)%float eqn:Hge; cbn [negb];
        [| split; [discriminate | intros (? & ? & H & _); discriminate]].
      unfold small_group_size. rewrite double_of_group_size.
      destruct (0 <? snap nrm)%float eqn:Hgt.
      * split; [intros _ | reflexivity].
        eexists; eexists; split; [reflexivity |].
        apply float_norm_positive. apply snap_positive. exact Hgt.
      * split; [discriminate |]. intros (c' & norm & H & Hpos).
        inversion H; subst. rewrite float_norm_of_zero in Hpos by assumption.
        discriminate.
    + (* a smaller image: the representative is below the input *)
      destruct Hagree as (i & Hi & Hlt). specialize (Hmin i Hi).
      split; [discriminate |]. intros (c' & norm & H & _).
      destruct (0 <=? snap nrm)%float; cbn [negb] in H; [| discriminate].
      inversion H; subst. lia.
  - split; [discriminate |]. intros (c & norm & H & _).
    destruct (small_scan basis_header basis_body bits) as [full | e' |] eqn:Hs;
      try discriminate.
    destruct (Hfull full eq_refl) as (scanned & Hs'). discriminate.
  - split; [discriminate |]. intros (c & norm & H & _).
    destruct (small_scan basis_header basis_body bits) as [full | e' |] eqn:Hs;
      try discriminate.
    destruct (Hfull full eq_refl) as (scanned & Hs'). discriminate.
Qed.

(** ** The 64-bit path against the 512-bit path *)



















(** ** The identity shortcut and the identity group *)

Lemma get_flip_mask_64_defined (n : Z) :
  0 <= n <= 64 -> exists m, get_flip_mask_64 n = Ok m.
Proof.
  intros Hn. unfold get_flip_mask_64.
  destruct (n =? 0); [eexists; reflexivity |].
  replace (n <=? 64) with true by (symmetry; apply Z.leb_le; lia).
  eexists; reflexivity.
Qed.

Lemma flip_words_defined (k : nat) (n : Z) :
  0 <= n <= 64 * Z.of_nat k -> exists ws, flip_words k n = Ok ws.
Proof.
  revert n; induction k as [| k IH]; intros n Hn; cbn [flip_words].
  - replace (n =? 0) with true by (symmetry; apply Z.eqb_eq; lia). eexists; reflexivity.
  - destruct (Z.leb_spec 64 n) as [Hge | Hlt].
    + destruct (IH (n - 64) ltac:(lia)) as [ws ->]. eexists; reflexivity.
    + destruct (Z.eqb_spec n 0) as [-> | Hn0]; cbn [negb]; [eexists; reflexivity |].
      destruct (get_flip_mask_64_defined n ltac:(lia)) as [w ->]. eexists; reflexivity.
Qed.

(** C7 (amended). With [has_symmetries] false [get_state_info] returns the
    input, the character [(1, 0)] and the norm [1], on 64 and on 512 bits; it
    returns the same triple for the group that consists of the identity alone
    when spin inversion is off. *)
Theorem identity_state_info :
  (forall basis_header basis_body bits,
      has_symmetries basis_header = false ->
      get_state_info_64 basis_header basis_body bits
      = Ok (bits, (1%float, 0%float), 1%float))
  /\ (forall basis_header basis_body bits,
         has_symmetries basis_header = false ->
         get_state_info_512 basis_header basis_body bits
         = Ok (bits, (1%float, 0%float), 1%float))
  /\ (forall basis_header symmetry bits,
         has_symmetries basis_header = true ->
         spin_inversion basis_header = 0 ->
         0 <= number_spins basis_header <= 64 ->
         lane_network symmetry 0%nat bits = bits ->
         eigenvalues_real symmetry 0%nat = 1%float ->
         eigenvalues_imag symmetry 0%nat = 0%float ->
         get_state_info_64 basis_header
           {| batched_symmetries := [];
              other_symmetries := Some symmetry;
              number_other_symmetries := 1 |} bits
         = Ok (bits, (1%float, 0%float), 1%float))
  /\ (forall basis_header symmetry bits,
         has_symmetries basis_header = true ->
         spin_inversion basis_header = 0 ->
         0 <= number_spins basis_header <= 512 ->
         big_network symmetry bits = bits ->
         big_eigenvalue symmetry = (1%float, 0%float) ->
         get_state_info_512 basis_header {| symmetries := [symmetry] |} bits
         = Ok (bits, (1%float, 0%float), 1%float)).
Proof.
  split; [| split; [| split]].
  - intros basis_header basis_body bits H. unfold get_state_info_64. rewrite H. reflexivity.
  - intros basis_header basis_body bits H. unfold get_state_info_512. rewrite H. reflexivity.
  - intros basis_header symmetry bits Hsym Hspin Hn Hid Hre Him.
    unfold get_state_info_64, small_scan, small_group_size. rewrite Hsym. cbn [negb].
    destruct (get_flip_mask_64_defined _ Hn) as [m ->]. cbn [bind].
    cbn [batched_symmetries other_symmetries number_other_symmetries fold_left length].
    unfold other_step, update_first_few. rewrite Hspin.
    cbn [Z.eqb Z.ltb Z.compare Pos.compare Pos.compare_cont negb bind].
    unfold reduce, reduce_norm_only, horizontal_add, select, if_add, vand, vlt, veq,
      include_lanes, get_low, get_high, benes_forward_arch, batch_acc_init, broadcast.
    cbn [original r n e_re e_im Nat.add Z.of_nat Pos.of_succ_nat Pos.succ
         Z.ltb Z.compare Pos.compare Pos.compare_cont].
    rewrite Hid, Hre, !andb_false_r, !Z.ltb_irrefl, Z.eqb_refl.
    reflexivity.
  - intros basis_header symmetry bits Hsym Hspin Hn Hid He.
    unfold get_state_info_512, get_flip_mask_512, big_group_size. rewrite Hsym. cbn [negb].
    destruct (flip_words_defined 8 (number_spins basis_header) ltac:(lia)) as [ws ->].
    cbn [bind symmetries fold_left length]. unfold big_step. rewrite Hspin, Hid, He.
    unfold bits512_ltb, bits512_eqb. rewrite Z.ltb_irrefl, list_eqb_refl.
    reflexivity.
Qed.

(** Counterexample to C7 as stated: the identity alone with spin inversion on,
    four spins, the pattern [0b1111]. The flipped image [0] is smaller and the
    extended orbit has two elements. *)
Lemma identity_group_with_spin_inversion :
  get_state_info_64 (ring4_header 1) (small_basis_of_specs [make_identity_spec 4]) 15
  = Ok (0, (1%float, 0%float), 0x1.6a09e667f3bcdp-1%float).
Proof. vm_compute. reflexivity. Qed.

(** ** The norm *)


(** X3. Whatever [get_state_info] returns, on 64 or on 512 bits, the norm is not
    negative. *)
Theorem norm_not_negative :
  (forall basis_header basis_body bits repr c norm,
      get_state_info_64 basis_header basis_body bits = Ok (repr, c, norm) ->
      (norm <? 0)%float = false)
  /\ (forall basis_header basis_body bits repr c norm,
         get_state_info_512 basis_header basis_body bits = Ok (repr, c, norm) ->
         (norm <? 0)%float = false).
Proof.
  split; intros basis_header basis_body bits repr c norm H.
  - apply get_state_info_64_inv in H.
    destruct H as [(_ & _ & _ & ->) | (_ & acc & nrm & _ & _ & _ & ->)];
      [reflexivity | apply float_sqrt_not_negative].
  - unfold get_state_info_512 in H.
    destruct (has_symmetries basis_header); cbn [negb] in H;
      [| inversion H; subst; reflexivity].
    destruct (get_flip_mask_512 (number_spins basis_header)); try discriminate.
    cbn [bind] in H. destruct (fold_left _ _ _) as [[r0 n0] e0].
    destruct (0 <=? snap n0)%float; cbn [negb] in H; [| discriminate].
    inversion H; subst. apply float_sqrt_not_negative.
Qed.

(** ** Witnesses on the ring of four sites *)

Lemma valid_ring4_basis (spin_inversion0 : Z) :
  valid_small_basis (ring4_header spin_inversion0) (small_basis_of_specs ring4_group).
Proof.
  unfold valid_small_basis; cbn. repeat split; try lia. discriminate.
Qed.

(** Witness of C4: the pattern [0b0001] under the four translations. *)
Lemma is_representative_iff_witness :
  is_representative (ring4_header 0) (small_basis_of_specs ring4_group) 1 = Ok true
  <-> exists c norm,
        get_state_info_64 (ring4_header 0) (small_basis_of_specs ring4_group) 1
        = Ok (1, c, norm)
        /\ (0 <? norm)%float = true.
Proof.
  apply (is_representative_iff (ring4_header 0) (small_basis_of_specs ring4_group) 1).
  vm_compute. reflexivity.
Defined.







(** Witness of C9: the four translations of the ring of four sites, dumped
    into an eigenvalue array of four slots. *)
Lemma dump_symmetry_info_witness :
  exists out',
    ls_group_dump_symmetry_info unit unit (fun _ u => u) (fun _ _ _ u => u) ring4_handle
      {| masks := tt; shifts := tt; eigenvalues := repeat (0%float, 0%float) 4 |}
    = Ok (LS_SUCCESS, out')
    /\ firstn (length (payload ring4_handle)) (eigenvalues _ _ out')
       = map eigenvalue (payload ring4_handle)
    /\ skipn (length (payload ring4_handle)) (eigenvalues _ _ out')
       = skipn (length (payload ring4_handle)) (repeat (0%float, 0%float) 4).
Proof.
  destruct (dump_symmetry_info_cases unit unit (fun _ u => u) (fun _ _ _ u => u)
              ring4_handle
              {| masks := tt; shifts := tt; eigenvalues := repeat (0%float, 0%float) 4 |})
    as [_ H].
  apply H.
  - discriminate.
  - exists 3. split; [lia |]. repeat constructor.
  - cbn. lia.
Defined.

(** * Further properties of the spec algebra *)

(** ** [rational_add] *)

(** X5. On numerators that are not negative and positive denominators, when
    neither the numerator nor the denominator of the sum leaves 32 bits,
    [rational_add] returns the sum in lowest terms, its whole part [k] taken
    off: [0 <= p < q], [gcd p q = 1] and [a1/a2 + b1/b2 = p/q + k]. *)
Theorem rational_add_reduced (a1 a2 b1 b2 : Z) :
  0 <= a1 -> 0 <= b1 -> 0 < a2 -> 0 < b2 ->
  a1 * b2 + b1 * a2 < 4294967296 -> a2 * b2 < 4294967296 ->
  exists p q k,
    rational_add (a1, a2) (b1, b2) = Ok (p, q)
    /\ 0 <= p < q /\ Z.gcd p q = 1 /\ 0 <= k
    /\ (a1 * b2 + b1 * a2) * q = (p + k * q) * (a2 * b2).
Proof.
  intros Ha1 Hb1 Ha2 Hb2 HN HD.
  unfold rational_add; cbn [fst snd].
  set (N := a1 * b2 + b1 * a2) in *. set (D := a2 * b2) in *.
  assert (HN0 : 0 <= N) by (unfold N; nia).
  assert (HD0 : 0 < D) by (unfold D; nia).
  rewrite (u32_small N), (u32_small D) by lia.
  set (m := Z.gcd N D).
  assert (Hm : 0 < m).
  { pose proof (Z.gcd_nonneg N D).
    assert (m <> 0) by (unfold m; intros E; apply Z.gcd_eq_0_r in E; lia). unfold m in *; lia. }
  destruct (Z.gcd_divide_l N D) as [N' HN']. destruct (Z.gcd_divide_r N D) as [D' HD'].
  fold m in HN', HD'.
  assert (EN : N / m = N') by (rewrite HN'; apply Z.div_mul; lia).
  assert (ED : D / m = D') by (rewrite HD'; apply Z.div_mul; lia).
  assert (HD'0 : 0 < D') by nia.
  assert (HN'0 : 0 <= N') by nia.
  assert (Hco : Z.gcd N' D' = 1).
  { rewrite <- EN, <- ED. apply Z.gcd_div_gcd; [lia | reflexivity]. }
  replace (m =? 0) with false by (symmetry; apply Z.eqb_neq; lia).
  rewrite EN, ED.
  replace (D' =? 0) with false by (symmetry; apply Z.eqb_neq; lia).
  exists (N' mod D'), D', (N' / D'). split; [reflexivity |].
  split; [apply Z.mod_pos_bound; lia |].
  split; [rewrite Z.gcd_mod by lia; rewrite Z.gcd_comm; exact Hco |].
  split; [apply Z.div_pos; lia |].
  pose proof (Z.div_mod N' D' ltac:(lia)) as Hdm.
  replace (N' mod D' + N' / D' * D') with N' by lia.
  rewrite HN', HD'. ring.
Qed.

(** Witness of X5: [1/4 + 1/4 = 1/2]. *)
Lemma rational_add_reduced_witness :
  exists p q k,
    rational_add (1, 4) (1, 4) = Ok (p, q)
    /\ 0 <= p < q /\ Z.gcd p q = 1 /\ 0 <= k
    /\ (1 * 4 + 1 * 4) * q = (p + k * q) * (4 * 4).
Proof. apply (rational_add_reduced 1 4 1 4); lia. Defined.

(** X6. [rational_add] does not depend on the order of its operands, never
    reports an error, and is undefined exactly when the 32-bit product of the
    two denominators is zero. *)
Theorem rational_add_symmetric (a b : Z * Z) :
  rational_add a b = rational_add b a
  /\ (forall e, rational_add a b <> Failure e)
  /\ (rational_add a b = Crash <-> u32 (snd a * snd b) = 0).
Proof.
  split; [| split].
  - unfold rational_add.
    replace (fst b * snd a + fst a * snd b) with (fst a * snd b + fst b * snd a) by ring.
    replace (snd b * snd a) with (snd a * snd b) by ring. reflexivity.
  - intros e. unfold rational_add.
    destruct (_ =? 0); [discriminate |]. destruct (_ =? 0); discriminate.
  - unfold rational_add.
    set (p := u32 (fst a * snd b + fst b * snd a)). set (q := u32 (snd a * snd b)).
    assert (Hp : 0 <= p) by (apply Z.mod_pos_bound; lia).
    assert (Hq : 0 <= q) by (apply Z.mod_pos_bound; lia).
    destruct (Z.eqb_spec (Z.gcd p q) 0) as [Em | Em].
    + split; [intros _ | reflexivity]. apply Z.gcd_eq_0_r in Em. exact Em.
    + destruct (Z.eqb_spec (q / Z.gcd p q) 0) as [Eq | Eq].
      * split; [intros _ | reflexivity].
        destruct (Z.gcd_divide_r p q) as [q' Hq'].
        rewrite Hq' in Eq at 1. rewrite Z.div_mul in Eq by exact Em. subst q'. lia.
      * split; [discriminate |]. intros E. exfalso. apply Eq.
        unfold q in *. rewrite E in Em |- *. apply Z.div_0_l. exact Em.
Qed.

(** ** [equal] *)

(** X7. [equal] returns [true] exactly on two specs with the same permutation,
    sector and periodicity, and its outcome, errors included, does not depend
    on the order of the operands. *)
Theorem equal_true_iff (x y : symmetry_spec_t) :
  (equal x y = Ok true <-> x = y) /\ equal x y = equal y x.
Proof.
  split; [| apply equal_sym].
  split; [| intros ->; apply equal_refl].
  unfold equal.
  destruct (Nat.eqb _ _); cbn [negb]; [| discriminate].
  destruct (Z.eqb_spec (periodicity x) (periodicity y)) as [Hp | Hp]; cbn [negb];
    [| discriminate].
  destruct (list_eqb (permutation x) (permutation y)) eqn:Hl; [| discriminate].
  destruct (Z.eqb_spec (sector x) (sector y)) as [Hs | Hs]; cbn [negb]; [| discriminate].
  intros _. apply list_eqb_eq in Hl.
  destruct x, y; cbn in *; subst; reflexivity.
Qed.

(** ** [compose] and the identity *)

Lemma nth_identity (n k : nat) :
  (k < n)%nat -> nth k (map Z.of_nat (seq 0 n)) 0 = Z.of_nat k.
Proof.
  intros Hk. change 0 with (Z.of_nat 0). rewrite (map_nth Z.of_nat).
  rewrite seq_nth by exact Hk. reflexivity.
Qed.

Lemma map_nth_seq_id (l : list Z) : map (fun i => nth i l 0) (seq 0 (length l)) = l.
Proof.
  apply (nth_ext _ _ 0 0); [rewrite length_map, length_seq; reflexivity |].
  intros k Hk. rewrite length_map, length_seq in Hk.
  rewrite (nth_indep _ 0 ((fun i => nth i l 0) 0%nat))
    by (rewrite length_map, length_seq; exact Hk).
  rewrite (map_nth (fun i => nth i l 0)). rewrite seq_nth by exact Hk. reflexivity.
Qed.

Lemma permutation_make_identity_spec (n : nat) :
  Z.of_nat n < 65536 ->
  permutation (make_identity_spec (Z.of_nat n)) = map Z.of_nat (seq 0 n).
Proof.
  intros Hn. unfold make_identity_spec; cbn [permutation].
  rewrite u16_small, Nat2Z.id by lia. reflexivity.
Qed.

Lemma valid_make_identity_spec (n : nat) :
  Z.of_nat n < 65536 -> valid_spec (make_identity_spec (Z.of_nat n)).
Proof.
  intros Hn. unfold valid_spec. rewrite permutation_make_identity_spec by exact Hn.
  rewrite length_map, length_seq. cbn [sector periodicity make_identity_spec].
  repeat split; try lia.
  apply Forall_forall. intros v Hv. apply in_map_iff in Hv.
  destruct Hv as [k [<- Hk]]. apply in_seq in Hk. lia.
Qed.

(** The phase of a spec plus the phase [0/1] of the identity, either way
    round: the fraction [s/P] in lowest terms. *)
Lemma rational_add_zero (s P : Z) :
  0 <= s < P -> P < 65536 ->
  rational_add (s, P) (0, 1) = Ok (s / Z.gcd s P, P / Z.gcd s P)
  /\ rational_add (0, 1) (s, P) = Ok (s / Z.gcd s P, P / Z.gcd s P).
Proof.
  intros Hs HP.
  assert (Hg : 0 < Z.gcd s P).
  { pose proof (Z.gcd_nonneg s P).
    assert (Z.gcd s P <> 0) by (intros E; apply Z.gcd_eq_0_r in E; lia). lia. }
  destruct (Z.gcd_divide_l s P) as [s' Hs']. destruct (Z.gcd_divide_r s P) as [P' HP'].
  assert (Es : s / Z.gcd s P = s') by (rewrite Hs' at 1; apply Z.div_mul; lia).
  assert (EP : P / Z.gcd s P = P') by (rewrite HP' at 1; apply Z.div_mul; lia).
  assert (Hlt : 0 <= s' < P') by nia.
  assert (E : forall p q, p = s -> q = P ->
            (let m := Z.gcd (u32 p) (u32 q) in
             if m =? 0 then Crash
             else if u32 q / m =? 0 then Crash
                  else Ok ((u32 p / m) mod (u32 q / m), u32 q / m))
            = Ok (s / Z.gcd s P, P / Z.gcd s P)).
  { intros p q -> ->. cbn zeta. rewrite (u32_small s), (u32_small P) by lia.
    replace (Z.gcd s P =? 0) with false by (symmetry; apply Z.eqb_neq; lia).
    rewrite Es, EP.
    replace (P' =? 0) with false by (symmetry; apply Z.eqb_neq; lia).
    rewrite Z.mod_small by exact Hlt. reflexivity. }
  split; unfold rational_add; cbn [fst snd]; apply E; ring.
Qed.

Lemma sector_of_reduced_phase (s P : Z) :
  0 <= s < P ->
  (P / Z.gcd s P >? P) = false
  /\ P mod (P / Z.gcd s P) = 0
  /\ s / Z.gcd s P * (P / (P / Z.gcd s P)) = s.
Proof.
  intros Hs.
  assert (Hg : 0 < Z.gcd s P).
  { pose proof (Z.gcd_nonneg s P).
    assert (Z.gcd s P <> 0) by (intros E; apply Z.gcd_eq_0_r in E; lia). lia. }
  destruct (Z.gcd_divide_l s P) as [s' Hs']. destruct (Z.gcd_divide_r s P) as [P' HP'].
  assert (Es : s / Z.gcd s P = s') by (rewrite Hs' at 1; apply Z.div_mul; lia).
  assert (EP : P / Z.gcd s P = P') by (rewrite HP' at 1; apply Z.div_mul; lia).
  assert (HP'0 : 0 < P') by nia.
  rewrite Es, EP.
  assert (Hdiv : P / P' = Z.gcd s P).
  { rewrite HP' at 1. rewrite Z.mul_comm. apply Z.div_mul. lia. }
  split; [rewrite Z.gtb_ltb; apply Z.ltb_ge; nia |].
  split.
  - rewrite HP' at 1. rewrite Z.mul_comm. apply Z.mod_mul. lia.
  - rewrite Hdiv. lia.
Qed.

Section ComposeIdentity.

Variable compute_periodicity : list Z -> Z.

(** X8. The identity spec is neutral for [compose] on both sides: composing a
    valid spec, whose sector is below its periodicity and whose periodicity is
    the one [compute_periodicity] finds for its permutation, with the identity
    on as many sites returns that spec. *)
Theorem compose_identity (x : symmetry_spec_t) :
  valid_spec x ->
  sector x < periodicity x ->
  Z.of_nat (length (permutation x)) < 65536 ->
  compute_periodicity (permutation x) = periodicity x ->
  compose compute_periodicity x (make_identity_spec (Z.of_nat (length (permutation x))))
  = Ok x
  /\ compose compute_periodicity (make_identity_spec (Z.of_nat (length (permutation x)))) x
     = Ok x.
Proof.
  intros Vx Hsec Hn HP.
  set (e := make_identity_spec (Z.of_nat (length (permutation x)))).
  assert (Ve : valid_spec e) by (apply valid_make_identity_spec; exact Hn).
  assert (Pe : permutation e = map Z.of_nat (seq 0 (length (permutation x))))
    by (apply permutation_make_identity_spec; exact Hn).
  assert (Hlen : length (permutation x) = length (permutation e))
    by (rewrite Pe, length_map, length_seq; reflexivity).
  assert (Hxe : composed_permutation x e = permutation x).
  { unfold composed_permutation.
    transitivity (map (fun i => nth i (permutation x) 0) (seq 0 (length (permutation x))));
      [| apply map_nth_seq_id].
    apply map_ext_in. intros k Hk. apply in_seq in Hk.
    rewrite Pe, nth_identity, Nat2Z.id by lia. reflexivity. }
  assert (Hex : composed_permutation e x = permutation x).
  { unfold composed_permutation. rewrite <- Hlen.
    transitivity (map (fun i => nth i (permutation x) 0) (seq 0 (length (permutation x))));
      [| apply map_nth_seq_id].
    apply map_ext_in. intros k Hk. apply in_seq in Hk.
    destruct Vx as (Hall & _).
    pose proof (nth_in_range _ _ k Hall ltac:(lia)) as Hr.
    rewrite Pe, nth_identity by lia. apply Z2Nat.id. lia. }
  destruct Vx as (Hall & Hl & Hs & Hp).
  assert (Vx : valid_spec x) by (unfold valid_spec; auto).
  destruct (rational_add_zero (sector x) (periodicity x) ltac:(lia) ltac:(lia))
    as [Hr Hl'].
  destruct (sector_of_reduced_phase (sector x) (periodicity x) ltac:(lia))
    as (Hgt & Hmod & Hsector).
  assert (Hg : 0 < Z.gcd (sector x) (periodicity x)).
  { pose proof (Z.gcd_nonneg (sector x) (periodicity x)).
    assert (Z.gcd (sector x) (periodicity x) <> 0)
      by (intros E; apply Z.gcd_eq_0_r in E; lia). lia. }
  split.
  - destruct (compose_permutation_exact x e Vx Ve Hlen) as [temp [Ht Hc]].
    unfold compose. rewrite <- Hlen, Nat.eqb_refl. cbn [negb].
    rewrite Ht. cbn [bind]. rewrite Hc. cbn [bind]. rewrite Hxe, HP.
    change (sector e) with 0. change (periodicity e) with 1.
    rewrite Hr. cbn [bind fst snd]. rewrite (u32_small (periodicity x)) by lia.
    rewrite Hgt, Hmod. cbn [Z.eqb negb]. rewrite Hsector.
    rewrite (u32_small (sector x)), !u16_small by lia.
    destruct x; reflexivity.
  - destruct (compose_permutation_exact e x Ve Vx (eq_sym Hlen)) as [temp [Ht Hc]].
    unfold compose. rewrite <- Hlen, Nat.eqb_refl. cbn [negb].
    rewrite <- Hlen in Ht.
    rewrite Ht. cbn [bind]. rewrite Hc. cbn [bind]. rewrite Hex, HP.
    change (sector e) with 0. change (periodicity e) with 1.
    rewrite Hl'. cbn [bind fst snd]. rewrite (u32_small (periodicity x)) by lia.
    rewrite Hgt, Hmod. cbn [Z.eqb negb]. rewrite Hsector.
    rewrite (u32_small (sector x)), !u16_small by lia.
    destruct x; reflexivity.
Qed.

End ComposeIdentity.

(** Witness of X8: the translation of the ring of four sites in its sector 1. *)
Lemma compose_identity_witness :
  compose permutation_order (ring4 1)
    (make_identity_spec (Z.of_nat (length (permutation (ring4 1)))))
  = Ok (ring4 1)
  /\ compose permutation_order (make_identity_spec (Z.of_nat (length (permutation (ring4 1)))))
       (ring4 1)
     = Ok (ring4 1).
Proof.
  apply (compose_identity permutation_order (ring4 1)).
  - apply valid_ring4; lia.
  - reflexivity.
  - reflexivity.
  - reflexivity.
Defined.

(** ** [make_group]: errors *)

Lemma only_incompatible_bind {A B : Type} (r : result A) (k : A -> result B) :
  only_incompatible r -> (forall a, only_incompatible (k a)) ->
  only_incompatible (bind r k).
Proof.
  intros Hr Hk e. destruct r as [a | e' |]; cbn [bind].
  - apply Hk.
  - intros H; inversion H; subst. apply Hr; reflexivity.
  - discriminate.
Qed.

Lemma only_incompatible_Ok {A : Type} (a : A) : only_incompatible (Ok a).
Proof. intros e H; discriminate. Qed.

Lemma defined_bind {A B : Type} (r : result A) (k : A -> result B) :
  defined r -> (forall a, defined (k a)) -> defined (bind r k).
Proof.
  intros Hr Hk. destruct r as [a | e' |]; cbn [bind];
    [apply Hk | discriminate | contradiction].
Qed.

Lemma equal_only_incompatible (x y : symmetry_spec_t) : only_incompatible (equal x y).
Proof.
  intros e. unfold equal.
  repeat match goal with
         | |- context [if ?c then _ else _] => destruct c
         end; intros H; inversion H; reflexivity.
Qed.

Lemma equal_defined (x y : symmetry_spec_t) : defined (equal x y).
Proof.
  unfold defined, equal.
  repeat match goal with
         | |- context [if ?c then _ else _] => destruct c
         end; discriminate.
Qed.

Lemma contains_only_incompatible (gs : list symmetry_spec_t) (x : symmetry_spec_t) :
  only_incompatible (contains gs x).
Proof.
  induction gs as [| g gs IH]; cbn [contains]; [apply only_incompatible_Ok |].
  apply only_incompatible_bind; [apply equal_only_incompatible |].
  intros [|]; [apply only_incompatible_Ok | exact IH].
Qed.

Lemma contains_defined (gs : list symmetry_spec_t) (x : symmetry_spec_t) :
  defined (contains gs x).
Proof.
  induction gs as [| g gs IH]; cbn [contains]; [discriminate |].
  apply defined_bind; [apply equal_defined |].
  intros [|]; [discriminate | exact IH].
Qed.

Lemma dedup_only_incompatible (generators group : list symmetry_spec_t) :
  only_incompatible (dedup group generators).
Proof.
  revert group; induction generators as [| g rest IH]; intros group; cbn [dedup];
    [apply only_incompatible_Ok |].
  apply only_incompatible_bind; [apply contains_only_incompatible |].
  intros b; apply IH.
Qed.

Lemma dedup_defined (generators group : list symmetry_spec_t) :
  defined (dedup group generators).
Proof.
  revert group; induction generators as [| g rest IH]; intros group; cbn [dedup];
    [discriminate |].
  apply defined_bind; [apply contains_defined |].
  intros b; apply IH.
Qed.

Lemma mapM_at_index_only_incompatible (v l : list Z) :
  only_incompatible (mapM (at_index v) l).
Proof.
  induction l as [| i l IH]; cbn [mapM]; [apply only_incompatible_Ok |].
  apply only_incompatible_bind.
  - intros e. unfold at_index. destruct (_ && _); discriminate.
  - intros b. apply only_incompatible_bind; [exact IH |].
    intros bs; apply only_incompatible_Ok.
Qed.

Section MakeGroupErrors.

Variable compute_periodicity : list Z -> Z.

Lemma compose_only_incompatible (x y : symmetry_spec_t) :
  only_incompatible (compose compute_periodicity x y).
Proof.
  unfold compose. destruct (negb _); [intros e H; inversion H; reflexivity |].
  apply only_incompatible_bind; [apply mapM_at_index_only_incompatible |]. intros temp.
  apply only_incompatible_bind; [apply mapM_at_index_only_incompatible |]. intros perm.
  apply only_incompatible_bind.
  - intros e. unfold rational_add.
    destruct (_ =? 0); [discriminate |]. destruct (_ =? 0); discriminate.
  - intros phase.
    destruct (_ >? _); [intros e H; inversion H; reflexivity |].
    destruct (negb _); [intros e H; inversion H; reflexivity |].
    apply only_incompatible_Ok.
Qed.

Lemma round_inner_only_incompatible (group : list symmetry_spec_t) (g1 : symmetry_spec_t)
    (g2s extra : list symmetry_spec_t) :
  only_incompatible (round_inner compute_periodicity group g1 g2s extra).
Proof.
  revert extra; induction g2s as [| g2 rest IH]; intros extra; cbn [round_inner];
    [apply only_incompatible_Ok |].
  apply only_incompatible_bind; [apply compose_only_incompatible |]. intros g.
  apply only_incompatible_bind; [apply contains_only_incompatible |]. intros [|];
    [apply IH |].
  apply only_incompatible_bind; [apply contains_only_incompatible |]. intros b; apply IH.
Qed.

Lemma round_outer_only_incompatible (group g1s extra : list symmetry_spec_t) :
  only_incompatible (round_outer compute_periodicity group g1s extra).
Proof.
  revert extra; induction g1s as [| g1 rest IH]; intros extra; cbn [round_outer];
    [apply only_incompatible_Ok |].
  apply only_incompatible_bind; [apply round_inner_only_incompatible |].
  intros extra'; apply IH.
Qed.

Lemma closure_loop_only_incompatible (fuel : nat) (group : list symmetry_spec_t)
    (e : ls_error_code) :
  closure_loop compute_periodicity fuel group = Some (Failure e) ->
  e = LS_INCOMPATIBLE_SYMMETRIES.
Proof.
  revert group; induction fuel as [| fuel IH]; intros group; cbn [closure_loop];
    [discriminate |].
  pose proof (round_outer_only_incompatible group group []) as Hr.
  destruct (round_outer compute_periodicity group group []) as [[| g extra] | e' |].
  - discriminate.
  - apply IH.
  - intros H; inversion H; subst. apply Hr; reflexivity.
  - discriminate.
Qed.

(** X9. Whatever the generators and however long the closure runs, the only
    error [make_group] reports is [LS_INCOMPATIBLE_SYMMETRIES]. *)
Theorem make_group_error_code (fuel : nat) (generators : list symmetry_spec_t)
    (e : ls_error_code) :
  make_group compute_periodicity fuel generators = Some (Failure e) ->
  e = LS_INCOMPATIBLE_SYMMETRIES.
Proof.
  unfold make_group. destruct generators as [| g0 rest]; [discriminate |].
  pose proof (dedup_only_incompatible (g0 :: rest) []) as Hd.
  destruct (dedup [] (g0 :: rest)) as [group | e' |].
  - apply closure_loop_only_incompatible.
  - intros H; inversion H; subst. apply Hd; reflexivity.
  - discriminate.
Qed.

End MakeGroupErrors.

(** Witness of X9: two generators of different lengths. *)
Lemma make_group_error_code_witness :
  make_group permutation_order 1 [ring4 1; make_identity_spec 3]
  = Some (Failure LS_INCOMPATIBLE_SYMMETRIES)
  /\ LS_INCOMPATIBLE_SYMMETRIES = LS_INCOMPATIBLE_SYMMETRIES.
Proof.
  split; [vm_compute; reflexivity |].
  apply (make_group_error_code permutation_order 1 [ring4 1; make_identity_spec 3]).
  vm_compute. reflexivity.
Defined.

(** ** [make_group]: generators that contradict each other *)

Lemma equal_true_eq (x y : symmetry_spec_t) : equal x y = Ok true -> x = y.
Proof.
  unfold equal.
  destruct (Nat.eqb _ _); cbn [negb]; [| discriminate].
  destruct (Z.eqb_spec (periodicity x) (periodicity y)) as [Hp | Hp]; cbn [negb];
    [| discriminate].
  destruct (list_eqb (permutation x) (permutation y)) eqn:Hl; [| discriminate].
  destruct (Z.eqb_spec (sector x) (sector y)) as [Hs | Hs]; cbn [negb]; [| discriminate].
  intros _. apply list_eqb_eq in Hl.
  destruct x, y; cbn in *; subst; reflexivity.
Qed.

(** Two different members of a sequence without repetition are not [equal]. *)
Lemma distinct_members (l : list symmetry_spec_t) (a b : symmetry_spec_t) :
  distinct l -> In a l -> In b l -> a <> b -> equal a b = Ok false.
Proof.
  intros Hd Ha Hb Hab.
  apply In_nth_error in Ha. destruct Ha as [i Hi].
  apply In_nth_error in Hb. destruct Hb as [j Hj].
  destruct (Nat.lt_total i j) as [Hlt | [Heq | Hgt]].
  - exact (Hd i j a b Hlt Hi Hj).
  - subst j. congruence.
  - rewrite equal_sym. exact (Hd j i b a Hgt Hj Hi).
Qed.

Section MakeGroupRejects.

Variable compute_periodicity : list Z -> Z.

(** X10. [make_group] fails with [LS_INCOMPATIBLE_SYMMETRIES], before any
    composition, as soon as two of the generators are incompatible for
    [equal]: their lengths differ, or they have one permutation and one
    periodicity but two sectors. *)
Theorem make_group_rejects (fuel : nat) (generators : list symmetry_spec_t)
    (g g' : symmetry_spec_t) :
  In g generators -> In g' generators ->
  equal g g' = Failure LS_INCOMPATIBLE_SYMMETRIES ->
  make_group compute_periodicity fuel generators
  = Some (Failure LS_INCOMPATIBLE_SYMMETRIES).
Proof.
  intros Hg Hg' Hfail. unfold make_group.
  destruct generators as [| g0 rest]; [destruct Hg |].
  pose proof (dedup_only_incompatible (g0 :: rest) []) as Hcode.
  pose proof (dedup_defined (g0 :: rest) []) as Hdef.
  destruct (dedup [] (g0 :: rest)) as [group | e |] eqn:Hdedup.
  - exfalso.
    destruct (dedup_sound _ _ _ Hdedup distinct_nil) as (Hd & _ & Hcov).
    destruct (Hcov g Hg) as (h & Hh & Eh). apply equal_true_eq in Eh. subst h.
    destruct (Hcov g' Hg') as (h' & Hh' & Eh'). apply equal_true_eq in Eh'. subst h'.
    assert (Hne : g <> g') by (intros ->; rewrite equal_refl in Hfail; discriminate).
    rewrite (distinct_members group g g' Hd Hh Hh' Hne) in Hfail. discriminate.
  - rewrite (Hcode e eq_refl). reflexivity.
  - contradiction.
Qed.

End MakeGroupRejects.

(** Witness of X10: the translation of the ring of four sites given twice,
    in the sectors 1 and 2. *)
Lemma make_group_rejects_witness :
  make_group permutation_order 1 [ring4 1; ring4 2]
  = Some (Failure LS_INCOMPATIBLE_SYMMETRIES).
Proof.
  apply (make_group_rejects permutation_order 1 [ring4 1; ring4 2] (ring4 1) (ring4 2)).
  - left; reflexivity.
  - right; left; reflexivity.
  - reflexivity.
Defined.

(** ** [make_group]: one number of sites *)

Lemma equal_Ok_length (x y : symmetry_spec_t) (b : bool) :
  equal x y = Ok b -> length (permutation x) = length (permutation y).
Proof.
  unfold equal. destruct (Nat.eqb_spec (length (permutation x)) (length (permutation y)));
    cbn [negb]; [auto | discriminate].
Qed.

Lemma mapM_length {A B : Type} (f : A -> result B) (l : list A) (l' : list B) :
  mapM f l = Ok l' -> length l' = length l.
Proof.
  revert l'; induction l as [| a l IH]; intros l'; cbn [mapM].
  - intros H; inversion H; reflexivity.
  - destruct (f a) as [b | |]; cbn [bind]; try discriminate.
    destruct (mapM f l) as [bs | |]; cbn [bind]; try discriminate.
    intros H; inversion H; subst. cbn [length]. rewrite (IH bs eq_refl). reflexivity.
Qed.

Lemma contains_Ok_length (gs : list symmetry_spec_t) (x g : symmetry_spec_t) (b : bool) :
  contains (g :: gs) x = Ok b -> length (permutation g) = length (permutation x).
Proof.
  cbn [contains]. destruct (equal g x) as [b' | |] eqn:E; cbn [bind]; try discriminate.
  intros _. exact (equal_Ok_length _ _ _ E).
Qed.

Lemma dedup_length (L : nat) (generators group res : list symmetry_spec_t) :
  group <> [] ->
  Forall (fun g => length (permutation g) = L) group ->
  dedup group generators = Ok res ->
  Forall (fun g => length (permutation g) = L) res
  /\ Forall (fun g => length (permutation g) = L) generators.
Proof.
  revert group; induction generators as [| x rest IH]; intros group Hne Hall; cbn [dedup].
  - intros H; inversion H; subst. split; [exact Hall | constructor].
  - destruct (contains group x) as [b | |] eqn:Hc; cbn [bind]; try discriminate.
    assert (Hx : length (permutation x) = L).
    { destruct group as [| g gs]; [contradiction |].
      apply contains_Ok_length in Hc. apply Forall_cons_iff in Hall.
      destruct Hall as [Hg _]. rewrite <- Hc. exact Hg. }
    intros Hd.
    destruct (IH (if b then group else group ++ [x])) as [Hres Hrest]; [| | exact Hd |].
    + destruct b; [exact Hne | destruct group; discriminate].
    + destruct b; [exact Hall |]. apply Forall_app; split; [exact Hall | repeat constructor].
      exact Hx.
    + split; [exact Hres | constructor; assumption].
Qed.

Section MakeGroupLength.

Variable compute_periodicity : list Z -> Z.

Lemma compose_Ok_length (x y s : symmetry_spec_t) :
  compose compute_periodicity x y = Ok s ->
  length (permutation s) = length (permutation x).
Proof.
  unfold compose. destruct (negb _); [discriminate |].
  destruct (mapM (at_index (permutation y)) _) as [temp | |] eqn:Ht; cbn [bind];
    try discriminate.
  destruct (mapM (at_index (permutation x)) temp) as [perm | |] eqn:Hp; cbn [bind];
    try discriminate.
  destruct (rational_add _ _) as [phase | |]; cbn [bind]; try discriminate.
  destruct (_ >? _); [discriminate |]. destruct (negb _); [discriminate |].
  intros H; inversion H; subst; cbn [permutation].
  rewrite (mapM_length _ _ _ Hp), (mapM_length _ _ _ Ht).
  unfold iota. rewrite length_map, length_seq. reflexivity.
Qed.

Lemma round_inner_length (L : nat) (group : list symmetry_spec_t) (g1 : symmetry_spec_t)
    (g2s extra extra' : list symmetry_spec_t) :
  length (permutation g1) = L ->
  Forall (fun g => length (permutation g) = L) extra ->
  round_inner compute_periodicity group g1 g2s extra = Ok extra' ->
  Forall (fun g => length (permutation g) = L) extra'.
Proof.
  intros H1. revert extra; induction g2s as [| g2 rest IH]; intros extra Hall;
    cbn [round_inner].
  - intros H; inversion H; subst; exact Hall.
  - destruct (compose compute_periodicity g1 g2) as [g | |] eqn:Hc; cbn [bind];
      try discriminate.
    destruct (contains group g) as [[|] | |]; cbn [bind]; try discriminate;
      [apply IH; exact Hall |].
    destruct (contains extra g) as [b | |]; cbn [bind]; try discriminate.
    apply IH. destruct b; [exact Hall |].
    apply Forall_app; split; [exact Hall | repeat constructor].
    rewrite (compose_Ok_length _ _ _ Hc). exact H1.
Qed.

Lemma round_outer_length (L : nat) (group g1s extra extra' : list symmetry_spec_t) :
  Forall (fun g => length (permutation g) = L) g1s ->
  Forall (fun g => length (permutation g) = L) extra ->
  round_outer compute_periodicity group g1s extra = Ok extra' ->
  Forall (fun g => length (permutation g) = L) extra'.
Proof.
  revert extra; induction g1s as [| g1 rest IH]; intros extra H1 Hall; cbn [round_outer].
  - intros H; inversion H; subst; exact Hall.
  - destruct (round_inner compute_periodicity group g1 group extra) as [ex | |] eqn:Hr;
      cbn [bind]; try discriminate.
    apply Forall_cons_iff in H1. destruct H1 as [Hg1 Hrest].
    apply IH; [exact Hrest |].
    eapply round_inner_length; [exact Hg1 | exact Hall | exact Hr].
Qed.

Lemma closure_loop_length (L : nat) (fuel : nat) (group res : list symmetry_spec_t) :
  Forall (fun g => length (permutation g) = L) group ->
  closure_loop compute_periodicity fuel group = Some (Ok res) ->
  Forall (fun g => length (permutation g) = L) res.
Proof.
  revert group; induction fuel as [| fuel IH]; intros group Hall; cbn [closure_loop];
    [discriminate |].
  destruct (round_outer compute_periodicity group group []) as [[| g extra] | |] eqn:Hr;
    try discriminate.
  - intros H; inversion H; subst; exact Hall.
  - apply IH. apply Forall_app; split; [exact Hall |].
    eapply round_outer_length; [exact Hall | constructor | exact Hr].
Qed.

(** X11. When [make_group] succeeds, the generators and all elements of the
    returned group permute one and the same number of sites. *)
Theorem make_group_same_length (fuel : nat) (generators group : list symmetry_spec_t) :
  make_group compute_periodicity fuel generators = Some (Ok group) ->
  exists L,
    Forall (fun g => length (permutation g) = L) generators
    /\ Forall (fun g => length (permutation g) = L) group.
Proof.
  unfold make_group. destruct generators as [| g0 rest].
  - intros H; inversion H; subst. exists 0%nat. split; constructor.
  - destruct (dedup [] (g0 :: rest)) as [start | |] eqn:Hd; try discriminate.
    intros Hloop. exists (length (permutation g0)).
    cbn [dedup contains bind] in Hd.
    destruct (dedup_length (length (permutation g0)) rest [g0] start) as [Hs Hr];
      [discriminate | repeat constructor | exact Hd |].
    split; [constructor; [reflexivity | exact Hr] |].
    eapply closure_loop_length; [exact Hs | exact Hloop].
Qed.

End MakeGroupLength.

(** Witness of X11: the group of the translation of the ring of four sites. *)
Lemma make_group_same_length_witness :
  exists L,
    Forall (fun g => length (permutation g) = L) [ring4 1]
    /\ Forall (fun g => length (permutation g) = L) ring4_group.
Proof.
  apply (make_group_same_length permutation_order 10 [ring4 1] ring4_group).
  vm_compute. reflexivity.
Defined.

(** ** [make_group]: a group is its own closure *)

Lemma contains_none (gs : list symmetry_spec_t) (x : symmetry_spec_t) :
  (forall g, In g gs -> equal g x = Ok false) -> contains gs x = Ok false.
Proof.
  induction gs as [| g gs IH]; intros H; cbn [contains]; [reflexivity |].
  rewrite (H g (or_introl eq_refl)). cbn [bind]. apply IH.
  intros g' Hg'. apply H. right; exact Hg'.
Qed.

Lemma contains_member (gs : list symmetry_spec_t) (x : symmetry_spec_t) :
  distinct gs -> In x gs -> contains gs x = Ok true.
Proof.
  intros Hd Hx. induction gs as [| g gs IH]; [destruct Hx |].
  cbn [contains].
  assert (Hd' : distinct gs).
  { intros i j a b Hij Ha Hb. apply (Hd (S i) (S j) a b); [lia | exact Ha | exact Hb]. }
  destruct (equal g x) as [[|] | e |] eqn:E; cbn [bind].
  - reflexivity.
  - destruct Hx as [-> | Hx]; [rewrite equal_refl in E; discriminate |].
    apply IH; assumption.
  - destruct Hx as [-> | Hx]; [rewrite equal_refl in E; discriminate |].
    assert (g <> x) by (intros ->; rewrite equal_refl in E; discriminate).
    rewrite (distinct_members (g :: gs) g x Hd (or_introl eq_refl) (or_intror Hx)) in E
      by assumption.
    discriminate.
  - exfalso. exact (equal_defined g x E).
Qed.

Lemma distinct_before (l1 l2 : list symmetry_spec_t) (a g : symmetry_spec_t) :
  distinct (l1 ++ g :: l2) -> In a l1 -> equal a g = Ok false.
Proof.
  intros Hd Ha. apply In_nth_error in Ha. destruct Ha as [i Hi].
  assert (Hil : (i < length l1)%nat) by (apply nth_error_Some; congruence).
  apply (Hd i (length l1) a g Hil).
  - rewrite nth_error_app1 by exact Hil. exact Hi.
  - rewrite nth_error_app2, Nat.sub_diag by lia. reflexivity.
Qed.

Lemma dedup_distinct (generators group : list symmetry_spec_t) :
  distinct (group ++ generators) -> dedup group generators = Ok (group ++ generators).
Proof.
  revert group; induction generators as [| g rest IH]; intros group Hd; cbn [dedup].
  - rewrite app_nil_r. reflexivity.
  - rewrite contains_none by (intros a Ha; exact (distinct_before _ _ _ _ Hd Ha)).
    cbn [bind]. rewrite IH; rewrite <- app_assoc; [reflexivity | exact Hd].
Qed.

Section MakeGroupIdempotent.

Variable compute_periodicity : list Z -> Z.

Lemma round_inner_closed (group : list symmetry_spec_t) (g1 : symmetry_spec_t)
    (g2s extra : list symmetry_spec_t) :
  distinct group ->
  (forall g2, In g2 g2s -> product_in compute_periodicity group g1 g2) ->
  round_inner compute_periodicity group g1 g2s extra = Ok extra.
Proof.
  intros Hd. induction g2s as [| g2 rest IH]; intros Hcl; cbn [round_inner];
    [reflexivity |].
  destruct (Hcl g2 (or_introl eq_refl)) as (g & Hg & g' & Hin & He).
  apply equal_true_eq in He. subst g'.
  rewrite Hg. cbn [bind]. rewrite (contains_member group g Hd Hin). cbn [bind].
  apply IH. intros g2' H2. apply Hcl. right; exact H2.
Qed.

Lemma round_outer_closed (group g1s extra : list symmetry_spec_t) :
  distinct group ->
  (forall g1 g2, In g1 g1s -> In g2 group -> product_in compute_periodicity group g1 g2) ->
  round_outer compute_periodicity group g1s extra = Ok extra.
Proof.
  intros Hd. induction g1s as [| g1 rest IH]; intros Hcl; cbn [round_outer];
    [reflexivity |].
  rewrite round_inner_closed; [| exact Hd | intros g2 H2; apply Hcl; [left; reflexivity | exact H2]].
  cbn [bind]. apply IH. intros g1' g2 H1 H2. apply Hcl; [right; exact H1 | exact H2].
Qed.

(** X12. A group that [make_group] has returned is its own closure: given
    back as the generators, it is returned as it is, in the same order, after
    a single round. *)
Theorem make_group_idempotent (fuel : nat) (generators group : list symmetry_spec_t) :
  make_group compute_periodicity fuel generators = Some (Ok group) ->
  forall fuel', make_group compute_periodicity (S fuel') group = Some (Ok group).
Proof.
  intros H fuel'.
  assert (Hprop : distinct group
                  /\ forall g1 g2, In g1 group -> In g2 group ->
                       product_in compute_periodicity group g1 g2).
  { unfold make_group in H. destruct generators as [| g0 rest].
    - inversion H; subst. split; [apply distinct_nil | intros g1 g2 []].
    - destruct (dedup [] (g0 :: rest)) as [start | |] eqn:Hdedup; try discriminate.
      destruct (dedup_sound _ _ _ Hdedup distinct_nil) as (Hd & _ & _).
      destruct (closure_loop_sound _ _ _ _ H Hd) as (Hres & _ & Hclosed).
      split; assumption. }
  destruct Hprop as [Hd Hcl].
  unfold make_group. destruct group as [| g0 rest]; [reflexivity |].
  rewrite (dedup_distinct (g0 :: rest) []) by exact Hd.
  cbn [app closure_loop]. rewrite round_outer_closed by assumption. reflexivity.
Qed.

End MakeGroupIdempotent.

(** Witness of X12: the group of the translation of the ring of four sites. *)
Lemma make_group_idempotent_witness :
  make_group permutation_order 1 ring4_group = Some (Ok ring4_group).
Proof.
  refine (make_group_idempotent permutation_order 10 [ring4 1] ring4_group _ 0%nat).
  vm_compute. reflexivity.
Defined.

(** * Further properties of [state_info.cpp] *)

(** ** Flip masks *)

Lemma lxor_low_mask (n x : Z) :
  0 <= n -> 0 <= x < 2 ^ n -> Z.lxor x (2 ^ n - 1) = 2 ^ n - 1 - x.
Proof.
  intros Hn Hx.
  replace (2 ^ n - 1) with (Z.ones n) by (rewrite Z.ones_equiv; lia).
  destruct (Z.eq_dec x 0) as [-> | Hx0]; [rewrite Z.lxor_0_l; lia |].
  assert (Hlog : Z.log2 x < n) by (apply Z.log2_lt_pow2; lia).
  rewrite (Z.sub_nocarry_ldiff (Z.ones n) x)
    by (apply Z.ldiff_ones_r_low; lia).
  apply Z.bits_inj'. intros i Hi.
  rewrite Z.lxor_spec, Z.ldiff_spec, Z.testbit_ones_nonneg by lia.
  destruct (Z.ltb_spec i n) as [Hlt | Hge].
  - destruct (Z.testbit x i); reflexivity.
  - rewrite (Z.bits_above_log2 x i) by lia. reflexivity.
Qed.

Lemma lxor_twice (x m : Z) : Z.lxor (Z.lxor x m) m = x.
Proof. rewrite Z.lxor_assoc, Z.lxor_nilpotent, Z.lxor_0_r. reflexivity. Qed.

Lemma shiftr_all_ones (n : Z) :
  0 <= n <= 64 -> Z.shiftr 18446744073709551615 (64 - n) = 2 ^ n - 1.
Proof.
  intros Hn. rewrite Z.shiftr_div_pow2 by lia.
  change 18446744073709551615 with (2 ^ 64 - 1).
  assert (Hp : 2 ^ 64 = 2 ^ n * 2 ^ (64 - n))
    by (rewrite <- Z.pow_add_r by lia; f_equal; lia).
  assert (0 < 2 ^ (64 - n)) by (apply Z.pow_pos_nonneg; lia).
  symmetry. apply (Z.div_unique _ _ _ (2 ^ (64 - n) - 1)); [lia |].
  rewrite Hp. ring.
Qed.

Lemma flip_mask_64_value_aux (n : Z) :
  0 <= n < 64 ->
  get_flip_mask_64 n = Ok (2 ^ n - 1) /\ 0 <= 2 ^ n - 1 < 2 ^ 64.
Proof.
  intros Hn. split.
  - unfold get_flip_mask_64.
    destruct (Z.eqb_spec n 0) as [-> | Hn0]; [reflexivity |].
    replace (n <=? 64) with true by (symmetry; apply Z.leb_le; lia).
    rewrite shiftr_all_ones by lia. reflexivity.
  - assert (0 < 2 ^ n) by (apply Z.pow_pos_nonneg; lia).
    assert (2 ^ n < 2 ^ 64) by (apply Z.pow_lt_mono_r; lia). lia.
Qed.

(** X13. For [n <= 64] spins [get_flip_mask_64] is the word with the [n]
    lowest bits set; [x ^ mask] is then the complement of an [n]-bit pattern
    [x] within [n] bits, and flipping twice gives [x] back. For [n > 64] the
    shift count is out of range. *)
Theorem flip_mask_64_complements (n : Z) :
  (0 <= n <= 64 ->
   get_flip_mask_64 n = Ok (2 ^ n - 1)
   /\ forall x, 0 <= x < 2 ^ n ->
        Z.lxor x (2 ^ n - 1) = 2 ^ n - 1 - x
        /\ Z.lxor (Z.lxor x (2 ^ n - 1)) (2 ^ n - 1) = x)
  /\ (64 < n -> get_flip_mask_64 n = Crash).
Proof.
  split.
  - intros Hn. split.
    + unfold get_flip_mask_64.
      destruct (Z.eqb_spec n 0) as [-> | Hn0]; [reflexivity |].
      replace (n <=? 64) with true by (symmetry; apply Z.leb_le; lia).
      rewrite shiftr_all_ones by exact Hn. reflexivity.
    + intros x Hx. split; [apply lxor_low_mask; lia | apply lxor_twice].
  - intros Hn. unfold get_flip_mask_64.
    replace (n =? 0) with false by (symmetry; apply Z.eqb_neq; lia).
    replace (n <=? 64) with false by (symmetry; apply Z.leb_gt; lia).
    reflexivity.
Qed.

Lemma testbit_word_sum (a A i : Z) :
  0 <= a < 2 ^ 64 -> 0 <= i ->
  Z.testbit (a + 2 ^ 64 * A) i = if i <? 64 then Z.testbit a i else Z.testbit A (i - 64).
Proof.
  intros Ha Hi.
  destruct (Z.ltb_spec i 64) as [Hlt | Hge].
  - rewrite <- (Z.mod_pow2_bits_low (a + 2 ^ 64 * A) 64 i) by lia.
    rewrite Z.mul_comm, Z.mod_add, Z.mod_small by lia. reflexivity.
  - replace (Z.testbit (a + 2 ^ 64 * A) i)
      with (Z.testbit (a + 2 ^ 64 * A) (i - 64 + 64)) by (f_equal; lia).
    rewrite <- (Z.div_pow2_bits (a + 2 ^ 64 * A) 64 (i - 64)) by lia.
    rewrite Z.mul_comm, Z.div_add, Z.div_small by lia. reflexivity.
Qed.

Lemma lxor_word_range (a b : Z) :
  0 <= a < 2 ^ 64 -> 0 <= b < 2 ^ 64 -> 0 <= Z.lxor a b < 2 ^ 64.
Proof.
  intros Ha Hb.
  assert (H0 : 0 <= Z.lxor a b) by (apply Z.lxor_nonneg; lia).
  split; [exact H0 |].
  destruct (Z.eq_dec (Z.lxor a b) 0) as [-> | Hne]; [lia |].
  apply Z.log2_lt_pow2; [lia |].
  eapply Z.le_lt_trans; [apply Z.log2_lxor; lia |].
  apply Z.max_lub_lt.
  - destruct (Z.eq_dec a 0) as [-> | ?]; [reflexivity | apply Z.log2_lt_pow2; lia].
  - destruct (Z.eq_dec b 0) as [-> | ?]; [reflexivity | apply Z.log2_lt_pow2; lia].
Qed.

Lemma lxor_word_sum (a A b B : Z) :
  0 <= a < 2 ^ 64 -> 0 <= b < 2 ^ 64 ->
  Z.lxor (a + 2 ^ 64 * A) (b + 2 ^ 64 * B) = Z.lxor a b + 2 ^ 64 * Z.lxor A B.
Proof.
  intros Ha Hb. pose proof (lxor_word_range a b Ha Hb) as Hab.
  apply Z.bits_inj'. intros i Hi.
  rewrite Z.lxor_spec, !testbit_word_sum by lia.
  destruct (i <? 64); rewrite Z.lxor_spec; reflexivity.
Qed.

Lemma bits512_to_Z_range (x : bits512) :
  Forall (fun w => 0 <= w < 2 ^ 64) x ->
  0 <= bits512_to_Z x < 2 ^ (64 * Z.of_nat (length x)).
Proof.
  induction 1 as [| w x Hw Hx IH]; cbn [bits512_to_Z length]; [cbn; lia |].
  change 18446744073709551616 with (2 ^ 64).
  replace (64 * Z.of_nat (S (length x))) with (64 + 64 * Z.of_nat (length x)) by lia.
  rewrite Z.pow_add_r by lia. nia.
Qed.

Lemma bits512_to_Z_xor (x y : bits512) :
  length x = length y ->
  Forall (fun w => 0 <= w < 2 ^ 64) x -> Forall (fun w => 0 <= w < 2 ^ 64) y ->
  bits512_to_Z (bits512_xor x y) = Z.lxor (bits512_to_Z x) (bits512_to_Z y)
  /\ Forall (fun w => 0 <= w < 2 ^ 64) (bits512_xor x y)
  /\ length (bits512_xor x y) = length x.
Proof.
  revert y; induction x as [| a x IH]; intros [| b y] Hlen Hx Hy; try discriminate;
    cbn [bits512_xor bits512_to_Z length].
  - split; [reflexivity | split; [constructor | reflexivity]].
  - apply Forall_cons_iff in Hx. destruct Hx as [Ha Hx].
    apply Forall_cons_iff in Hy. destruct Hy as [Hb Hy].
    destruct (IH y ltac:(cbn in Hlen; lia) Hx Hy) as (Hz & Hr & Hl).
    change 18446744073709551616 with (2 ^ 64).
    split; [rewrite Hz, lxor_word_sum by assumption; reflexivity |].
    split; [constructor; [apply lxor_word_range; assumption | exact Hr] |].
    rewrite Hl. reflexivity.
Qed.

Lemma bits512_xor_twice (x m : bits512) :
  length x = length m -> bits512_xor (bits512_xor x m) m = x.
Proof.
  revert m; induction x as [| a x IH]; intros [| b m] Hlen; try discriminate;
    cbn [bits512_xor]; [reflexivity |].
  rewrite lxor_twice, IH by (cbn in Hlen; lia). reflexivity.
Qed.

Lemma bits512_to_Z_zeros (k : nat) : bits512_to_Z (repeat 0 k) = 0.
Proof. induction k as [| k IH]; cbn [repeat bits512_to_Z]; [reflexivity | rewrite IH; lia]. Qed.

Lemma flip_words_value (k : nat) (n : Z) :
  (0 <= n <= 64 * Z.of_nat k ->
   exists ws, flip_words k n = Ok ws
              /\ length ws = k
              /\ Forall (fun w => 0 <= w < 2 ^ 64) ws
              /\ bits512_to_Z ws = 2 ^ n - 1)
  /\ (64 * Z.of_nat k < n -> flip_words k n = Crash).
Proof.
  revert n; induction k as [| k IH]; intros n; cbn [flip_words].
  - split.
    + intros Hn. assert (n = 0) by lia. subst n. exists []. cbn.
      repeat split; constructor.
    + intros Hn. replace (n =? 0) with false by (symmetry; apply Z.eqb_neq; lia).
      reflexivity.
  - destruct (Z.leb_spec 64 n) as [Hge | Hlt].
    + split.
      * intros Hn. destruct (proj1 (IH (n - 64)) ltac:(lia)) as (ws & -> & Hl & Hr & Hz).
        cbn [bind]. eexists; split; [reflexivity |].
        split; [cbn; lia |]. split; [constructor; [lia | exact Hr] |].
        cbn [bits512_to_Z]. rewrite Hz.
        change 18446744073709551616 with (2 ^ 64).
        replace (2 ^ n) with (2 ^ 64 * 2 ^ (n - 64))
          by (rewrite <- Z.pow_add_r by lia; f_equal; lia).
        lia.
      * intros Hn. rewrite (proj2 (IH (n - 64))) by lia. reflexivity.
    + split; [| lia]. intros Hn.
      assert (Hzeros : Forall (fun w => 0 <= w < 2 ^ 64) (repeat 0 k))
        by (apply Forall_forall; intros w Hw; apply repeat_spec in Hw; subst; lia).
      destruct (Z.eqb_spec n 0) as [-> | Hn0]; cbn [negb].
      * exists (repeat 0 (S k)). split; [reflexivity |].
        split; [apply repeat_length |].
        split; [cbn [repeat]; constructor; [lia | exact Hzeros] |].
        rewrite bits512_to_Z_zeros. reflexivity.
      * destruct (flip_mask_64_value_aux n ltac:(lia)) as [Hm Hrange].
        rewrite Hm. cbn [bind]. eexists; split; [reflexivity |].
        split; [cbn [length]; rewrite repeat_length; reflexivity |].
        split; [constructor; [exact Hrange | exact Hzeros] |].
        cbn [bits512_to_Z]. rewrite bits512_to_Z_zeros. lia.
Qed.

(** X14. For [n <= 512] spins [get_flip_mask_512] is the pattern of eight
    words with the [n] lowest bits set; [x ^= mask] then turns a pattern [x]
    of [n] bits into its complement within [n] bits, and flipping twice gives
    [x] back. For [n > 512] a word past [words[7]] is written. *)
Theorem flip_mask_512_complements (n : Z) :
  (0 <= n <= 512 ->
   exists mask,
     get_flip_mask_512 n = Ok mask
     /\ well_formed512 mask
     /\ bits512_to_Z mask = 2 ^ n - 1
     /\ forall x, well_formed512 x -> bits512_to_Z x < 2 ^ n ->
          well_formed512 (bits512_xor x mask)
          /\ bits512_to_Z (bits512_xor x mask) = 2 ^ n - 1 - bits512_to_Z x
          /\ bits512_xor (bits512_xor x mask) mask = x)
  /\ (512 < n -> get_flip_mask_512 n = Crash).
Proof.
  unfold get_flip_mask_512. split.
  - intros Hn.
    destruct (proj1 (flip_words_value 8 n) ltac:(lia)) as (mask & Hm & Hl & Hr & Hz).
    exists mask. split; [exact Hm |]. split; [split; assumption |].
    split; [exact Hz |].
    intros x [Hxl Hxr] Hx.
    destruct (bits512_to_Z_xor x mask ltac:(congruence) Hxr Hr) as (Hv & Hw & Hlen).
    split; [split; [congruence | exact Hw] |].
    split.
    + rewrite Hv, Hz. apply lxor_low_mask; [lia |].
      pose proof (bits512_to_Z_range x Hxr). lia.
    + apply bits512_xor_twice. congruence.
  - intros Hn. apply (proj2 (flip_words_value 8 n)). lia.
Qed.

(** ** The representative and its character *)

(** X15. With symmetries present, the representative that [get_state_info]
    returns is the least pattern among the input and its extended orbit: it is
    at most every element of the orbit, and it is the input or one of them. On
    64 bits (fewer than 8 lanes in the remainder batch) and on 512 bits. *)
Theorem representative_is_minimum :
  (forall basis_header basis_body bits repr c norm,
      has_symmetries basis_header = true ->
      number_other_symmetries basis_body < 8 ->
      get_state_info_64 basis_header basis_body bits = Ok (repr, c, norm) ->
      (forall el, In el (small_orbit basis_header basis_body bits) -> repr <= fst el)
      /\ (repr = bits
          \/ exists e, In (repr, e) (small_orbit basis_header basis_body bits)))
  /\ (forall basis_header basis_body bits repr c norm,
         has_symmetries basis_header = true ->
         get_state_info_512 basis_header basis_body bits = Ok (repr, c, norm) ->
         (forall x, In x (big_orbit basis_header basis_body bits) ->
            bits512_to_Z repr <= bits512_to_Z x)
         /\ (repr = bits \/ In repr (big_orbit basis_header basis_body bits))).
Proof.
  split.
  - intros basis_header basis_body bits repr c norm Hsym Hcount H.
    apply get_state_info_64_inv in H.
    destruct H as [(Hno & _) | (_ & acc & nrm & Hscan & Hred & _)]; [congruence |].
    pose proof (reduce_minimum _ _ _ _ Hscan) as Hmin. rewrite Hred in Hmin.
    destruct Hmin as (_ & Hle & Hc). split.
    + intros el Hel. apply Hle; [exact Hel | lia].
    + destruct Hc as [[Hb _] | [_ Hin]]; [left; exact Hb | right; exists c; exact Hin].
  - intros basis_header basis_body bits repr c norm Hsym H.
    unfold get_state_info_512 in H. unfold big_orbit. rewrite Hsym in H. cbn [negb] in H.
    destruct (get_flip_mask_512 (number_spins basis_header)) as [flip_mask | e |];
      try discriminate.
    cbn [bind] in H.
    pose proof (big_fold_minimum basis_header flip_mask
                  (double_of_Z (spin_inversion basis_header)) bits
                  (symmetries basis_body)) as Hmin.
    destruct (fold_left _ (symmetries basis_body) _) as [[r0 n0] e0].
    destruct (0 <=? snap n0)%float; cbn [negb] in H; [| discriminate].
    inversion H; subst. destruct Hmin as (_ & Hle & Hin).
    split; [exact Hle |]. destruct Hin as [Hb | [_ Hin]]; [left | right]; assumption.
Qed.

Lemma big_visit_character (bits : bits512) (seen : list (bits512 * complex))
    (st : bits512 * float * complex) (z : bits512) (w : float) (e : complex) :
  (let '(r0, _, e0) := st in
   (r0 = bits /\ e0 = (1%float, 0%float))
   \/ (bits512_to_Z r0 < bits512_to_Z bits /\ In (r0, e0) seen)) ->
  let '(r1, _, e1) := big_visit bits st z w e in
  (r1 = bits /\ e1 = (1%float, 0%float))
  \/ (bits512_to_Z r1 < bits512_to_Z bits /\ In (r1, e1) (seen ++ [(z, e)])).
Proof.
  destruct st as [[r0 n0] e0]. intros Hinv.
  assert (Hkeep : (r0 = bits /\ e0 = (1%float, 0%float))
                  \/ (bits512_to_Z r0 < bits512_to_Z bits
                      /\ In (r0, e0) (seen ++ [(z, e)]))).
  { destruct Hinv as [H | [Hlt Hin]]; [left; exact H | right].
    split; [exact Hlt | apply in_or_app; left; exact Hin]. }
  unfold big_visit, bits512_ltb.
  destruct (Z.ltb_spec (bits512_to_Z z) (bits512_to_Z r0)) as [Hz | Hz].
  - right. split.
    + destruct Hinv as [[-> _] | [Hlt _]]; lia.
    + apply in_or_app; right; left; reflexivity.
  - destruct (bits512_eqb z bits); exact Hkeep.
Qed.

Lemma big_fold_character (basis_header : basis_base_t) (flip_mask : bits512)
    (flip_coeff : float) (bits : bits512) (l : list big_symmetry_t) :
  let '(r0, _, e0) :=
    fold_left (big_step basis_header flip_mask flip_coeff bits) l
      (bits, 0%float, (1%float, 0%float)) in
  (r0 = bits /\ e0 = (1%float, 0%float))
  \/ (bits512_to_Z r0 < bits512_to_Z bits
      /\ In (r0, e0) (flat_map (big_pairs basis_header flip_mask flip_coeff bits) l)).
Proof.
  induction l as [| s l IH] using rev_ind.
  - cbn. left; split; reflexivity.
  - rewrite fold_left_app, flat_map_app. cbn [fold_left flat_map]. rewrite app_nil_r.
    rewrite big_step_visits. cbn zeta.
    set (seen := flat_map (big_pairs basis_header flip_mask flip_coeff bits) l) in *.
    set (st := fold_left _ l _) in *.
    pose proof (big_visit_character bits seen st (big_network s bits)
                  (fst (big_eigenvalue s)) (big_eigenvalue s)) as H1.
    assert (IH' : let '(r0, _, e0) := st in
                  (r0 = bits /\ e0 = (1%float, 0%float))
                  \/ (bits512_to_Z r0 < bits512_to_Z bits /\ In (r0, e0) seen))
      by (destruct st as [[? ?] ?]; exact IH).
    specialize (H1 IH'). unfold big_pairs.
    destruct (spin_inversion basis_header =? 0); cbn [negb]; [exact H1 |].
    set (st1 := big_visit bits st _ _ _) in *.
    pose proof (big_visit_character bits (seen ++ [(big_network s bits, big_eigenvalue s)])
                  st1 (bits512_xor (big_network s bits) flip_mask)
                  (flip_coeff * fst (big_eigenvalue s))%float
                  (scale flip_coeff (big_eigenvalue s))) as H2.
    assert (H1' : let '(r0, _, e0) := st1 in
                  (r0 = bits /\ e0 = (1%float, 0%float))
                  \/ (bits512_to_Z r0 < bits512_to_Z bits
                      /\ In (r0, e0) (seen ++ [(big_network s bits, big_eigenvalue s)])))
      by (destruct st1 as [[? ?] ?]; exact H1).
    specialize (H2 H1').
    destruct (big_visit bits st1 _ _ _) as [[r2 n2] e2].
    cbn [app]. rewrite <- app_assoc in H2. exact H2.
Qed.

(** X16. The character that [get_state_info] returns goes with the
    representative: it is [(1, 0)] when the representative is the input, and
    otherwise it is the eigenvalue of an element of the extended orbit that
    equals the representative, scaled by the spin-inversion coefficient on the
    flipped branch. On 64 and on 512 bits. *)
Theorem character_of_representative :
  (forall basis_header basis_body bits repr c norm,
      get_state_info_64 basis_header basis_body bits = Ok (repr, c, norm) ->
      (repr = bits -> c = (1%float, 0%float))
      /\ (repr <> bits -> In (repr, c) (small_orbit basis_header basis_body bits)))
  /\ (forall basis_header basis_body bits repr c norm,
         get_state_info_512 basis_header basis_body bits = Ok (repr, c, norm) ->
         (repr = bits -> c = (1%float, 0%float))
         /\ (repr <> bits -> In (repr, c) (big_pair_orbit basis_header basis_body bits))).
Proof.
  split.
  - intros basis_header basis_body bits repr c norm H.
    apply get_state_info_64_inv in H.
    destruct H as [(_ & -> & -> & _) | (_ & acc & nrm & Hscan & Hred & _)];
      [split; [reflexivity | contradiction] |].
    pose proof (reduce_minimum _ _ _ _ Hscan) as Hmin. rewrite Hred in Hmin.
    destruct Hmin as (_ & _ & [[Hb Hc] | [Hlt Hin]]).
    + split; [intros _; exact Hc | contradiction].
    + split; [lia | intros _; exact Hin].
  - intros basis_header basis_body bits repr c norm H.
    unfold get_state_info_512 in H. unfold big_pair_orbit.
    destruct (has_symmetries basis_header); cbn [negb] in H;
      [| inversion H; subst; split; [reflexivity | contradiction]].
    destruct (get_flip_mask_512 (number_spins basis_header)) as [flip_mask | e |];
      try discriminate.
    cbn [bind] in H.
    pose proof (big_fold_character basis_header flip_mask
                  (double_of_Z (spin_inversion basis_header)) bits
                  (symmetries basis_body)) as Hc.
    destruct (fold_left _ (symmetries basis_body) _) as [[r0 n0] e0].
    destruct (0 <=? snap n0)%float; cbn [negb] in H; [| discriminate].
    inversion H; subst. destruct Hc as [[Hb He] | [Hlt Hin]].
    + split; [intros _; exact He | contradiction].
    + split; [intros ->; lia | intros _; exact Hin].
Qed.

(** ** Where [get_state_info] can abort *)


(** ** The short circuit of [is_representative] *)

(** X18. On a well-formed 64-bit basis with symmetries present,
    [is_representative] returns [false], without reaching the norm and its
    assertion, whenever an element of the extended orbit is below the input. *)
Theorem is_representative_short_circuit (basis_header : basis_base_t)
    (basis_body : small_basis_t) (bits : Z) :
  valid_small_basis basis_header basis_body ->
  has_symmetries basis_header = true ->
  (exists el, In el (small_orbit basis_header basis_body bits) /\ fst el < bits) ->
  is_representative basis_header basis_body bits = Ok false.
Proof.
  intros (Hn & Hc & _) Hsym (el & Hel & Hlt).
  destruct (get_flip_mask_64_defined _ Hn) as [m Hm].
  destruct (small_scan_lanes basis_header basis_body bits m Hm ltac:(lia))
    as (full & Hscan & _).
  destruct (scans_agree basis_header basis_body bits ltac:(lia)) as [Hfast Hfull].
  destruct (Hfull full Hscan) as [scanned Hs].
  destruct (Hfast scanned Hs) as (full' & Hscan' & Hagree).
  assert (full' = full) by congruence. subst full'.
  unfold is_representative. rewrite Hsym, Hs. cbn [negb bind].
  destruct scanned as [acc |]; [exfalso | reflexivity].
  destruct (orbit_in_lane basis_header (flip_mask_of basis_header)
              (flip_coeff_of basis_header) bits basis_body el ltac:(lia) Hel)
    as (i & Hi & Hin).
  pose proof (small_scan_spec _ _ _ _ Hscan i) as Hlane.
  pose proof (lane_run_spec bits
                (lane_sequence basis_header (flip_mask_of basis_header)
                   (flip_coeff_of basis_header) bits basis_body i)) as Hspec.
  rewrite <- Hlane in Hspec. unfold lane_of in Hspec.
  destruct Hspec as (_ & Hmin & _). specialize (Hmin el Hin).
  destruct (Hagree i Hi) as (_ & _ & _ & Hr & _). lia.
Qed.

(** Witness of X18: the pattern [0b1010] on the ring of four sites, whose
    translate [0b0101] is smaller. *)
Lemma is_representative_short_circuit_witness :
  is_representative (ring4_header 0) (small_basis_of_specs ring4_group) 10 = Ok false.
Proof.
  apply (is_representative_short_circuit (ring4_header 0)
           (small_basis_of_specs ring4_group) 10).
  - apply valid_ring4_basis.
  - reflexivity.
  - exists (5, (0%float, 1%float)). split; [| cbn; lia].
    vm_compute. left; reflexivity.
Defined.

(** ** The padding lanes of the remainder batch *)

Lemma reduce_ext (acc1 acc2 : batch_acc_64_arch_t) :
  (forall i, (i < 8)%nat -> lane_of acc1 i = lane_of acc2 i) ->
  reduce acc1 = reduce acc2.
Proof.
  intros H.
  assert (Hr : forall i, (i < 8)%nat -> r acc1 i = r acc2 i)
    by (intros i Hi; specialize (H i Hi); unfold lane_of in H; congruence).
  assert (Hn : forall i, (i < 8)%nat -> n acc1 i = n acc2 i)
    by (intros i Hi; specialize (H i Hi); unfold lane_of in H; congruence).
  assert (Hre : forall i, (i < 8)%nat -> e_re acc1 i = e_re acc2 i)
    by (intros i Hi; specialize (H i Hi); unfold lane_of in H; congruence).
  assert (Him : forall i, (i < 8)%nat -> e_im acc1 i = e_im acc2 i)
    by (intros i Hi; specialize (H i Hi); unfold lane_of in H; congruence).
  unfold reduce, reduce_norm_only, horizontal_add, select, vlt, get_low, get_high.
  cbn [Nat.add].
  rewrite !Hr, !Hn, !Hre, !Him by lia. reflexivity.
Qed.

(** X19. The lanes of the remainder batch at and beyond
    [number_other_symmetries] are padding: two 64-bit bases that differ only
    there (their valid lanes send the input to the same images with the same
    eigenvalues) give the same outcome of [get_state_info]. *)
Theorem padding_lanes_ignored (basis_header : basis_base_t)
    (batches : list batched_small_symmetry_t) (s1 s2 : batched_small_symmetry_t)
    (count bits : Z) :
  count < 8 ->
  (forall i, Z.of_nat i < count ->
     lane_network s1 i bits = lane_network s2 i bits
     /\ eigenvalues_real s1 i = eigenvalues_real s2 i
     /\ eigenvalues_imag s1 i = eigenvalues_imag s2 i) ->
  get_state_info_64 basis_header
    {| batched_symmetries := batches; other_symmetries := Some s1;
       number_other_symmetries := count |} bits
  = get_state_info_64 basis_header
      {| batched_symmetries := batches; other_symmetries := Some s2;
         number_other_symmetries := count |} bits.
Proof.
  intros Hcount Hsame.
  set (body1 := {| batched_symmetries := batches; other_symmetries := Some s1;
                   number_other_symmetries := count |}).
  set (body2 := {| batched_symmetries := batches; other_symmetries := Some s2;
                   number_other_symmetries := count |}).
  unfold get_state_info_64. destruct (has_symmetries basis_header); cbn [negb];
    [| reflexivity].
  destruct (get_flip_mask_64 (number_spins basis_header)) as [m | e |] eqn:Hm.
  - destruct (small_scan_lanes basis_header body1 bits m Hm Hcount) as (acc1 & -> & H1).
    destruct (small_scan_lanes basis_header body2 bits m Hm Hcount) as (acc2 & -> & H2).
    cbn [bind].
    assert (E : reduce acc1 = reduce acc2).
    { apply reduce_ext. intros i _. rewrite H1, H2. f_equal.
      unfold lane_sequence. cbn [batched_symmetries other_symmetries
                                 number_other_symmetries body1 body2].
      f_equal. destruct (Z.ltb_spec (Z.of_nat i) count) as [Hi | Hi]; [| reflexivity].
      destruct (Hsame i Hi) as (Hx & Hre & Him).
      unfold lane_elements. rewrite Hx, Hre, Him. reflexivity. }
    rewrite E. reflexivity.
  - unfold small_scan. rewrite Hm. reflexivity.
  - unfold small_scan. rewrite Hm. reflexivity.
Qed.

(** Witness of X19: the group of the ring of four sites with the identity, or
    a translation, in the first padding lane. *)
Lemma padding_lanes_ignored_witness :
  get_state_info_64 (ring4_header 0)
    {| batched_symmetries := []; other_symmetries := Some (batch_of_specs ring4_group);
       number_other_symmetries := 4 |} 10
  = get_state_info_64 (ring4_header 0)
      {| batched_symmetries := [];
         other_symmetries := Some (batch_of_specs (ring4_group ++ [ring4 1]));
         number_other_symmetries := 4 |} 10.
Proof.
  apply (padding_lanes_ignored (ring4_header 0) [] (batch_of_specs ring4_group)
           (batch_of_specs (ring4_group ++ [ring4 1])) 4 10).
  - lia.
  - intros i Hi. do 4 (destruct i as [| i]; [repeat split; reflexivity |]). lia.
Defined.

(** ** A basis without symmetries whose header announces some *)

(** X20. When the header has [has_symmetries] set but the body holds no
    symmetry at all, the group size is 0 and [get_state_info] returns the
    input, the character [(1, 0)] and the norm [sqrt(0/0)], not a number, on
    64 and on 512 bits; [is_representative] returns [false]. *)
Theorem empty_body_norm_is_nan (basis_header : basis_base_t) :
  has_symmetries basis_header = true ->
  (0 <= number_spins basis_header <= 64 ->
   forall bits,
     get_state_info_64 basis_header
       {| batched_symmetries := []; other_symmetries := None;
          number_other_symmetries := 0 |} bits
     = Ok (bits, (1%float, 0%float), nan)
     /\ is_representative basis_header
          {| batched_symmetries := []; other_symmetries := None;
             number_other_symmetries := 0 |} bits
        = Ok false)
  /\ (0 <= number_spins basis_header <= 512 ->
      forall bits,
        get_state_info_512 basis_header {| symmetries := [] |} bits
        = Ok (bits, (1%float, 0%float), nan)).
Proof.
  intros Hsym. split.
  - intros Hn bits. destruct (get_flip_mask_64_defined _ Hn) as [m Hm]. split.
    + unfold get_state_info_64, small_scan, small_group_size. rewrite Hsym, Hm.
      cbn [negb bind batched_symmetries other_symmetries number_other_symmetries
           fold_left length].
      unfold reduce, reduce_norm_only, horizontal_add, select, vlt, get_low, get_high,
        batch_acc_init, broadcast.
      cbn [r n e_re e_im]. rewrite !Z.ltb_irrefl, Z.mul_0_r. reflexivity.
    + unfold is_representative, fast_scan. rewrite Hsym, Hm.
      cbn [negb bind batched_symmetries other_symmetries fold_left]. reflexivity.
  - intros Hn bits.
    destruct (flip_words_defined 8 (number_spins basis_header) ltac:(lia)) as [ws Hws].
    unfold get_state_info_512, get_flip_mask_512, big_group_size. rewrite Hsym, Hws.
    cbn [negb bind symmetries fold_left length]. rewrite Z.mul_0_r. reflexivity.
Qed.

(** Witness of X20: four spins. *)
Lemma empty_body_norm_is_nan_witness :
  (0 <= number_spins (ring4_header 0) <= 64 ->
   forall bits,
     get_state_info_64 (ring4_header 0)
       {| batched_symmetries := []; other_symmetries := None;
          number_other_symmetries := 0 |} bits
     = Ok (bits, (1%float, 0%float), nan)
     /\ is_representative (ring4_header 0)
          {| batched_symmetries := []; other_symmetries := None;
             number_other_symmetries := 0 |} bits
        = Ok false)
  /\ (0 <= number_spins (ring4_header 0) <= 512 ->
      forall bits,
        get_state_info_512 (ring4_header 0) {| symmetries := [] |} bits
        = Ok (bits, (1%float, 0%float), nan)).
Proof. apply (empty_body_norm_is_nan (ring4_header 0)). reflexivity. Defined.

(** * Further properties of the group facade *)

Section GroupCreationProperties.

Variable compute_periodicity : list Z -> Z.
Variable compile : list Z -> option fat_benes_network_t.
Variable compute_eigenvalue : Z -> Z -> complex.
Variable in_library_category : ls_error_code -> bool.

Lemma mapM_from_spec_only_incompatible (specs : list symmetry_spec_t) :
  only_incompatible (mapM (from_spec compile compute_eigenvalue) specs).
Proof.
  induction specs as [| s specs IH]; cbn [mapM]; [apply only_incompatible_Ok |].
  apply only_incompatible_bind.
  - intros e. unfold from_spec. destruct (compile _); discriminate.
  - intros b. apply only_incompatible_bind; [exact IH |].
    intros bs; apply only_incompatible_Ok.
Qed.

(** X21. [ls_create_group] without generators succeeds with the empty group,
    and a group it returns is empty only then; it has as many elements as the
    closure of the generators' specs. An error it returns is the
    [LS_INCOMPATIBLE_SYMMETRIES] of [make_group] when that error is of the
    library's category, and [LS_SYSTEM_ERROR] when it is not. *)
Theorem create_group_outcomes (fuel : nat) :
  ls_create_group compute_periodicity compile compute_eigenvalue in_library_category
    fuel []
  = Some (Ok {| payload := [] |})
  /\ (forall generators e,
         ls_create_group compute_periodicity compile compute_eigenvalue
           in_library_category fuel generators
         = Some (Failure e) ->
         make_group compute_periodicity fuel (map to_spec generators)
         = Some (Failure LS_INCOMPATIBLE_SYMMETRIES)
         /\ e = (if in_library_category LS_INCOMPATIBLE_SYMMETRIES
                 then LS_INCOMPATIBLE_SYMMETRIES else LS_SYSTEM_ERROR))
  /\ (forall generators group,
         ls_create_group compute_periodicity compile compute_eigenvalue
           in_library_category fuel generators
         = Some (Ok group) ->
         (payload group = [] <-> generators = [])
         /\ exists specs,
              make_group compute_periodicity fuel (map to_spec generators)
              = Some (Ok specs)
              /\ length (payload group) = length specs).
Proof.
  split; [reflexivity |]. split.
  - intros generators e. unfold ls_create_group, make_group_of_symmetries.
    destruct (make_group compute_periodicity fuel (map to_spec generators))
      as [[specs | e' |] |] eqn:Hg; try discriminate.
    + pose proof (mapM_from_spec_only_incompatible specs) as Hm.
      destruct (mapM _ specs) as [group | e' |] eqn:Hmap; cbn [bind]; try discriminate.
      intros _. exfalso. unfold from_spec in Hmap. clear Hm Hg.
      revert e' Hmap. induction specs as [| s specs IH]; intros e' Hmap;
        cbn [mapM] in Hmap; [discriminate |].
      destruct (compile (permutation s)); cbn [bind] in Hmap; [| discriminate].
      destruct (mapM _ specs) as [bs | e2 |]; cbn [bind] in Hmap; try discriminate.
      exact (IH e2 eq_refl).
    + assert (He' : e' = LS_INCOMPATIBLE_SYMMETRIES).
      { unfold make_group in Hg.
        destruct (map to_spec generators) as [| g0 rest]; [discriminate |].
        pose proof (dedup_only_incompatible (g0 :: rest) []) as Hd.
        destruct (dedup [] (g0 :: rest)) as [start | e2 |].
        - exact (closure_loop_only_incompatible _ _ _ _ Hg).
        - inversion Hg; subst. apply Hd; reflexivity.
        - discriminate. }
      subst e'. destruct (in_library_category LS_INCOMPATIBLE_SYMMETRIES);
        intros H; inversion H; subst; split; reflexivity.
  - intros generators group. unfold ls_create_group, make_group_of_symmetries.
    destruct (make_group compute_periodicity fuel (map to_spec generators))
      as [[specs | e |] |] eqn:Hg; try discriminate;
      [| destruct (in_library_category e); discriminate].
    destruct (mapM _ specs) as [syms | e |] eqn:Hm; cbn [bind]; try discriminate.
    intros H; inversion H; subst; cbn [payload].
    pose proof (mapM_length _ _ _ Hm) as Hlen.
    split; [| exists specs; split; [reflexivity | exact Hlen]].
    split.
    + intros ->. destruct generators as [| g0 rest]; [reflexivity | exfalso].
      cbn [map] in Hg. unfold make_group in Hg.
      destruct (dedup [] (to_spec g0 :: map to_spec rest)) as [start | |] eqn:Hdedup;
        try discriminate.
      destruct (dedup_sound _ _ _ Hdedup distinct_nil) as (Hd & _ & Hcov).
      destruct (closure_loop_sound _ _ _ _ Hg Hd) as (_ & [tail Htail] & _).
      destruct (Hcov (to_spec g0) (or_introl eq_refl)) as (g' & Hin & _).
      destruct specs; [| discriminate].
      destruct start; [destruct Hin | discriminate].
    + intros ->. cbn in Hg. inversion Hg; subst. cbn in Hm. inversion Hm. reflexivity.
Qed.

(** X22. [from_spec] followed by [to_spec] gives the spec back: on a valid
    spec whose compiled network realises its permutation, the casts of
    [to_spec] lose nothing. *)
Theorem to_spec_from_spec (spec : symmetry_spec_t) (symmetry : ls_symmetry) :
  valid_spec spec ->
  from_spec compile compute_eigenvalue spec = Ok symmetry ->
  net_permutation (network symmetry) = permutation spec ->
  to_spec symmetry = spec
  /\ eigenvalue symmetry = compute_eigenvalue (sector spec) (periodicity spec)
  /\ is_big symmetry = Nat.ltb 64 (length (permutation spec)).
Proof.
  intros (Hall & Hlen & Hs & Hp) H Hperm. unfold from_spec in H.
  destruct (compile (permutation spec)) as [fat |]; [| discriminate].
  inversion H; subst; clear H. cbn [network] in Hperm.
  cbn [eigenvalue is_big]. split; [| split; reflexivity].
  unfold to_spec; cbn [network sym_sector sym_periodicity].
  rewrite Hperm, !u16_small by lia.
  replace (map u16 (permutation spec)) with (permutation spec);
    [destruct spec; reflexivity |].
  symmetry. rewrite <- (map_id (permutation spec)) at 2.
  apply map_ext_in. intros v Hv. rewrite Forall_forall in Hall.
  specialize (Hall v Hv). apply u16_small. lia.
Qed.

End GroupCreationProperties.

(** Witness of X22: the translation of the ring of four sites. *)
Lemma to_spec_from_spec_witness :
  to_spec {| network := {| net_permutation := [1; 2; 3; 0]; net_depth := 3 |};
             sym_sector := 1; sym_periodicity := 4;
             eigenvalue := quarter_turn_eigenvalue 1 4; is_big := false |}
  = ring4 1
  /\ quarter_turn_eigenvalue 1 4
     = quarter_turn_eigenvalue (sector (ring4 1)) (periodicity (ring4 1))
  /\ false = Nat.ltb 64 (length (permutation (ring4 1))).
Proof.
  apply (to_spec_from_spec reference_compile quarter_turn_eigenvalue (ring4 1)
           {| network := {| net_permutation := [1; 2; 3; 0]; net_depth := 3 |};
              sym_sector := 1; sym_periodicity := 4;
              eigenvalue := quarter_turn_eigenvalue 1 4; is_big := false |}).
  - apply valid_ring4; lia.
  - reflexivity.
  - reflexivity.
Defined.

(** * Further properties: order and ties *)

Section MakeGroupOrder.

Variable compute_periodicity : list Z -> Z.

(** X23. [make_group] only appends: when no two generators are [equal], the
    returned group begins with the generators in the order they were given. *)
Theorem make_group_extends_generators (fuel : nat)
    (generators group : list symmetry_spec_t) :
  distinct generators ->
  make_group compute_periodicity fuel generators = Some (Ok group) ->
  exists tail, group = generators ++ tail.
Proof.
  intros Hd. unfold make_group. destruct generators as [| g0 rest].
  - intros H; inversion H; subst. exists []. reflexivity.
  - rewrite (dedup_distinct (g0 :: rest) []) by exact Hd. cbn [app]. intros Hloop.
    destruct (closure_loop_sound _ _ _ _ Hloop Hd) as (_ & Htail & _). exact Htail.
Qed.

End MakeGroupOrder.

Lemma distinct_singleton (g : symmetry_spec_t) : distinct [g].
Proof.
  intros i j a b Hij Ha Hb.
  destruct j as [| j]; [lia |]. destruct j; discriminate.
Qed.

(** Witness of X23: the group of the translation of the ring of four sites
    begins with the translation. *)
Lemma make_group_extends_generators_witness :
  exists tail, ring4_group = [ring4 1] ++ tail.
Proof.
  apply (make_group_extends_generators permutation_order 10 [ring4 1] ring4_group).
  - apply distinct_singleton.
  - vm_compute. reflexivity.
Defined.




(** * The norm of [get_state_info] *)



